(** * Vennex: Venn-diagram histograms of k-mer tables

    A shallow embedding of [Vennex.c] (FASTK): the key comparator [mycmp],
    the two merge engines [Venn2] and [Venn], and the set-up and output code
    of [main], followed by the properties established about them.

    Conventions of the embedding.
    - A [uint8] is a [Z] in [0, 256); a key buffer is the list of its bytes.
    - C [int] and [int64] arithmetic is written with its wrap-around
      ([int_of], [int64_of]).
    - The histogram block returned by [Malloc] is a [list Z] of 64-bit
      counters; an [int64 *] into it is the element offset (a [Z], possibly
      negative) from the start of the block.  Every array access is checked:
      an access outside the array is undefined behaviour in C and is the
      outcome [Fault] here.
    - Loops that C writes as [while (1)] run on a budget of iterations; the
      entry points choose the budget from the table sizes, and running out is
      the outcome [Timeout] (shown not to happen). *)

From Stdlib Require Import ZArith List Bool Ascii String Lia.
From stdpp Require Import base option list gmap sets.

Local Open Scope Z_scope.

(* ===================================================================== *)
(** * Machine integers *)
(* ===================================================================== *)

(** Conversion to a 32-bit [int] (two's complement wrap-around). *)
Definition int_of (z : Z) : Z := (z + 2 ^ 31) mod 2 ^ 32 - 2 ^ 31.

(** Conversion to a 64-bit [int64] / [long]. *)
Definition int64_of (z : Z) : Z := (z + 2 ^ 63) mod 2 ^ 64 - 2 ^ 63.

(* ===================================================================== *)
(** * Outcomes of checked, budgeted code *)
(* ===================================================================== *)

Inductive outcome (A : Type) : Type :=
| Done (a : A)
| Fault
| Timeout.

Arguments Done {A} a.
Arguments Fault {A}.
Arguments Timeout {A}.

#[global] Instance outcome_ret : MRet outcome := fun A a => Done a.

#[global] Instance outcome_bind : MBind outcome := fun A B f m =>
  match m with
  | Done a => f a
  | Fault => Fault
  | Timeout => Timeout
  end.

(** [a[i]] for an array held in a list: reading outside it faults. *)
Definition rd {A : Type} (l : list A) (i : nat) : outcome A :=
  match l !! i with
  | Some x => Done x
  | None => Fault
  end.

(** [p[0]] for an [int64 *] at element offset [a] of the counter block. *)
Definition rd64 (mem : list Z) (a : Z) : outcome Z :=
  if (0 <=? a) && (a <? Z.of_nat (length mem)) then rd mem (Z.to_nat a) else Fault.

(* ===================================================================== *)
(** * Key comparator *)
(* ===================================================================== *)

(** [mycmp]: the loop [while (n-- > 0)] over the two byte pointers.  A buffer
    that ends before [n] bytes is outside the function's contract (the C code
    would read on past the key); the model stops with 0 there. *)
Fixpoint mycmp_loop (a b : list Z) (n : nat) {struct n} : Z :=
  match n with
  | O => 0
  | S n' =>
      match a, b with
      | x :: a', y :: b' =>
          if negb (x =? y) then (if x <? y then -1 else 1)
          else mycmp_loop a' b' n'
      | _, _ => 0
      end
  end.

Definition mycmp (a b : list Z) (n : Z) : Z := mycmp_loop a b (Z.to_nat n).

(** The order the specification names: lexicographic order on byte
    sequences, decided at the first position where they differ. *)
Definition lex_lt (a b : list Z) : Prop :=
  exists (i : nat) (x y : Z),
    take i a = take i b /\ a !! i = Some x /\ b !! i = Some y /\ x < y.

(* ===================================================================== *)
(** * Entries and stream cursors *)
(* ===================================================================== *)

(** An entry of a table: [kbyte] key bytes followed by a 16-bit count.  A
    [uint8 *] to an entry is the entry itself; [NULL] is [None]. *)
Record Entry : Type := mkEntry { ekey : list Z; ecount : Z }.

(** [COUNT_OF(p)]: the [uint16] stored right after the key bytes. *)
Definition COUNT_OF (p : Entry) : Z := ecount p.

(** Modelled from the spec: the stream library ([libfastk.h]:
    [Kmer_Stream], [First_Kmer_Entry], [Next_Kmer_Entry]) is not part of the
    sources.  A stream is a finite sequence of entries with a cursor that
    advances one entry at a time and reports exhaustion by [NULL]. *)
Record Kmer_Stream : Type := mkStream {
  kmer : Z;
  kbyte : Z;
  table : list Entry;
  cidx : nat
}.

(** Modelled from the spec: the entry under the cursor of a stream, [None]
    once the stream is exhausted (the library's code is not part of the
    sources). *)
Definition current (T : Kmer_Stream) : option Entry := table T !! cidx T.

(** Modelled from the spec: [First_Kmer_Entry] of the absent stream library
    puts the cursor on the first entry and returns it, [NULL] for an empty
    table. *)
Definition First_Kmer_Entry (T : Kmer_Stream) : Kmer_Stream * option Entry :=
  let T' := mkStream (kmer T) (kbyte T) (table T) 0%nat in (T', current T').

(** Modelled from the spec: [Next_Kmer_Entry] of the absent stream library
    advances the cursor by one entry and returns the entry it reaches,
    [NULL] at the end of the table. *)
Definition Next_Kmer_Entry (T : Kmer_Stream) : Kmer_Stream * option Entry :=
  let T' := mkStream (kmer T) (kbyte T) (table T) (S (cidx T)) in (T', current T').

(** [ptr = Next_Kmer_Entry(T[x])] with [T] an array of streams: the stream is
    advanced in place. *)
Definition next_in (Tv : list Kmer_Stream) (x : nat)
  : outcome (list Kmer_Stream * option Entry) :=
  Tx ← rd Tv x;
  let '(Tx', p) := Next_Kmer_Entry Tx in
  Done (<[x := Tx']> Tv, p).

(* ===================================================================== *)
(** * Histogram update *)
(* ===================================================================== *)

(** [h[bin] += 1] on the counter block. *)
Definition hist_add (h bin : Z) (mem : list Z) : outcome (list Z) :=
  v ← rd64 mem (h + bin);
  Done (<[Z.to_nat (h + bin) := int64_of (v + 1)]> mem).

(** The three-way [if] of lines 97-102 and again 108-113. *)
Definition hist_update (HIST_LOW HIST_HGH : Z) (h c : Z) (mem : list Z)
  : outcome (list Z) :=
  if c <=? HIST_LOW then hist_add h HIST_LOW mem
  else if c >=? HIST_HGH then hist_add h HIST_HGH mem
  else hist_add h c mem.

(** [a[i] = x]: writing outside the array faults. *)
Definition wr {A : Type} (l : list A) (i : nat) (x : A) : outcome (list A) :=
  if (i <? length l)%nat then Done (<[i := x]> l) else Fault.

(** [ptr = First_Kmer_Entry(T[x])]. *)
Definition first_in (Tv : list Kmer_Stream) (x : nat)
  : outcome (list Kmer_Stream * option Entry) :=
  Tx ← rd Tv x;
  let '(Tx', p) := First_Kmer_Entry Tx in
  Done (<[x := Tx']> Tv, p).

(* ===================================================================== *)
(** * The 2-way merge, [Venn2] *)
(* ===================================================================== *)

(** Ghost information: which loop of [Venn2] an iteration belongs to. *)
Inductive phase : Type := Compare | Drain.

(** Ghost record of one iteration that updates a histogram: the loop, the
    histogram pointer [h] and the contributed count [c] handed to the
    update, and the entries (each with the index of its stream) whose
    cursor the iteration advanced. *)
Record v2_event : Type := mkEv {
  ev_phase : phase;
  ev_hist : Z;
  ev_count : Z;
  ev_used : list (nat * Entry)
}.

(** The variables of [Venn2].  [T] and [U] point into the array [Tv]; they
    are the indices of the streams they point to, so that [T = U] aliases.
    [v2_log] is ghost state: the record of the iterations so far. *)
Record venn2_state : Type := mkV2 {
  v2_Tv : list Kmer_Stream;
  v2_T : nat;
  v2_U : nat;
  v2_AminB : Z;
  v2_BminA : Z;
  v2_Inter : Z;
  v2_iptr : option Entry;
  v2_jptr : option Entry;
  v2_mem : list Z;
  v2_log : list v2_event
}.

(** One pass through the body of the [while (1)] loop (lines 69-102); the
    boolean tells whether the loop goes round again ([false]: a [break]). *)
Definition Venn2_body (HIST_LOW HIST_HGH kb : Z) (s : venn2_state)
  : outcome (bool * venn2_state) :=
  let '(mkV2 Tv T U AminB BminA Inter iptr jptr mem log) := s in
  match iptr with
  | None => Done (false, mkV2 Tv U U BminA BminA Inter jptr jptr mem log)
  | Some ip =>
      match jptr with
      | None => Done (false, s)
      | Some jp =>
          let v := mycmp (ekey ip) (ekey jp) kb in
          if v =? 0 then
            let h := Inter in
            let c := COUNT_OF ip in
            let d := COUNT_OF jp in
            let c := if c >? d then d else c in
            '(Tv1, iptr') ← next_in Tv T;
            '(Tv2, jptr') ← next_in Tv1 U;
            mem' ← hist_update HIST_LOW HIST_HGH h c mem;
            Done (true, mkV2 Tv2 T U AminB BminA Inter iptr' jptr' mem'
                          (log ++ [mkEv Compare h c [(T, ip); (U, jp)]]))
          else if v <? 0 then
            let h := AminB in
            let c := COUNT_OF ip in
            '(Tv1, iptr') ← next_in Tv T;
            mem' ← hist_update HIST_LOW HIST_HGH h c mem;
            Done (true, mkV2 Tv1 T U AminB BminA Inter iptr' jptr mem'
                          (log ++ [mkEv Compare h c [(T, ip)]]))
          else
            let h := BminA in
            let c := COUNT_OF jp in
            '(Tv1, jptr') ← next_in Tv U;
            mem' ← hist_update HIST_LOW HIST_HGH h c mem;
            Done (true, mkV2 Tv1 T U AminB BminA Inter iptr jptr' mem'
                          (log ++ [mkEv Compare h c [(U, jp)]]))
      end
  end.

Fixpoint Venn2_merge (HIST_LOW HIST_HGH kb : Z) (fuel : nat) (s : venn2_state)
  : outcome venn2_state :=
  match fuel with
  | O => Timeout
  | S fuel' =>
      '(again, s') ← Venn2_body HIST_LOW HIST_HGH kb s;
      if again : bool then Venn2_merge HIST_LOW HIST_HGH kb fuel' s' else Done s'
  end.

(** One pass through the drain loop [while (iptr != NULL)] (lines 105-114);
    [None] when the loop condition fails. *)
Definition Venn2_drain_body (HIST_LOW HIST_HGH : Z) (s : venn2_state)
  : outcome (option venn2_state) :=
  let '(mkV2 Tv T U AminB BminA Inter iptr jptr mem log) := s in
  match iptr with
  | None => Done None
  | Some ip =>
      let c := COUNT_OF ip in
      '(Tv1, iptr') ← next_in Tv T;
      mem' ← hist_update HIST_LOW HIST_HGH AminB c mem;
      Done (Some (mkV2 Tv1 T U AminB BminA Inter iptr' jptr mem'
                    (log ++ [mkEv Drain AminB c [(T, ip)]])))
  end.

Fixpoint Venn2_drain (HIST_LOW HIST_HGH : Z) (fuel : nat) (s : venn2_state)
  : outcome venn2_state :=
  match fuel with
  | O => Timeout
  | S fuel' =>
      r ← Venn2_drain_body HIST_LOW HIST_HGH s;
      match r with
      | None => Done s
      | Some s' => Venn2_drain HIST_LOW HIST_HGH fuel' s'
      end
  end.

(** Number of entries of all the tables: the budget of the merge loops. *)
Definition total_entries (Tv : list Kmer_Stream) : nat :=
  foldr (fun T n => (length (table T) + n)%nat) 0%nat Tv.

(** The state in which the [while (1)] loop of [Venn2] is entered. *)
Definition Venn2_start (Tv : list Kmer_Stream) (comb : list Z) (mem : list Z)
  : outcome venn2_state :=
  AminB ← rd comb 0;
  BminA ← rd comb 1;
  Inter ← rd comb 2;
  '(Tv1, iptr) ← first_in Tv 0;
  '(Tv2, jptr) ← first_in Tv1 1;
  Done (mkV2 Tv2 0 1 AminB BminA Inter iptr jptr mem []).

Definition Venn2 (HIST_LOW HIST_HGH : Z) (Tv : list Kmer_Stream) (comb : list Z)
  (mem : list Z) : outcome venn2_state :=
  T0 ← rd Tv 0;
  let kb := kbyte T0 in
  s0 ← Venn2_start Tv comb mem;
  let fuel := S (total_entries Tv) in
  s1 ← Venn2_merge HIST_LOW HIST_HGH kb fuel s0;
  Venn2_drain HIST_LOW HIST_HGH fuel s1.

(* ===================================================================== *)
(** * The general merge, [Venn] *)
(* ===================================================================== *)

(** Ghost record of one iteration of [Venn]: the mask [v] it built and the
    entries (each with the index of its stream) whose cursor it advanced. *)
Record vn_event : Type := mkEvN {
  evn_mask : Z;
  evn_used : list (nat * Entry)
}.

(** The variables of [Venn] that outlive an iteration: the streams, the
    cursor array [ptr], the array [comb] of histogram base pointers, and the
    counter block those point into.  [vn_log] is ghost state: the record of
    the iterations so far. *)
Record venn_state : Type := mkVN {
  vn_T : list Kmer_Stream;
  vn_ptr : list (option Entry);
  vn_comb : list Z;
  vn_mem : list Z;
  vn_log : list vn_event
}.

(** [for (c = 0; c < nway; c++) ptr[c] = First_Kmer_Entry(T[c]);] run from
    [c] with [k] indices to go. *)
Fixpoint Venn_init (T : list Kmer_Stream) (ptr : list (option Entry)) (c k : nat)
  : outcome (list Kmer_Stream * list (option Entry)) :=
  match k with
  | O => Done (T, ptr)
  | S k' =>
      '(T', p) ← first_in T c;
      ptr' ← wr ptr c p;
      Venn_init T' ptr' (S c) k'
  end.

(** [for (c = 0; c < nway; c++) if (ptr[c] != NULL) break;]: the value of
    [c] after the loop. *)
Fixpoint Venn_first (ptr : list (option Entry)) (c k : nat) : outcome nat :=
  match k with
  | O => Done c
  | S k' =>
      p ← rd ptr c;
      match p with
      | Some _ => Done c
      | None => Venn_first ptr (S c) k'
      end
  end.

(** The scan [for (c++; c < nway; c++)] of lines 134-145.  The array [in]
    with its fill level [itop] is the list [ins] of its first [itop]
    elements. *)
Fixpoint Venn_scan (kb : Z) (ptr : list (option Entry)) (c k : nat)
  (imin : nat) (ins : list nat) : outcome (nat * list nat) :=
  match k with
  | O => Done (imin, ins)
  | S k' =>
      p ← rd ptr c;
      match p with
      | None => Venn_scan kb ptr (S c) k' imin ins
      | Some pc =>
          q ← rd ptr imin;
          match q with
          | None => Fault
          | Some pm =>
              let v := mycmp (ekey pc) (ekey pm) kb in
              if v =? 0 then Venn_scan kb ptr (S c) k' imin (ins ++ [c])
              else if v <? 0 then Venn_scan kb ptr (S c) k' c [c]
              else Venn_scan kb ptr (S c) k' imin ins
          end
      end
  end.

(** The loop of lines 148-152 over [in[0..itop-1]]; [used] is ghost: the
    entries left behind so far. *)
Fixpoint Venn_advance (ins : list nat) (v : Z) (T : list Kmer_Stream)
  (ptr : list (option Entry)) (used : list (nat * Entry))
  : outcome (Z * list Kmer_Stream * list (option Entry) * list (nat * Entry)) :=
  match ins with
  | [] => Done (v, T, ptr, used)
  | x :: rest =>
      let v' := Z.lor v (int_of (Z.shiftl 1 (Z.of_nat x))) in
      e ← rd ptr x;
      '(T', p) ← next_in T x;
      ptr' ← wr ptr x p;
      Venn_advance rest v' T' ptr'
        (used ++ match e with Some e' => [(x, e')] | None => [] end)
  end.

(** [comb[i] += 1] where [comb[i]] is an [int64 *]: the pointer moves on by
    one element. *)
Definition ptr_bump (comb : list Z) (i : Z) : outcome (list Z) :=
  if 0 <=? i then
    p ← rd comb (Z.to_nat i);
    Done (<[Z.to_nat i := p + 1]> comb)
  else Fault.

(** One pass through the body of the [while (1)] loop of [Venn] (lines
    127-153); [None] is the [break]. *)
Definition Venn_body (kb : Z) (nway : nat) (s : venn_state)
  : outcome (option venn_state) :=
  let '(mkVN T ptr comb mem log) := s in
  c ← Venn_first ptr 0 nway;
  if (nway <=? c)%nat then Done None
  else
    '(imin, ins) ← Venn_scan kb ptr (S c) (nway - S c) c [c];
    '(v, T', ptr', used) ← Venn_advance ins 0 T ptr [];
    comb' ← ptr_bump comb (v - 1);
    Done (Some (mkVN T' ptr' comb' mem (log ++ [mkEvN v used]))).

Fixpoint Venn_loop (kb : Z) (nway : nat) (fuel : nat) (s : venn_state)
  : outcome venn_state :=
  match fuel with
  | O => Timeout
  | S fuel' =>
      r ← Venn_body kb nway s;
      match r with
      | None => Done s
      | Some s' => Venn_loop kb nway fuel' s'
      end
  end.

Definition Venn (T : list Kmer_Stream) (comb : list Z) (nway : nat) (mem : list Z)
  : outcome venn_state :=
  T0 ← rd T 0;
  let kb := kbyte T0 in
  '(T1, ptr) ← Venn_init T (replicate nway None) 0 nway;
  Venn_loop kb nway (S (total_entries T)) (mkVN T1 ptr comb mem []).

(* ===================================================================== *)
(** * [main]: command line, set-up and output *)
(* ===================================================================== *)

(** What the program prints on standard error before [exit (1)]. *)
Inductive message : Type :=
| Msg_flags (text : string)
| Msg_count_out_of_range (n : Z)
| Msg_range_invalid
| Msg_h_syntax
| Msg_usage
| Msg_cannot_open (name : string)
| Msg_different_K.

(** The C library's [isspace] and decimal digits, in the C locale. *)
Definition is_space (c : ascii) : bool :=
  let n := nat_of_ascii c in
  ((n =? 32) || ((9 <=? n) && (n <=? 13)))%nat.

Definition digit_of (c : ascii) : option Z :=
  let n := Z.of_nat (nat_of_ascii c) in
  if (48 <=? n) && (n <=? 57) then Some (n - 48) else None.

Fixpoint skip_space (s : string) : string :=
  match s with
  | String c r => if is_space c then skip_space r else s
  | EmptyString => s
  end.

Fixpoint read_digits (s : string) (acc : Z) (any : bool) : Z * string * bool :=
  match s with
  | String c r =>
      match digit_of c with
      | Some d => read_digits r (10 * acc + d) true
      | None => (acc, s, any)
      end
  | EmptyString => (acc, s, any)
  end.

(** [strtol(s,&end,10)] of the C library with a 64-bit [long]: white space,
    an optional sign, decimal digits; the value saturates at the bounds of
    [long]; without a digit nothing is consumed.  The result is the value and
    what is left of the string at [end]. *)
Definition strtol (s : string) : Z * string :=
  let s1 := skip_space s in
  let '(neg, s2) :=
    match s1 with
    | String "-"%char r => (true, r)
    | String "+"%char r => (false, r)
    | _ => (false, s1)
    end in
  let '(v, rest, any) := read_digits s2 0 false in
  if any : bool then
    (Z.max (- 2 ^ 63) (Z.min (2 ^ 63 - 1) (if neg : bool then - v else v)), rest)
  else (0, s).

(** The [case 'h'] of the option switch (lines 185-210), on the text after
    [-h]: the new [(HIST_LOW, HIST_HGH)] or the message of the fatal exit. *)
Definition parse_h (arg : string) : message + (Z * Z) :=
  let '(lv, eptr) := strtol arg in
  let HIST_LOW := int_of lv in
  if (String.length eptr <? String.length arg)%nat then
    if (HIST_LOW <? 1) || (HIST_LOW >? 32767) then
      inl (Msg_count_out_of_range HIST_LOW)
    else
      match eptr with
      | String ":"%char e1 =>
          let '(hv, fptr) := strtol e1 in
          let HIST_HGH := int_of hv in
          if (String.length fptr <? String.length e1)%nat then
            match fptr with
            | EmptyString =>
                if HIST_LOW >? HIST_HGH then inl Msg_range_invalid
                else inr (HIST_LOW, HIST_HGH)
            | _ => inl Msg_h_syntax
            end
          else inl Msg_h_syntax
      | EmptyString => inr (1, HIST_LOW)
      | _ => inl Msg_h_syntax
      end
  else inl Msg_h_syntax.

(** The argument loop of [main] (lines 178-214).  The macro [ARG_FLAGS] is
    defined in a header that is not part of the sources; it is the parameter
    [ARG_FLAGS] here: given the argument it either accepts it ([None]) or
    prints a message and exits with code 1. *)
Fixpoint parse_args (ARG_FLAGS : string -> option message) (args : list string)
  (HIST_LOW HIST_HGH : Z) (ops : list string) : message + (Z * Z * list string) :=
  match args with
  | [] => inr (HIST_LOW, HIST_HGH, ops)
  | a :: rest =>
      match a with
      | String "-"%char a1 =>
          match a1 with
          | String "h"%char a2 =>
              match parse_h a2 with
              | inl m => inl m
              | inr (lo, hi) => parse_args ARG_FLAGS rest lo hi ops
              end
          | _ =>
              match ARG_FLAGS a with
              | Some m => inl m
              | None => parse_args ARG_FLAGS rest HIST_LOW HIST_HGH ops
              end
          end
      | _ => parse_args ARG_FLAGS rest HIST_LOW HIST_HGH (ops ++ [a])
      end
  end.

(** The assignments of lines 175-176. *)
Definition default_window : Z * Z := (1, 100).

(** [comb[i] = comb[i-1] + (HIST_HGH-HIST_LOW) + 1] for [k] further
    elements. *)
Fixpoint comb_fill (k : nat) (prev w : Z) : list Z :=
  match k with
  | O => []
  | S k' => (prev + w) :: comb_fill k' (prev + w) w
  end.

(** The allocation block of lines 230-242: the zeroed counter block [hist]
    (the block starts at offset 0) and the array [comb] of base pointers. *)
Definition alloc_hist (nway HIST_LOW HIST_HGH : Z) : list Z * list Z :=
  let ncomb := int_of (int_of (Z.shiftl 1 nway) - 1) in
  let w := int_of (int_of (HIST_HGH - HIST_LOW) + 1) in
  let hist := replicate (Z.to_nat w) 0 in
  let comb := (0 - HIST_LOW) :: comb_fill (Z.to_nat ncomb - 1) (0 - HIST_LOW) w in
  (hist, comb).

(** The loop of lines 246-259.  [Open_Kmer_Stream] belongs to the absent
    stream library; it is the parameter [Open] here: the stream of the table
    with the given name, or [None] when the table cannot be opened. *)
Fixpoint open_streams (Open : string -> option Kmer_Stream) (ops : list string)
  (k : Z) (T : list Kmer_Stream) : message + (list Kmer_Stream * Z) :=
  match ops with
  | [] => inr (T, k)
  | n :: rest =>
      match Open n with
      | None => inl (Msg_cannot_open n)
      | Some Tc =>
          if k =? 0 then open_streams Open rest (kmer Tc) (T ++ [Tc])
          else if negb (kmer Tc =? k) then inl Msg_different_K
          else open_streams Open rest k (T ++ [Tc])
      end
  end.

(** [toupper] and [tolower] of the C locale. *)
Definition toupper (c : ascii) : ascii :=
  let n := nat_of_ascii c in
  if ((97 <=? n) && (n <=? 122))%nat then ascii_of_nat (n - 32) else c.

Definition tolower (c : ascii) : ascii :=
  let n := nat_of_ascii c in
  if ((65 <=? n) && (n <=? 90))%nat then ascii_of_nat (n + 32) else c.

Fixpoint string_map (f : ascii -> ascii) (s : string) : string :=
  match s with
  | EmptyString => EmptyString
  | String c r => String (f c) (string_map f r)
  end.

(** The operand up to its first ['.'] ([index(n,'.')] and [*p = '\0']). *)
Fixpoint cut_at_dot (s : string) : string :=
  match s with
  | EmptyString => EmptyString
  | String c r => if Ascii.eqb c "."%char then EmptyString else String c (cut_at_dot r)
  end.

Definition upper_name (n : string) : string := string_map toupper (cut_at_dot n).
Definition lower_name (n : string) : string := string_map tolower (upper_name n).

(** The inner loop of lines 299-306 from stream [c] on, with the values of
    [b] and [i]; [upp] and [low] are the names of the streams still to come. *)
Fixpoint hist_label (b i : Z) (upp low : list string) (c : nat) : string :=
  match upp, low with
  | u :: upp', l :: low' =>
      ((if (c =? 0)%nat then EmptyString else "_") ++
       (if negb (Z.land b i =? 0)%Z then u else l) ++
       hist_label b i upp' low' (S c))%string
  | _, _ => EmptyString
  end.

Definition hist_name (upp low : list string) (i : Z) : string :=
  (hist_label 1 i upp low 0 ++ ".hist")%string.

(** What [write] puts into a file: 32-bit and 64-bit integers. *)
Inductive word : Type := W32 (z : Z) | W64 (z : Z).

(** The [k] counters from element offset [a] of the block on. *)
Fixpoint read_counters (mem : list Z) (a : Z) (k : nat) : outcome (list Z) :=
  match k with
  | O => Done []
  | S k' =>
      v ← rd64 mem a;
      vs ← read_counters mem (a + 1) k';
      Done (v :: vs)
  end.

(** The output loop of lines 296-315 from [i] on, for [k] further masks: the
    calls it makes, in order, each with the name handed to [open] and the
    data handed to [write].  The loop does not test the result of [open],
    and a name that occurs again is opened with [O_TRUNC]: this is what the
    loop asks to be written, not what the file system holds afterwards. *)
Fixpoint write_hists (kmer_len HIST_LOW HIST_HGH : Z) (upp low : list string)
  (comb mem : list Z) (i : Z) (k : nat) : outcome (list (string * list word)) :=
  match k with
  | O => Done []
  | S k' =>
      base ← (if 0 <=? i - 1 then rd comb (Z.to_nat (i - 1)) else Fault);
      cs ← read_counters mem (base + HIST_LOW) (Z.to_nat (HIST_HGH - HIST_LOW + 1));
      fs ← write_hists kmer_len HIST_LOW HIST_HGH upp low comb mem (i + 1) k';
      Done ((hist_name upp low i,
             W32 kmer_len :: W32 HIST_LOW :: W32 HIST_HGH :: map W64 cs) :: fs)
  end.

(** How a run of the program ends.  [files] are the calls of the output
    loop (see [write_hists]), in order. *)
Inductive run : Type :=
| Exit (code : Z) (err : list message) (files : list (string * list word))
| Undefined
| Stuck.

Definition main (ARG_FLAGS : string -> option message)
  (Open : string -> option Kmer_Stream) (argv : list string) : run :=
  match parse_args ARG_FLAGS (tail argv) default_window.1 default_window.2 [] with
  | inl m => Exit 1 [m] []
  | inr (HIST_LOW, HIST_HGH, ops) =>
      let nway := length ops in
      if (nway <? 2)%nat then Exit 1 [Msg_usage] []
      else
        let '(hist, comb) := alloc_hist (Z.of_nat nway) HIST_LOW HIST_HGH in
        match open_streams Open ops 0 [] with
        | inl m => Exit 1 [m] []
        | inr (T, k) =>
            let upp := map upper_name ops in
            let low := map lower_name ops in
            let merged :=
              if (nway =? 2)%nat then
                s ← Venn2 HIST_LOW HIST_HGH T comb hist; Done (comb, v2_mem s)
              else
                s ← Venn T comb nway hist; Done (vn_comb s, vn_mem s) in
            let ncomb := int_of (int_of (Z.shiftl 1 (Z.of_nat nway)) - 1) in
            match '(comb', mem') ← merged;
                  write_hists k HIST_LOW HIST_HGH upp low comb' mem' 1 (Z.to_nat ncomb)
            with
            | Done files => Exit 0 [] files
            | Fault => Undefined
            | Timeout => Stuck
            end
        end
  end.

(* ===================================================================== *)
(** * Notions: sorted tables and their keys *)
(* ===================================================================== *)

(** A table whose keys all have [kb] bytes and increase strictly in the
    order of [mycmp]: what the stream library promises of its tables. *)
Definition key_ok (kb : Z) (e : Entry) : bool :=
  (length (ekey e) =? Z.to_nat kb)%nat.

Fixpoint strictly_increasing (kb : Z) (l : list Entry) : bool :=
  match l with
  | [] => true
  | e :: r =>
      match r with
      | [] => true
      | e' :: _ => (mycmp (ekey e) (ekey e') kb <? 0) && strictly_increasing kb r
      end
  end.

Definition table_ok (kb : Z) (l : list Entry) : bool :=
  forallb (key_ok kb) l && strictly_increasing kb l.

(** Keys of [kb] bytes, increasing strictly along the list. *)
Definition sorted_keys (kb : Z) (l : list Entry) : Prop :=
  (forall e, e ∈ l -> length (ekey e) = Z.to_nat kb) /\
  (forall i j ei ej, l !! i = Some ei -> l !! j = Some ej -> (i < j)%nat ->
                     mycmp (ekey ei) (ekey ej) kb < 0).

(** The entries of a stream from its cursor on. *)
Definition remaining (T : Kmer_Stream) : list Entry := drop (cidx T) (table T).

(** What is left of each stream. *)
Definition rems (T : list Kmer_Stream) : list (list Entry) := remaining <$> T.

Definition total_len (R : list (list Entry)) : nat :=
  foldr (fun r n => (length r + n)%nat) 0%nat R.

(** The distinct keys of a table, and of several tables together. *)
Definition keys_of (l : list Entry) : gset (list Z) := list_to_set (ekey <$> l).

Definition all_keys (Ts : list (list Entry)) : gset (list Z) := ⋃ (keys_of <$> Ts).

(** The subset mask of a key: bit [x + i] is set exactly when the [i]-th of
    the tables [Ts] contains the key. *)
Fixpoint member_mask (k : list Z) (Ts : list (list Entry)) (x : nat) : Z :=
  match Ts with
  | [] => 0
  | t :: Ts' =>
      Z.lor (if bool_decide (k ∈ keys_of t) then Z.shiftl 1 (Z.of_nat x) else 0)
            (member_mask k Ts' (S x))
  end.

(** The distinct keys whose subset mask is [v]. *)
Definition keys_with_mask (v : Z) (Ts : list (list Entry)) : gset (list Z) :=
  filter (fun k => member_mask k Ts 0 = v) (all_keys Ts).

(* ===================================================================== *)
(** * Notions: histogram bins *)
(* ===================================================================== *)

(** The bin the specification assigns to a contributed count. *)
Definition bin_of (LOW HGH c bin : Z) : Prop :=
  (c <= LOW /\ bin = LOW) \/ (c >= HGH /\ bin = HGH) \/ (LOW < c < HGH /\ bin = c).

(** [mem'] is [mem] with the counter at element offset [a] incremented and
    every other counter untouched. *)
Definition incremented_at (mem mem' : list Z) (a : Z) : Prop :=
  0 <= a < Z.of_nat (length mem) /\
  length mem' = length mem /\
  (forall v, mem !! Z.to_nat a = Some v -> mem' !! Z.to_nat a = Some (int64_of (v + 1))) /\
  (forall i, i <> Z.to_nat a -> mem' !! i = mem !! i).

(** The histogram with base pointer [h] lies inside a block of [len]
    counters. *)
Definition hist_inside (LOW HGH : Z) (len : nat) (h : Z) : Prop :=
  forall bin, LOW <= bin <= HGH -> 0 <= h + bin < Z.of_nat len.

(* ===================================================================== *)
(** * Notions: cursors and what they leave behind *)
(* ===================================================================== *)

(** The stream after one [Next_Kmer_Entry]. *)
Definition adv (T : Kmer_Stream) : Kmer_Stream := (Next_Kmer_Entry T).1.

(** The stream after [First_Kmer_Entry]. *)
Definition rewind (T : Kmer_Stream) : Kmer_Stream := (First_Kmer_Entry T).1.

(** The streams after the cursors of the streams [ins] moved on by one. *)
Definition advance_all (ins : list nat) (T : list Kmer_Stream) : list Kmer_Stream :=
  foldl (fun T x => alter adv x T) T ins.

(** The current entries of the streams [ins], each with its stream. *)
Fixpoint heads_of (T : list Kmer_Stream) (ins : list nat) : list (nat * Entry) :=
  match ins with
  | [] => []
  | x :: rest =>
      match T !! x ≫= current with
      | Some e => [(x, e)]
      | None => []
      end ++ heads_of T rest
  end.

(** What is left of a table once its entry with key [m], if it is the first
    one, has been consumed. *)
Definition drop_min (m : list Z) (r : list Entry) : list Entry :=
  match r with
  | e :: r' => if bool_decide (ekey e = m) then r' else r
  | [] => []
  end.

(* ===================================================================== *)
(** * Notions: one iteration of [Venn] *)
(* ===================================================================== *)

(** Stream [x] is at key [m]: its cursor holds an entry whose key is [m]. *)
Definition at_key (ptr : list (option Entry)) (m : list Z) (x : nat) : bool :=
  match ptr !! x with
  | Some (Some e) => bool_decide (ekey e = m)
  | _ => false
  end.

(** The streams below [c] that are at key [m], in increasing order. *)
Fixpoint tied_upto (ptr : list (option Entry)) (m : list Z) (c : nat) : list nat :=
  match c with
  | O => []
  | S c' => tied_upto ptr m c' ++ (if at_key ptr m c' then [c'] else [])
  end.

Definition tied (ptr : list (option Entry)) (m : list Z) : list nat :=
  tied_upto ptr m (length ptr).

(** [m] is the least key under the cursors [ptr]. *)
Definition least_key (kb : Z) (ptr : list (option Entry)) (m : list Z) : Prop :=
  (exists x e, ptr !! x = Some (Some e) /\ ekey e = m) /\
  (forall x e, ptr !! x = Some (Some e) -> mycmp m (ekey e) kb <= 0).

(** The mask with the bits [ins] set, as the loop of lines 148-152 builds
    it. *)
Definition bits (ins : list nat) : Z :=
  foldr (fun x a => Z.lor (int_of (Z.shiftl 1 (Z.of_nat x))) a) 0 ins.

(** The states the loop of [Venn] runs through: [ptr] holds the current
    entry of each of the [nway] streams, the tables are sorted, and [comb]
    has one pointer per non-empty subset. *)
Record venn_inv (kb : Z) (nway : nat) (s : venn_state) : Prop := mkVennInv {
  vi_len : length (vn_T s) = nway;
  vi_small : (nway <= 30)%nat;
  vi_ptr : vn_ptr s = current <$> vn_T s;
  vi_ok : forall x Tx, vn_T s !! x = Some Tx -> sorted_keys kb (table Tx);
  vi_comb : Z.of_nat (length (vn_comb s)) = 2 ^ Z.of_nat nway - 1
}.

(* ===================================================================== *)
(** * Notions: a run as the log of its iterations *)
(* ===================================================================== *)

(** The entries a log hands to stream [x], in the order of the log. *)
Definition used_by (x : nat) (used : list (nat * Entry)) : list Entry :=
  snd <$> filter (fun p => fst p = x) used.

(** [m] is the least of the first keys of the lists [R]. *)
Definition least_head (kb : Z) (R : list (list Entry)) (m : list Z) : Prop :=
  (exists r e, r ∈ R /\ head r = Some e /\ ekey e = m) /\
  (forall r e, r ∈ R -> head r = Some e -> mycmp m (ekey e) kb <= 0).

(** The first entries with key [m] among the lists below index [c], each
    with its index, in increasing order of the index. *)
Fixpoint tied_heads (R : list (list Entry)) (m : list Z) (c : nat)
  : list (nat * Entry) :=
  match c with
  | O => []
  | S c' =>
      tied_heads R m c' ++
      match R !! c' with
      | Some (e :: _) => if bool_decide (ekey e = m) then [(c', e)] else []
      | _ => []
      end
  end.

(** A log [L] records a complete merge of the lists [R]: every event takes
    the least first key [m], carries the subset mask of [m], consumes
    exactly the first entries that have key [m], and the log ends when all
    lists are used up. *)
Fixpoint steps_ok (kb : Z) (R : list (list Entry)) (L : list vn_event) : Prop :=
  match L with
  | [] => Forall (fun r => r = []) R
  | ev :: L' =>
      exists m, least_head kb R m /\
                evn_mask ev = member_mask m R 0 /\
                evn_used ev = tied_heads R m (length R) /\
                steps_ok kb (drop_min m <$> R) L'
  end.


(** The block after the updates a log records, in order. *)
Fixpoint replay (LOW HGH : Z) (L : list v2_event) (mem : list Z) : outcome (list Z) :=
  match L with
  | [] => Done mem
  | ev :: L' =>
      mem' ← hist_update LOW HGH (ev_hist ev) (ev_count ev) mem;
      replay LOW HGH L' mem'
  end.

(** All the entries a log of [Venn2] consumed, in order. *)
Definition events_used (L : list v2_event) : list (nat * Entry) :=
  concat (ev_used <$> L).

(** The events of a drain of the entries [r] of stream [T] into the
    histogram [h]. *)
Definition drain_events (h : Z) (T : nat) (r : list Entry) : list v2_event :=
  (fun e => mkEv Drain h (ecount e) [(T, e)]) <$> r.

(** What a completed run of [Venn2] on the tables of [A] and [B] leaves
    behind: both streams used up; a log made of the compare loop's events
    followed by the drain loop's, whose updates, replayed in order, turn the
    initial block into the final one; each table consumed once, in order,
    its first part by the compare loop and the rest by the drain loop; and,
    for every key in both tables, an event of the compare loop that hands
    the smaller of the two counts to the intersection histogram and consumes
    both entries. *)
Definition venn2_post (LOW HGH : Z) (A B : Kmer_Stream) (hI : Z) (mem : list Z)
  (s : venn2_state) : Prop :=
  exists A' B' Lc Ld,
    v2_Tv s = [A'; B'] /\ table A' = table A /\ table B' = table B /\
    remaining A' = [] /\ remaining B' = [] /\
    v2_log s = Lc ++ Ld /\
    Forall (fun ev => ev_phase ev = Compare) Lc /\
    Forall (fun ev => ev_phase ev = Drain) Ld /\
    replay LOW HGH (Lc ++ Ld) mem = Done (v2_mem s) /\
    length (v2_mem s) = length mem /\
    used_by 0 (events_used Lc) ++ used_by 0 (events_used Ld) = table A /\
    used_by 1 (events_used Lc) ++ used_by 1 (events_used Ld) = table B /\
    (used_by 0 (events_used Ld) = [] \/ used_by 1 (events_used Ld) = []) /\
    (forall ea eb, ea ∈ table A -> eb ∈ table B -> ekey ea = ekey eb ->
       mkEv Compare hI (Z.min (ecount ea) (ecount eb)) [(0%nat, ea); (1%nat, eb)] ∈ Lc).

(* ===================================================================== *)
(** * Notions: the command line *)
(* ===================================================================== *)

(** An argument that selects an option: it starts with ['-']. *)
Definition is_option (a : string) : bool :=
  match a with
  | String "-"%char _ => true
  | _ => false
  end.

(** The operands of a command line: the arguments that do not start with
    ['-'], in order. *)
Definition operands (argv : list string) : list string :=
  filter (fun a => is_option a = false) (tail argv).

(* ===================================================================== *)
(** * Example tables *)
(* ===================================================================== *)

Definition ex_entry (k c : Z) : Entry := mkEntry [k] c.

(** The tables of the specification's example: [A] holds k1 (5 times) and
    k2 (3 times), [B] holds k2 (7 times) and k3 (twice); [C] is a third
    table. *)
Definition ex_A : Kmer_Stream := mkStream 3 1 [ex_entry 1 5; ex_entry 2 3] 0.
Definition ex_B : Kmer_Stream := mkStream 3 1 [ex_entry 2 7; ex_entry 3 2] 0.
Definition ex_C : Kmer_Stream := mkStream 3 1 [ex_entry 2 7; ex_entry 5 2] 0.

(** A table directory holding the example tables [A] and [B]. *)
Definition ex_dir (n : string) : option Kmer_Stream :=
  if String.eqb n "x" then Some ex_A
  else if String.eqb n "y" then Some ex_B
  else None.

(** A table directory with two tables of different k-mer length. *)
Definition ex_open (n : string) : option Kmer_Stream :=
  if String.eqb n "a" then Some (mkStream 21 6 [] 0)
  else if String.eqb n "b" then Some (mkStream 40 10 [] 0)
  else None.


(* ===================================================================== *)
(** * [main]: the buffer of the file names *)
(* ===================================================================== *)

(** The size [nlen] of the buffer [name] (lines 266-272 and 285): [nway + 10]
    plus the length of every operand cut at its first ['.']. *)
Definition name_size (ops : list string) : Z :=
  foldl (fun nlen n => int_of (nlen + Z.of_nat (String.length (cut_at_dot n))))
        (int_of (Z.of_nat (length ops) + 10)) ops.

(** The bytes [stpcpy] and [sprintf] put into [name] for the mask [i]: the
    characters of the file name and the terminating NUL. *)
Definition name_bytes (ops : list string) (i : Z) : Z :=
  Z.of_nat (String.length (hist_name (map upper_name ops) (map lower_name ops) i)) + 1.

(* ===================================================================== *)
(** * Notions: decimal numerals *)
(* ===================================================================== *)

(** The text of a decimal numeral with the digits [ds], most significant
    first, and the number it denotes. *)
Fixpoint numeral (ds : list Z) : string :=
  match ds with
  | [] => EmptyString
  | d :: r => String (ascii_of_nat (Z.to_nat (48 + d))) (numeral r)
  end.

Fixpoint numeral_value (ds : list Z) (acc : Z) : Z :=
  match ds with
  | [] => acc
  | d :: r => numeral_value r (10 * acc + d)
  end.

Definition is_digit (d : Z) : Prop := 0 <= d <= 9.

(** The first character of [s], if any, is not a decimal digit. *)
Definition no_digit_ahead (s : string) : Prop :=
  match s with
  | String c _ => digit_of c = None
  | EmptyString => True
  end.

(** The window the options [-h] of a command line select: that of the last
    one, the window [w] when there is none. *)
Definition last_window (args : list string) (w : Z * Z) : Z * Z :=
  foldl (fun w a =>
           match a with
           | String "-"%char (String "h"%char a2) =>
               match parse_h a2 with
               | inr w' => w'
               | inl _ => w
               end
           | _ => w
           end) w args.

(* ===================================================================== *)
(** * Notions: base pointers *)
(* ===================================================================== *)

(** Every base pointer of [comb'] is at or beyond the one of [comb] in the
    same place. *)
Definition comb_le (comb comb' : list Z) : Prop :=
  forall j c, comb !! j = Some c -> exists c', comb' !! j = Some c' /\ c <= c'.

(* ===================================================================== *)
(** * Notions: what the histograms of two tables are *)
(* ===================================================================== *)

(** The bin a contributed count [c] is counted in. *)
Definition clamp (LOW HGH c : Z) : Z :=
  if c <=? LOW then LOW else if c >=? HGH then HGH else c.

(** The counts of the entries of [A] whose key is not in [B], in the order
    of [A]. *)
Definition counts_only (A B : list Entry) : list Z :=
  ecount <$> filter (fun e => ekey e ∉ keys_of B) A.

(** The smaller count for every entry of [B] that has the key of [ea], and
    for every pair of entries of [A] and [B] with the same key. *)
Fixpoint matches (ea : Entry) (B : list Entry) : list Z :=
  match B with
  | [] => []
  | eb :: B' =>
      (if bool_decide (ekey ea = ekey eb) then [Z.min (ecount ea) (ecount eb)] else [])
      ++ matches ea B'
  end.

Fixpoint counts_both (A B : list Entry) : list Z :=
  match A with
  | [] => []
  | ea :: A' => matches ea B ++ counts_both A' B
  end.

(** How many of the counts [cs] fall on the counter at element offset [a]
    when they are counted in the histogram with base pointer [h]. *)
Definition binned (LOW HGH h : Z) (cs : list Z) (a : Z) : nat :=
  length (filter (fun c => h + clamp LOW HGH c = a) cs).

(** The counters the updates of a log fall on, in order. *)
Definition log_targets (LOW HGH : Z) (L : list v2_event) : list Z :=
  (fun ev => ev_hist ev + clamp LOW HGH (ev_count ev)) <$> L.

(** The counters the histograms of two tables ask to be incremented, once
    for each occurrence: [hA] takes the keys only in [A], [hB] those only in
    [B], and [hI] the common keys with the smaller of the two counts. *)
Definition venn2_targets (LOW HGH hA hB hI : Z) (A B : list Entry) : list Z :=
  ((fun c => hA + clamp LOW HGH c) <$> counts_only A B) ++
  ((fun c => hB + clamp LOW HGH c) <$> counts_only B A) ++
  ((fun c => hI + clamp LOW HGH c) <$> counts_both A B).

(** A value of type [int64]. *)
Definition is_int64 (v : Z) : Prop := - 2 ^ 63 <= v < 2 ^ 63.

(* ===================================================================== *)
(** * Haplex: the utilities and the table filter *)
(* ===================================================================== *)

Module Haplex.

(** [p[i]] for a pointer [p] to the start of the array [l]: reading outside
    the array faults. *)
Definition elem {A : Type} (l : list A) (i : Z) : outcome A :=
  if (0 <=? i) && (i <? Z.of_nat (length l)) then rd l (Z.to_nat i) else Fault.

(** [static char dna[4]]. *)
Definition dna : list ascii := ["a"; "c"; "g"; "t"]%char.

(** [setup_fmer_table]: the buffer [_fmer] and the array [fmer] of pointers
    into it, as offsets from the start of [_fmer].  The four nested loops
    run [l3], [l2], [l1], [l0] over 0..3, which are inside [dna]; each pass
    appends the pointer [t] to [fmer] and five characters to [_fmer]. *)
Definition setup_fmer_table : list nat * list ascii :=
  foldl (fun '(fmer, _fmer) '(l3, l2, l1, l0) =>
           (fmer ++ [length _fmer],
            _fmer ++ [nth l3 dna zero; nth l2 dna zero; nth l1 dna zero;
                      nth l0 dna zero; zero]))
        ([], [])
        (l3 ← seq 0 4; l2 ← seq 0 4; l1 ← seq 0 4; l0 ← seq 0 4; [(l3, l2, l1, l0)]).

(** The C string that starts at offset [t] of a buffer: the characters up
    to the first NUL; running off the buffer faults. *)
Fixpoint c_string (buf : list ascii) (t : nat) (fuel : nat) : outcome string :=
  match fuel with
  | O => Fault
  | S fuel' =>
      c ← rd buf t;
      if Ascii.eqb c zero then Done EmptyString
      else s ← c_string buf (S t) fuel'; Done (String c s)
  end.

(** [printf("%s",fmer[x])]: what is printed. *)
Definition print_fmer (tab : list nat * list ascii) (x : Z) : outcome string :=
  t ← elem tab.1 x; c_string tab.2 t (S (length tab.2)).

(** The first loop of [print_seq]: [for (i = 0; i < b; i++)], from [i] on
    with [k] passes to go; the result is what is printed. *)
Fixpoint print_seq_bytes (tab : list nat * list ascii) (seq : list Z) (i k : nat)
  : outcome string :=
  match k with
  | O => Done EmptyString
  | S k' =>
      x ← rd seq i;
      s ← print_fmer tab x;
      r ← print_seq_bytes tab seq (S i) k';
      Done (s ++ r)%string
  end.

(** The second loop of [print_seq]: [printf("%c",dna[seq[b] >> k])] with
    [k] going down by 2, for [r] passes. *)
Fixpoint print_seq_rest (seq : list Z) (b : Z) (k : Z) (r : nat) : outcome string :=
  match r with
  | O => Done EmptyString
  | S r' =>
      x ← elem seq b;
      c ← elem dna (Z.shiftr x k);
      s ← print_seq_rest seq b (k - 2) r';
      Done (String c s)
  end.

(** [print_seq] for the tables [fmer] and [_fmer] as [tab]: what is printed. *)
Definition print_seq (tab : list nat * list ascii) (seq : list Z) (len : Z)
  : outcome string :=
  let b := Z.shiftr len 2 in
  s ← print_seq_bytes tab seq 0 (Z.to_nat b);
  r ← print_seq_rest seq b 6 (Z.to_nat (len - Z.shiftl b 2));
  Done (s ++ r)%string.

(** [mycpy]: [while (n--) *a++ = *b++] on the block [mem], with [a] and [b]
    as offsets into it.  Every pass reads [mem[b]], so the loop is over
    after at most [length mem] further passes. *)
Fixpoint mycpy_loop (mem : list Z) (a b n : Z) (fuel : nat) : outcome (list Z) :=
  match fuel with
  | O => Timeout
  | S fuel' =>
      if n =? 0 then Done mem
      else
        x ← elem mem b;
        mem' ← (if 0 <=? a then wr mem (Z.to_nat a) x else Fault);
        mycpy_loop mem' (a + 1) (b + 1) (int_of (n - 1)) fuel'
  end.

Definition mycpy (mem : list Z) (a b n : Z) : outcome (list Z) :=
  mycpy_loop mem a b n (S (length mem)).

(** [mypref]: the loop [for (i = 0; i <= n; i += 4)] over the two byte
    pointers. *)
Fixpoint mypref_loop (a b : list Z) (i n : Z) (fuel : nat) {struct fuel} : outcome Z :=
  match fuel with
  | O => Timeout
  | S fuel' =>
      if i <=? n then
        match a, b with
        | x :: a', y :: b' =>
            if negb (x =? y) then
              if negb (Z.land x 240 =? Z.land y 240) then
                if negb (Z.land x 192 =? Z.land y 192) then Done i
                else Done (i + 1)
              else
                if negb (Z.land x 252 =? Z.land y 252) then Done (i + 2)
                else Done (i + 3)
            else mypref_loop a' b' (int_of (i + 4)) n fuel'
        | _, _ => Fault
        end
      else Done (int_of (n + 1))
  end.

Definition mypref (a b : list Z) (n : Z) : outcome Z :=
  mypref_loop a b 0 n (S (Z.to_nat (n / 4 + 1))).

(** [COUNT_OF(p)] on a byte block: the [uint16] at offset [p + kbyte].  The
    value of a [uint16] with the bytes [x], [y] in memory order depends on
    the byte order of the host; it is the parameter [u16]. *)
Definition COUNT_OF (u16 : Z -> Z -> Z) (table : list Z) (kbyte p : Z) : outcome Z :=
  x ← elem table (p + kbyte);
  y ← elem table (p + kbyte + 1);
  Done (u16 x y).

(** The loop of lines 179-186 of [Load_Kmer_Table], from entry [i] on with
    [k] entries to go: the block and [jptr] after it. *)
Fixpoint filter_loop (u16 : Z -> Z -> Z) (cut_freq tbyte kbyte : Z)
  (table : list Z) (jptr i : Z) (k : nat) : outcome (list Z * Z) :=
  match k with
  | O => Done (table, jptr)
  | S k' =>
      let iptr := i * tbyte in
      c ← COUNT_OF u16 table kbyte iptr;
      if c >=? cut_freq then
        table' ← mycpy table jptr iptr tbyte;
        filter_loop u16 cut_freq tbyte kbyte table' (jptr + tbyte) (i + 1) k'
      else filter_loop u16 cut_freq tbyte kbyte table jptr (i + 1) k'
  end.

(** The block [if (cut_freq > 1)] of [Load_Kmer_Table] (lines 175-192) on
    the table read from the files: the new [nels] and [table].  [Realloc]
    to a smaller size keeps the first bytes of the block; the division by
    [tbyte] is undefined for 0. *)
Definition cut_table (u16 : Z -> Z -> Z) (cut_freq tbyte kbyte nels : Z)
  (table : list Z) : outcome (Z * list Z) :=
  if cut_freq >? 1 then
    '(table', jptr) ← filter_loop u16 cut_freq tbyte kbyte table 0 0 (Z.to_nat nels);
    if tbyte =? 0 then Fault
    else
      let j := Z.quot jptr tbyte in
      if j <? nels then Done (j, take (Z.to_nat (j * tbyte)) table')
      else Done (nels, table')
  else Done (nels, table).

End Haplex.

(* ===================================================================== *)
(** * Notions: packed sequences *)
(* ===================================================================== *)

(** The four 2-bit codes packed into a byte, first base in the top bits,
    and the codes of a sequence of bytes. *)
Definition byte_bases (x : Z) : list Z :=
  [Z.land (Z.shiftr x 6) 3; Z.land (Z.shiftr x 4) 3; Z.land (Z.shiftr x 2) 3; Z.land x 3].

Definition unpack (seq : list Z) : list Z := seq ≫= byte_bases.

(** The letters of a list of 2-bit codes. *)
Fixpoint letters (codes : list Z) : string :=
  match codes with
  | [] => EmptyString
  | c :: r => String (nth (Z.to_nat c) Haplex.dna zero) (letters r)
  end.

Definition is_byte (x : Z) : Prop := 0 <= x < 256.

(** The count of a table entry of [kbyte] key bytes followed by a [uint16],
    and the entries that pass the frequency filter. *)
Definition entry_count (u16 : Z -> Z -> Z) (kbyte : nat) (e : list Z) : Z :=
  u16 (nth kbyte e 0) (nth (S kbyte) e 0).

Definition frequent (u16 : Z -> Z -> Z) (cut_freq : Z) (kbyte : nat)
  (es : list (list Z)) : list (list Z) :=
  filter (fun e => cut_freq <= entry_count u16 kbyte e) es.

(* ===================================================================== *)
(** * Notions: the total of a histogram *)
(* ===================================================================== *)

(** The sum of the counters of the bins [LOW .. HGH] of the histogram with
    base pointer [h]. *)
Definition window_sum (LOW HGH h : Z) (mem : list Z) : Z :=
  foldr Z.add 0 (take (Z.to_nat (HGH - LOW + 1)) (drop (Z.to_nat (h + LOW)) mem)).

(* ===================================================================== *)
(** * Values that fit an [int] *)
(* ===================================================================== *)

Lemma int_of_small z : - 2 ^ 31 <= z < 2 ^ 31 -> int_of z = z.
Proof.
  intros H. unfold int_of.
  rewrite Z.mod_small; lia.
Qed.

(* ===================================================================== *)
(** * The comparator is the lexicographic order *)
(* ===================================================================== *)

Lemma mycmp_loop_values a b n :
  mycmp_loop a b n = -1 \/ mycmp_loop a b n = 0 \/ mycmp_loop a b n = 1.
Proof.
  revert a b. induction n as [|n IH]; intros a b; simpl; [lia|].
  destruct a as [|x a], b as [|y b]; try lia.
  destruct (x =? y) eqn:E; simpl; [apply IH|].
  destruct (x <? y); lia.
Qed.

Lemma mycmp_loop_flip a b n : mycmp_loop b a n = - mycmp_loop a b n.
Proof.
  revert a b. induction n as [|n IH]; intros a b; simpl; [lia|].
  destruct a as [|x a], b as [|y b]; try lia.
  destruct (x =? y) eqn:E.
  - apply Z.eqb_eq in E. subst y. rewrite Z.eqb_refl. simpl. apply IH.
  - apply Z.eqb_neq in E.
    destruct (y =? x) eqn:E'; [apply Z.eqb_eq in E'; lia|]. simpl.
    destruct (x <? y) eqn:L, (y <? x) eqn:L'; lia.
Qed.

Lemma mycmp_loop_zero a b n :
  length a = n -> length b = n -> (mycmp_loop a b n = 0 <-> a = b).
Proof.
  revert a b. induction n as [|n IH]; intros a b Ha Hb.
  - destruct a, b; try discriminate. simpl. tauto.
  - destruct a as [|x a], b as [|y b]; try discriminate. simpl.
    injection Ha as Ha. injection Hb as Hb.
    destruct (x =? y) eqn:E; simpl.
    + apply Z.eqb_eq in E. subst y. rewrite (IH a b Ha Hb).
      split; [intros ->; reflexivity | intros [= ->]; reflexivity].
    + apply Z.eqb_neq in E. split.
      * destruct (x <? y); lia.
      * intros [= ? ?]. contradiction.
Qed.

Lemma lex_lt_cons x a y b :
  lex_lt (x :: a) (y :: b) <-> x < y \/ (x = y /\ lex_lt a b).
Proof.
  split.
  - intros (i & u & w & Ht & Hu & Hw & Hlt).
    destruct i as [|i]; simpl in *.
    + left. congruence.
    + right. injection Ht as -> Ht. split; [reflexivity|].
      exists i, u, w. auto.
  - intros [Hlt | [-> (i & u & w & Ht & Hu & Hw & Hlt)]].
    + exists 0%nat, x, y. simpl. auto.
    + exists (S i), u, w. simpl. rewrite Ht. auto.
Qed.

Lemma lex_lt_nil_l b : ~ lex_lt [] b.
Proof. intros (i & u & w & _ & Hu & _). destruct i; discriminate. Qed.

Lemma mycmp_loop_neg a b n :
  length a = n -> length b = n -> (mycmp_loop a b n < 0 <-> lex_lt a b).
Proof.
  revert a b. induction n as [|n IH]; intros a b Ha Hb.
  - destruct a, b; try discriminate. simpl.
    split; [lia | intros H; destruct (lex_lt_nil_l _ H)].
  - destruct a as [|x a], b as [|y b]; try discriminate.
    injection Ha as Ha. injection Hb as Hb.
    rewrite lex_lt_cons. simpl.
    destruct (x =? y) eqn:E; simpl.
    + apply Z.eqb_eq in E. subst y. rewrite (IH a b Ha Hb).
      split; [intros H; right; auto | intros [H | [_ H]]; [lia | exact H]].
    + apply Z.eqb_neq in E.
      destruct (x <? y) eqn:L.
      * apply Z.ltb_lt in L. split; [intros _; left; exact L | lia].
      * apply Z.ltb_ge in L. split; [lia | intros [H | [H _]]; lia].
Qed.

Lemma mycmp_loop_trans a b c n :
  length a = n -> length b = n -> length c = n ->
  mycmp_loop a b n < 0 -> mycmp_loop b c n < 0 -> mycmp_loop a c n < 0.
Proof.
  revert a b c. induction n as [|n IH]; intros a b c Ha Hb Hc; simpl; [lia|].
  destruct a as [|x a], b as [|y b], c as [|z c]; try discriminate.
  injection Ha as Ha. injection Hb as Hb. injection Hc as Hc.
  destruct (Z.eqb_spec x y) as [Exy|Exy], (Z.eqb_spec y z) as [Eyz|Eyz],
    (Z.eqb_spec x z) as [Exz|Exz]; simpl; try lia.
  - apply IH; assumption.
  - intros _ H. rewrite Exy. exact H.
  - intros H _. rewrite <- Eyz. exact H.
  - destruct (Z.ltb_spec x y), (Z.ltb_spec y z); lia.
  - destruct (Z.ltb_spec x y), (Z.ltb_spec y z), (Z.ltb_spec x z); lia.
Qed.

(** ** C9 *)

(** C9.  For byte sequences [a] and [b] of the same length [n], [mycmp a b n]
    is -1, 0 or 1; it is negative exactly when [a] precedes [b] in the
    lexicographic order decided at the first differing byte, zero exactly
    when [a = b], and positive exactly when [b] precedes [a].  The comparator
    is a function of its three arguments only: it reads the two buffers and
    changes nothing. *)
Theorem mycmp_lexicographic (a b : list Z) (n : Z) :
  Z.of_nat (length a) = n -> Z.of_nat (length b) = n ->
  (mycmp a b n = -1 \/ mycmp a b n = 0 \/ mycmp a b n = 1) /\
  (mycmp a b n < 0 <-> lex_lt a b) /\
  (mycmp a b n = 0 <-> a = b) /\
  (mycmp a b n > 0 <-> lex_lt b a).
Proof.
  intros Ha Hb. unfold mycmp.
  assert (Ha' : length a = Z.to_nat n) by lia.
  assert (Hb' : length b = Z.to_nat n) by lia.
  repeat split.
  - apply mycmp_loop_values.
  - apply mycmp_loop_neg; assumption.
  - apply mycmp_loop_neg; assumption.
  - apply mycmp_loop_zero; assumption.
  - apply mycmp_loop_zero; assumption.
  - intros H. apply (mycmp_loop_neg b a (Z.to_nat n)); try assumption.
    rewrite mycmp_loop_flip. lia.
  - intros H. apply (mycmp_loop_neg b a (Z.to_nat n)) in H; try assumption.
    rewrite mycmp_loop_flip in H. lia.
Qed.

Lemma mycmp_lexicographic_witness :
  (mycmp [1; 200; 3] [1; 7; 255] 3 = -1 \/ mycmp [1; 200; 3] [1; 7; 255] 3 = 0 \/
   mycmp [1; 200; 3] [1; 7; 255] 3 = 1) /\
  (mycmp [1; 200; 3] [1; 7; 255] 3 < 0 <-> lex_lt [1; 200; 3] [1; 7; 255]) /\
  (mycmp [1; 200; 3] [1; 7; 255] 3 = 0 <-> [1; 200; 3] = [1; 7; 255]) /\
  (mycmp [1; 200; 3] [1; 7; 255] 3 > 0 <-> lex_lt [1; 7; 255] [1; 200; 3]).
Proof. apply mycmp_lexicographic; reflexivity. Defined.

(* ===================================================================== *)
(** * Checked accesses and the histogram update *)
(* ===================================================================== *)

Lemma obind_done {A B : Type} (m : outcome A) (f : A -> outcome B) (r : B) :
  m ≫= f = Done r -> exists a, m = Done a /\ f a = Done r.
Proof. destruct m as [a| |]; simpl; intros H; try discriminate. eauto. Qed.

Lemma obind_eq_done {A B : Type} (m : outcome A) (f : A -> outcome B) (a : A) :
  m = Done a -> m ≫= f = f a.
Proof. intros ->. reflexivity. Qed.

(** Invert every successful bind among the hypotheses. *)
Ltac inv_done :=
  repeat match goal with
  | H : _ ≫= _ = Done _ |- _ =>
      let a := fresh "a" in
      let Ha := fresh "Ha" in
      apply obind_done in H; destruct H as (a & Ha & H)
  | a : (_ * _)%type |- _ => destruct a
  end; simplify_eq/=.

Lemma rd_done {A : Type} (l : list A) (i : nat) (x : A) :
  rd l i = Done x <-> l !! i = Some x.
Proof.
  unfold rd. destruct (l !! i); split; intros H; try discriminate; congruence.
Qed.

Lemma rd_lookup {A : Type} (l : list A) (i : nat) (x : A) :
  l !! i = Some x -> rd l i = Done x.
Proof. apply rd_done. Qed.

Lemma rd64_done (mem : list Z) (a v : Z) :
  rd64 mem a = Done v <->
  0 <= a < Z.of_nat (length mem) /\ mem !! Z.to_nat a = Some v.
Proof.
  unfold rd64.
  destruct (Z.leb_spec 0 a), (Z.ltb_spec a (Z.of_nat (length mem))); simpl;
    rewrite ?rd_done; split; try discriminate; try tauto; intros [? ?]; lia.
Qed.

Lemma rd64_inside (mem : list Z) (a : Z) :
  0 <= a < Z.of_nat (length mem) -> exists v, rd64 mem a = Done v.
Proof.
  intros H. destruct (lookup_lt_is_Some_2 mem (Z.to_nat a)) as [v Hv]; [lia|].
  exists v. apply rd64_done. auto.
Qed.

Lemma hist_add_done (h bin : Z) (mem mem' : list Z) :
  hist_add h bin mem = Done mem' -> incremented_at mem mem' (h + bin).
Proof.
  unfold hist_add. intros H. inv_done.
  apply rd64_done in Ha as [Hin Hv].
  repeat split; try lia.
  - apply length_insert.
  - intros v Hv'. rewrite list_lookup_insert_eq by lia. congruence.
  - intros i Hi. apply list_lookup_insert_ne. congruence.
Qed.

Lemma hist_add_inside (h bin : Z) (mem : list Z) :
  0 <= h + bin < Z.of_nat (length mem) -> exists mem', hist_add h bin mem = Done mem'.
Proof.
  intros H. destruct (rd64_inside mem _ H) as [v Hv].
  unfold hist_add. rewrite Hv. simpl. eauto.
Qed.

Lemma hist_update_bin (LOW HGH h c : Z) (mem : list Z) :
  LOW <= HGH ->
  exists bin, bin_of LOW HGH c bin /\ LOW <= bin <= HGH /\
              hist_update LOW HGH h c mem = hist_add h bin mem.
Proof.
  intros Hw. unfold hist_update, bin_of.
  destruct (Z.leb_spec c LOW).
  - exists LOW. split; [auto | split; [lia | reflexivity]].
  - destruct (Z.geb_spec c HGH).
    + exists HGH. split; [right; left; lia | split; [lia | reflexivity]].
    + exists c. split; [right; right; lia | split; [lia | reflexivity]].
Qed.

Lemma bin_of_unique (LOW HGH c b1 b2 : Z) :
  LOW <= HGH -> bin_of LOW HGH c b1 -> bin_of LOW HGH c b2 -> b1 = b2.
Proof. unfold bin_of. lia. Qed.

Lemma incremented_at_length mem mem' a :
  incremented_at mem mem' a -> length mem' = length mem.
Proof. intros (_ & H & _). exact H. Qed.

(** A successful pass through the compare loop hands one count to one
    histogram. *)
Lemma Venn2_body_update (LOW HGH kb : Z) (s s' : venn2_state) :
  Venn2_body LOW HGH kb s = Done (true, s') ->
  exists e, v2_log s' = v2_log s ++ [e] /\ ev_phase e = Compare /\
            hist_update LOW HGH (ev_hist e) (ev_count e) (v2_mem s) = Done (v2_mem s').
Proof.
  destruct s as [Tv T U AminB BminA Inter iptr jptr mem log]. simpl.
  destruct iptr as [ip|]; [|discriminate].
  destruct jptr as [jp|]; [|discriminate].
  destruct (mycmp (ekey ip) (ekey jp) kb =? 0);
    [|destruct (mycmp (ekey ip) (ekey jp) kb <? 0)];
    intros H; inv_done; eexists; split; try reflexivity; simpl; auto.
Qed.

Lemma Venn2_drain_body_update (LOW HGH : Z) (s s' : venn2_state) :
  Venn2_drain_body LOW HGH s = Done (Some s') ->
  exists e, v2_log s' = v2_log s ++ [e] /\ ev_phase e = Drain /\
            hist_update LOW HGH (ev_hist e) (ev_count e) (v2_mem s) = Done (v2_mem s').
Proof.
  destruct s as [Tv T U AminB BminA Inter iptr jptr mem log]. simpl.
  destruct iptr as [ip|]; [|discriminate].
  intros H; inv_done; eexists; split; try reflexivity; simpl; auto.
Qed.

Lemma parse_args_operands F args LOW HGH acc :
  forallb (fun a => negb (is_option a)) args = true ->
  parse_args F args LOW HGH acc = inr (LOW, HGH, acc ++ args).
Proof.
  revert acc. induction args as [|a args IH]; intros acc H; simpl.
  - rewrite app_nil_r. reflexivity.
  - simpl in H. apply andb_true_iff in H as [Ha H].
    replace (acc ++ a :: args) with ((acc ++ [a]) ++ args)
      by (rewrite <- app_assoc; reflexivity).
    destruct a as [|c a]; [apply IH; assumption|].
    destruct (Ascii.eqb_spec c "-"%char) as [->|Hc]; [discriminate|].
    rewrite <- (IH (acc ++ [String c a]) H).
    destruct c as [[] [] [] [] [] [] [] []]; try reflexivity.
    contradiction Hc. reflexivity.
Qed.

(** ** C4 *)

Lemma next_in_total Tv x :
  (x < length Tv)%nat ->
  exists Tv' p, next_in Tv x = Done (Tv', p) /\ length Tv' = length Tv.
Proof.
  intros Hx. destruct (lookup_lt_is_Some_2 Tv x Hx) as [Tx HTx].
  unfold next_in. rewrite (rd_lookup _ _ _ HTx). simpl.
  eexists _, _. split; [reflexivity|]. apply length_insert.
Qed.

(** C4.  With a window [1 <= LOW <= HGH], a histogram update that succeeds
    increments exactly one counter of the block and leaves the others as they
    were: the one for bin [LOW] when [c <= LOW], bin [HGH] when [c >= HGH],
    bin [c] when [LOW < c < HGH]; and it succeeds whenever that counter lies
    inside the block.  On the merge path, a pass of the compare loop of
    [Venn2] with both cursors on an entry makes exactly this update, in the
    histogram and with the count the comparison selects: the intersection
    with the smaller count for equal keys, [A-B] with the count of the first
    entry when its key is smaller, [B-A] with the count of the second
    otherwise; the pass is made whenever the counter lies inside the block,
    and a pass that leaves the loop changes no counter.  On the drain path,
    a pass of the drain loop makes exactly this update in the histogram
    [AminB] with the count of the entry under the cursor, whenever the
    counter lies inside the block, and the loop ends only when the cursor
    is [NULL].  Without a [-h] option the window of [main] is [1, 100]. *)
Theorem hist_update_clamps (LOW HGH : Z) :
  1 <= LOW <= HGH ->
  (forall h c mem mem',
      hist_update LOW HGH h c mem = Done mem' ->
      exists bin, bin_of LOW HGH c bin /\ incremented_at mem mem' (h + bin)) /\
  (forall h c bin mem,
      bin_of LOW HGH c bin -> 0 <= h + bin < Z.of_nat (length mem) ->
      exists mem', hist_update LOW HGH h c mem = Done mem') /\
  (forall kb Tv T U hA hB hI ip jp mem log,
      let v := mycmp (ekey ip) (ekey jp) kb in
      let h := if v =? 0 then hI else if v <? 0 then hA else hB in
      let c := if v =? 0 then Z.min (ecount ip) (ecount jp)
               else if v <? 0 then ecount ip else ecount jp in
      let s := mkV2 Tv T U hA hB hI (Some ip) (Some jp) mem log in
      (forall again s',
          Venn2_body LOW HGH kb s = Done (again, s') ->
          again = true /\
          exists bin, bin_of LOW HGH c bin /\
                      incremented_at mem (v2_mem s') (h + bin)) /\
      (forall bin,
          (T < length Tv)%nat -> (U < length Tv)%nat ->
          bin_of LOW HGH c bin -> 0 <= h + bin < Z.of_nat (length mem) ->
          exists s', Venn2_body LOW HGH kb s = Done (true, s'))) /\
  (forall kb s s',
      Venn2_body LOW HGH kb s = Done (false, s') ->
      (v2_iptr s = None \/ v2_jptr s = None) /\ v2_mem s' = v2_mem s) /\
  (forall Tv T U hA hB hI ip jptr mem log,
      let s := mkV2 Tv T U hA hB hI (Some ip) jptr mem log in
      (forall r,
          Venn2_drain_body LOW HGH s = Done r ->
          exists s', r = Some s' /\
          exists bin, bin_of LOW HGH (ecount ip) bin /\
                      incremented_at mem (v2_mem s') (hA + bin)) /\
      (forall bin,
          (T < length Tv)%nat ->
          bin_of LOW HGH (ecount ip) bin -> 0 <= hA + bin < Z.of_nat (length mem) ->
          exists s', Venn2_drain_body LOW HGH s = Done (Some s'))) /\
  (forall s, Venn2_drain_body LOW HGH s = Done None -> v2_iptr s = None) /\
  default_window = (1, 100) /\
  (forall F ops,
      forallb (fun a => negb (is_option a)) ops = true ->
      parse_args F ops default_window.1 default_window.2 [] = inr (1, 100, ops)).
Proof.
  intros Hw.
  assert (Hupd : forall h c mem mem',
             hist_update LOW HGH h c mem = Done mem' ->
             exists bin, bin_of LOW HGH c bin /\ incremented_at mem mem' (h + bin)).
  { intros h c mem mem' H.
    destruct (hist_update_bin LOW HGH h c mem) as (bin & Hb & _ & Heq); [lia|].
    rewrite Heq in H. exists bin. split; [exact Hb|]. apply hist_add_done, H. }
  assert (Htot : forall h c bin mem,
             bin_of LOW HGH c bin -> 0 <= h + bin < Z.of_nat (length mem) ->
             exists mem', hist_update LOW HGH h c mem = Done mem').
  { intros h c bin mem Hb Hin.
    destruct (hist_update_bin LOW HGH h c mem) as (bin' & Hb' & _ & Heq); [lia|].
    rewrite Heq. rewrite (bin_of_unique LOW HGH c bin' bin) by (auto; lia).
    apply hist_add_inside, Hin. }
  assert (Hmin : forall c d : Z, (if c >? d then d else c) = Z.min c d).
  { intros c d. destruct (Z.gtb_spec c d); lia. }
  split; [exact Hupd|]. split; [exact Htot|].
  split; [|split; [|split; [|split; [|split]]]].
  - intros kb Tv T U hA hB hI ip jp mem log v h c s. subst s h c v. split.
    + intros again s'. simpl. unfold COUNT_OF. rewrite Hmin.
      destruct (mycmp (ekey ip) (ekey jp) kb =? 0);
        [|destruct (mycmp (ekey ip) (ekey jp) kb <? 0)];
        intros H; inv_done; (split; [reflexivity|]); apply Hupd; assumption.
    + intros bin HT HU Hb Hin. simpl. unfold COUNT_OF. rewrite Hmin.
      destruct (Htot _ _ _ _ Hb Hin) as [mem' Hmem'].
      destruct (next_in_total Tv T HT) as (Tv1 & p1 & H1 & L1).
      destruct (next_in_total Tv U HU) as (Tv2 & p2 & H2 & L2).
      destruct (next_in_total Tv1 U ltac:(lia)) as (Tv3 & p3 & H3 & L3).
      destruct (mycmp (ekey ip) (ekey jp) kb =? 0);
        [|destruct (mycmp (ekey ip) (ekey jp) kb <? 0)].
      * rewrite H1. simpl. rewrite H3. simpl. rewrite Hmem'. simpl. eauto.
      * rewrite H1. simpl. rewrite Hmem'. simpl. eauto.
      * rewrite H2. simpl. rewrite Hmem'. simpl. eauto.
  - intros kb s s'. destruct s as [Tv T U AminB BminA Inter iptr jptr mem log]. simpl.
    destruct iptr as [ip|]; [|intros H; injection H as <-; auto].
    destruct jptr as [jp|]; [|intros H; injection H as <-; auto].
    destruct (mycmp (ekey ip) (ekey jp) kb =? 0);
      [|destruct (mycmp (ekey ip) (ekey jp) kb <? 0)]; intros H; inv_done.
  - intros Tv T U hA hB hI ip jptr mem log s. subst s. split.
    + intros r. simpl. unfold COUNT_OF. intros H. inv_done.
      eexists. split; [reflexivity|]. simpl. apply Hupd. assumption.
    + intros bin HT Hb Hin. simpl. unfold COUNT_OF.
      destruct (Htot _ _ _ _ Hb Hin) as [mem' Hmem'].
      destruct (next_in_total Tv T HT) as (Tv1 & p1 & H1 & L1).
      rewrite H1. simpl. rewrite Hmem'. simpl. eauto.
  - intros s. destruct s as [Tv T U AminB BminA Inter iptr jptr mem log]. simpl.
    destruct iptr as [ip|]; [|reflexivity]. intros H. inv_done.
  - reflexivity.
  - intros F ops H. apply (parse_args_operands F ops 1 100 [] H).
Qed.

Lemma hist_update_clamps_witness :
  1 <= 1 <= 100 /\
  ((forall h c mem mem',
       hist_update 1 100 h c mem = Done mem' ->
       exists bin, bin_of 1 100 c bin /\ incremented_at mem mem' (h + bin)) /\
   (forall h c bin mem,
       bin_of 1 100 c bin -> 0 <= h + bin < Z.of_nat (length mem) ->
       exists mem', hist_update 1 100 h c mem = Done mem') /\
   (forall kb Tv T U hA hB hI ip jp mem log,
       let v := mycmp (ekey ip) (ekey jp) kb in
       let h := if v =? 0 then hI else if v <? 0 then hA else hB in
       let c := if v =? 0 then Z.min (ecount ip) (ecount jp)
                else if v <? 0 then ecount ip else ecount jp in
       let s := mkV2 Tv T U hA hB hI (Some ip) (Some jp) mem log in
       (forall again s',
           Venn2_body 1 100 kb s = Done (again, s') ->
           again = true /\
           exists bin, bin_of 1 100 c bin /\
                       incremented_at mem (v2_mem s') (h + bin)) /\
       (forall bin,
           (T < length Tv)%nat -> (U < length Tv)%nat ->
           bin_of 1 100 c bin -> 0 <= h + bin < Z.of_nat (length mem) ->
           exists s', Venn2_body 1 100 kb s = Done (true, s'))) /\
   (forall kb s s',
       Venn2_body 1 100 kb s = Done (false, s') ->
       (v2_iptr s = None \/ v2_jptr s = None) /\ v2_mem s' = v2_mem s) /\
   (forall Tv T U hA hB hI ip jptr mem log,
       let s := mkV2 Tv T U hA hB hI (Some ip) jptr mem log in
       (forall r,
           Venn2_drain_body 1 100 s = Done r ->
           exists s', r = Some s' /\
           exists bin, bin_of 1 100 (ecount ip) bin /\
                       incremented_at mem (v2_mem s') (hA + bin)) /\
       (forall bin,
           (T < length Tv)%nat ->
           bin_of 1 100 (ecount ip) bin -> 0 <= hA + bin < Z.of_nat (length mem) ->
           exists s', Venn2_drain_body 1 100 s = Done (Some s'))) /\
   (forall s, Venn2_drain_body 1 100 s = Done None -> v2_iptr s = None) /\
   default_window = (1, 100) /\
   (forall F ops,
       forallb (fun a => negb (is_option a)) ops = true ->
       parse_args F ops default_window.1 default_window.2 [] = inr (1, 100, ops))).
Proof. split; [lia|]. apply (hist_update_clamps 1 100). lia. Defined.

(* ===================================================================== *)
(** * Set-up, command line and output of [main] *)
(* ===================================================================== *)

(** ** C2 *)

Lemma alloc_hist_length nway LOW HGH :
  1 <= LOW <= HGH -> HGH < 2 ^ 31 ->
  Z.of_nat (length (alloc_hist nway LOW HGH).1) = HGH - LOW + 1.
Proof.
  intros Hw Hh. unfold alloc_hist. simpl. rewrite length_replicate.
  rewrite (int_of_small (HGH - LOW)) by lia.
  rewrite int_of_small by lia. lia.
Qed.

(** C2.  The block that [main] allocates and clears holds [HGH - LOW + 1]
    counters whatever the number of streams: [Malloc] is asked for one
    histogram only.  For two streams and the default window [1, 100] that
    is 100 counters, not 3 * 100; the base pointers are laid out 100
    elements apart, so only the histogram of mask 1 lies in the block, and
    the first bin of the histogram of mask 2 is already outside it.  A run
    of [main] on the example tables [A] and [B] accesses a counter outside
    the block. *)
Theorem alloc_hist_one_histogram_only :
  (forall nway LOW HGH,
      1 <= LOW <= HGH -> HGH < 2 ^ 31 ->
      Z.of_nat (length (alloc_hist nway LOW HGH).1) = HGH - LOW + 1) /\
  length (alloc_hist 2 1 100).1 = 100%nat /\
  (alloc_hist 2 1 100).2 = [-1; 99; 199] /\
  rd64 (alloc_hist 2 1 100).1 (99 + 1) = Fault /\
  rd64 (alloc_hist 2 1 100).1 (199 + 100) = Fault /\
  Venn2 1 100 [ex_A; ex_B] (alloc_hist 2 1 100).2 (alloc_hist 2 1 100).1 = Fault /\
  main (fun _ => None) ex_dir ["Vennex"; "x"; "y"]%string = Undefined.
Proof. split; [exact alloc_hist_length|]. vm_compute. repeat split. Qed.

(** ** C5 *)

Lemma parse_h_accepted arg lo hi :
  parse_h arg = inr (lo, hi) -> 1 <= lo <= hi /\ lo <= 32767.
Proof.
  unfold parse_h. destruct (strtol arg) as [lv eptr].
  destruct (String.length eptr <? String.length arg)%nat; [|discriminate].
  destruct (Z.ltb_spec (int_of lv) 1); [discriminate|].
  destruct (Z.gtb_spec (int_of lv) 32767); [discriminate|]. simpl.
  destruct eptr as [|c e1]; [intros [= <- <-]; lia|].
  destruct (Ascii.eqb_spec c ":"%char) as [->|Hc].
  - destruct (strtol e1) as [hv fptr].
    destruct (String.length fptr <? String.length e1)%nat; [|discriminate].
    destruct fptr; [|discriminate].
    destruct (Z.gtb_spec (int_of lv) (int_of hv)); [discriminate|].
    intros [= <- <-]. lia.
  - destruct c as [[] [] [] [] [] [] [] []]; try discriminate.
    contradiction Hc. reflexivity.
Qed.

(** C5.  [-h1:40000] is accepted and sets the window to [1, 40000], although
    40000 > 32767: in the two-number form only the low bound is checked
    against [1, 32767].  The one-number form [-h40000] is rejected.  What
    every accepted [-h] does guarantee is [1 <= low <= high] and
    [low <= 32767]. *)
Theorem parse_h_high_bound_unchecked (F : string -> option message) :
  parse_h "1:40000" = inr (1, 40000) /\
  parse_args F ["-h1:40000"; "a"; "b"]%string 1 100 [] =
    inr (1, 40000, ["a"; "b"]%string) /\
  parse_h "40000" = inl (Msg_count_out_of_range 40000) /\
  (forall arg lo hi, parse_h arg = inr (lo, hi) -> 1 <= lo <= hi /\ lo <= 32767).
Proof.
  split; [reflexivity|]. split; [reflexivity|]. split; [reflexivity|].
  exact parse_h_accepted.
Qed.

(** ** C7 *)

Lemma land_1_odd i : Z.land 1 i = if Z.odd i then 1 else 0.
Proof.
  rewrite Z.land_comm. change 1 with (Z.ones 1) at 1.
  rewrite Z.land_ones by lia. change (2 ^ 1) with 2. apply Zmod_odd.
Qed.

Lemma hist_label_bit0 i : forall upp low c,
  length upp = length low ->
  hist_label 1 i upp low c =
    if Z.odd i then hist_label 1 i upp upp c else hist_label 1 i low low c.
Proof.
  induction upp as [|u upp IH]; intros [|l low] c Hlen; try discriminate.
  - destruct (Z.odd i); reflexivity.
  - simpl. rewrite (IH low (S c)) by (simpl in Hlen; lia).
    rewrite land_1_odd. destruct (Z.odd i); reflexivity.
Qed.

(** C7.  For the operands [a.ktab] and [b.ktab] the files of masks 1, 2 and 3
    are named [A_B.hist], [a_b.hist] and [A_B.hist]: the bit [b] tested
    against the mask stays 1 for every stream, so all the identifiers follow
    bit 0 of the mask, and mask 2 does not give [a_B.hist].  With a block
    that holds all three histograms the output loop writes these three
    names in this order, the third over the first.  In general the name of
    mask [i] is made of the uppercase identifiers only when [i] is odd and
    of the lowercase identifiers only when [i] is even. *)
Theorem hist_name_ignores_stream_bit :
  let ops := ["a.ktab"; "b.ktab"]%string in
  let upp := map upper_name ops in
  let low := map lower_name ops in
  (forall (us ls : list string) (i : Z),
      length us = length ls ->
      hist_name us ls i = if Z.odd i then hist_name us us i else hist_name ls ls i) /\
  hist_name upp low 1 = "A_B.hist"%string /\
  hist_name upp low 2 = "a_b.hist"%string /\
  hist_name upp low 3 = "A_B.hist"%string /\
  write_hists 21 1 2 upp low [-1; 1; 3] [5; 6; 7; 8; 9; 10] 1 3 =
    Done [("A_B.hist"%string, [W32 21; W32 1; W32 2; W64 5; W64 6]);
          ("a_b.hist"%string, [W32 21; W32 1; W32 2; W64 7; W64 8]);
          ("A_B.hist"%string, [W32 21; W32 1; W32 2; W64 9; W64 10])].
Proof.
  split; [|vm_compute; auto].
  intros us ls i Hlen. unfold hist_name.
  rewrite (hist_label_bit0 i us ls 0 Hlen). destruct (Z.odd i); reflexivity.
Qed.

(** ** C8 *)







(* ===================================================================== *)
(** * The general merge: one iteration *)
(* ===================================================================== *)

Lemma elem_of_tied_upto ptr m c x :
  x ∈ tied_upto ptr m c <-> (x < c)%nat /\ at_key ptr m x = true.
Proof.
  induction c as [|c IH]; simpl.
  - split; [intros H; apply elem_of_nil in H; contradiction | lia].
  - rewrite elem_of_app, IH. destruct (at_key ptr m c) eqn:E.
    + rewrite list_elem_of_singleton. split.
      * intros [[? ?] | ->]; split; auto; lia.
      * intros [Hlt Hat]. destruct (decide (x = c)) as [->|]; [auto|].
        left. split; [lia | exact Hat].
    + split.
      * intros [[? ?] | H]; [split; auto; lia | apply elem_of_nil in H; contradiction].
      * intros [Hlt Hat]. left. split; [|exact Hat].
        destruct (decide (x = c)) as [->|]; [congruence | lia].
Qed.

Lemma tied_upto_NoDup ptr m c : NoDup (tied_upto ptr m c).
Proof.
  induction c as [|c IH]; simpl; [constructor|].
  apply NoDup_app. split; [exact IH|]. split.
  - intros x Hx Hx'. apply elem_of_tied_upto in Hx as [Hlt _].
    destruct (at_key ptr m c); [|apply elem_of_nil in Hx'; contradiction].
    apply list_elem_of_singleton in Hx'. lia.
  - destruct (at_key ptr m c); [apply NoDup_singleton | constructor].
Qed.

Lemma tied_upto_none ptr m c :
  (forall i, (i < c)%nat -> at_key ptr m i = false) -> tied_upto ptr m c = [].
Proof.
  induction c as [|c IH]; intros H; simpl; [reflexivity|].
  rewrite IH by (intros; apply H; lia). rewrite H by lia. reflexivity.
Qed.

Section Scan.

Variable kb : Z.
Variable ptr : list (option Entry).
Hypothesis Hkeys :
  forall i e, ptr !! i = Some (Some e) -> length (ekey e) = Z.to_nat kb.

Lemma Venn_first_spec k : forall c,
  (c + k)%nat = length ptr ->
  exists c', Venn_first ptr c k = Done c' /\ (c <= c' <= c + k)%nat /\
             (forall i, (c <= i < c')%nat -> ptr !! i = Some None) /\
             ((c' < c + k)%nat -> exists e, ptr !! c' = Some (Some e)).
Proof.
  induction k as [|k IH]; intros c Hlen; simpl.
  - exists c. split; [reflexivity|]. split; [lia|]. split; intros; lia.
  - destruct (lookup_lt_is_Some_2 ptr c) as [p Hp]; [lia|].
    unfold rd at 1. rewrite Hp. simpl. destruct p as [e|].
    + exists c. split; [reflexivity|]. split; [lia|].
      split; [intros; lia | eauto].
    + destruct (IH (S c)) as (c' & Hc' & Hr & Hnone & Hsome); [lia|].
      exists c'. split; [exact Hc'|]. split; [lia|]. split.
      * intros i Hi. destruct (decide (i = c)) as [->|]; [exact Hp|].
        apply Hnone. lia.
      * intros Hlt. apply Hsome. lia.
Qed.

Lemma key_cmp_zero e1 e2 i j :
  ptr !! i = Some (Some e1) -> ptr !! j = Some (Some e2) ->
  (mycmp (ekey e1) (ekey e2) kb = 0 <-> ekey e1 = ekey e2).
Proof.
  intros H1 H2. apply mycmp_loop_zero; eapply Hkeys; eassumption.
Qed.

Lemma key_cmp_refl e i :
  ptr !! i = Some (Some e) -> mycmp (ekey e) (ekey e) kb = 0.
Proof. intros H. apply (key_cmp_zero e e i i H H). reflexivity. Qed.

Lemma key_cmp_le_lt e1 e2 e3 i j l :
  ptr !! i = Some (Some e1) -> ptr !! j = Some (Some e2) -> ptr !! l = Some (Some e3) ->
  mycmp (ekey e1) (ekey e2) kb < 0 -> mycmp (ekey e2) (ekey e3) kb <= 0 ->
  mycmp (ekey e1) (ekey e3) kb < 0.
Proof.
  intros H1 H2 H3 Hlt Hle.
  destruct (Z.eq_dec (mycmp (ekey e2) (ekey e3) kb) 0) as [Hz|Hnz].
  - apply (key_cmp_zero e2 e3 j l H2 H3) in Hz. rewrite <- Hz. exact Hlt.
  - unfold mycmp in *.
    eapply mycmp_loop_trans; [eapply Hkeys; exact H1 | eapply Hkeys; exact H2
                             | eapply Hkeys; exact H3 | exact Hlt | lia].
Qed.

Lemma Venn_scan_spec k : forall c imin pm,
  (c + k)%nat = length ptr ->
  ptr !! imin = Some (Some pm) ->
  (forall i e, (i < c)%nat -> ptr !! i = Some (Some e) ->
               mycmp (ekey pm) (ekey e) kb <= 0) ->
  exists imin' pm',
    Venn_scan kb ptr c k imin (tied_upto ptr (ekey pm) c) =
      Done (imin', tied ptr (ekey pm')) /\
    ptr !! imin' = Some (Some pm') /\
    (forall i e, ptr !! i = Some (Some e) -> mycmp (ekey pm') (ekey e) kb <= 0).
Proof.
  induction k as [|k IH]; intros c imin pm Hlen Hmin Hle; simpl.
  - exists imin, pm. unfold tied. replace (length ptr) with c by lia.
    split; [reflexivity|]. split; [exact Hmin|].
    intros i e Hi. apply (Hle i e); [|exact Hi]. apply lookup_lt_Some in Hi. lia.
  - destruct (lookup_lt_is_Some_2 ptr c) as [p Hp]; [lia|].
    rewrite (rd_lookup _ _ _ Hp). simpl. destruct p as [pc|].
    + rewrite (rd_lookup _ _ _ Hmin). simpl.
      destruct (Z.eqb_spec (mycmp (ekey pc) (ekey pm) kb) 0) as [Hz|Hnz].
      * apply (key_cmp_zero pc pm c imin Hp Hmin) in Hz.
        replace (tied_upto ptr (ekey pm) c ++ [c])
          with (tied_upto ptr (ekey pm) (S c)).
        2:{ simpl. unfold at_key. rewrite Hp, Hz.
            rewrite bool_decide_eq_true_2 by reflexivity. reflexivity. }
        apply IH; [lia | exact Hmin |].
        intros i e Hi He. destruct (decide (i = c)) as [->|].
        -- rewrite Hp in He. injection He as <-. rewrite <- Hz.
           apply Z.eq_le_incl. apply (key_cmp_refl pc c Hp).
        -- apply (Hle i e); [lia | exact He].
      * destruct (Z.ltb_spec (mycmp (ekey pc) (ekey pm) kb) 0) as [Hlt|Hge].
        -- replace [c] with (tied_upto ptr (ekey pc) (S c)).
           2:{ simpl. rewrite tied_upto_none.
               - unfold at_key. rewrite Hp.
                 rewrite bool_decide_eq_true_2 by reflexivity. reflexivity.
               - intros i Hi. unfold at_key.
                 destruct (ptr !! i) as [[e|]|] eqn:Hpi; try reflexivity.
                 apply bool_decide_eq_false_2. intros Heq.
                 pose proof (key_cmp_le_lt pc pm e c imin i Hp Hmin Hpi Hlt
                               (Hle i e Hi Hpi)) as Hbad.
                 rewrite Heq in Hbad.
                 pose proof (key_cmp_refl pc c Hp) as Hrefl. lia. }
           apply IH; [lia | exact Hp |].
           intros i e Hi He. destruct (decide (i = c)) as [->|].
           ++ rewrite Hp in He. injection He as <-.
              apply Z.eq_le_incl. apply (key_cmp_refl pc c Hp).
           ++ apply Z.lt_le_incl.
              eapply (key_cmp_le_lt pc pm e c imin i); eauto. apply (Hle i e); [lia|auto].
        -- replace (tied_upto ptr (ekey pm) c)
             with (tied_upto ptr (ekey pm) (S c)).
           2:{ simpl. unfold at_key. rewrite Hp.
               rewrite bool_decide_eq_false_2; [apply app_nil_r|].
               intros Heq. apply Hnz. apply (key_cmp_zero pc pm c imin Hp Hmin).
               exact Heq. }
           apply IH; [lia | exact Hmin |].
           intros i e Hi He. destruct (decide (i = c)) as [->|].
           ++ rewrite Hp in He. injection He as <-.
              unfold mycmp in *. rewrite mycmp_loop_flip. lia.
           ++ apply (Hle i e); [lia | exact He].
    + replace (tied_upto ptr (ekey pm) c) with (tied_upto ptr (ekey pm) (S c)).
      2:{ simpl. unfold at_key. rewrite Hp. apply app_nil_r. }
      apply IH; [lia | exact Hmin |].
      intros i e Hi He. destruct (decide (i = c)) as [->|]; [congruence|].
      apply (Hle i e); [lia | exact He].
Qed.

End Scan.

Lemma current_head T : current T = head (remaining T).
Proof.
  unfold current, remaining. rewrite head_lookup, lookup_drop.
  f_equal. lia.
Qed.

Lemma remaining_adv T : remaining (adv T) = tail (remaining T).
Proof.
  unfold remaining, adv. simpl.
  generalize (cidx T) (table T). intros n l. revert l.
  induction n as [|n IH]; intros [|x l]; try reflexivity.
  apply (IH l).
Qed.

Lemma table_adv T : table (adv T) = table T.
Proof. reflexivity. Qed.

Lemma next_in_spec Tv x Tx :
  Tv !! x = Some Tx ->
  next_in Tv x = Done (alter adv x Tv, current (adv Tx)).
Proof.
  intros H. unfold next_in. rewrite (rd_lookup _ _ _ H). simpl.
  f_equal. f_equal. apply list_eq. intros i.
  destruct (decide (x = i)) as [->|Hne].
  - rewrite list_lookup_alter_eq, H.
    apply list_lookup_insert_eq. eapply lookup_lt_Some, H.
  - rewrite list_lookup_alter_ne, list_lookup_insert_ne by exact Hne. reflexivity.
Qed.

Lemma wr_inside {A : Type} (l : list A) (i : nat) (x : A) :
  (i < length l)%nat -> wr l i x = Done (<[i := x]> l).
Proof.
  intros H. unfold wr. destruct (Nat.ltb_spec i (length l)); [reflexivity | lia].
Qed.

Lemma current_alter_adv (T : list Kmer_Stream) x Tx :
  T !! x = Some Tx ->
  <[x := current (adv Tx)]> (current <$> T) = current <$> alter adv x T.
Proof.
  intros H. apply list_eq. intros i.
  rewrite list_lookup_fmap.
  destruct (decide (x = i)) as [->|Hne].
  - rewrite list_lookup_alter_eq, H. simpl.
    apply list_lookup_insert_eq. rewrite length_fmap. eapply lookup_lt_Some, H.
  - rewrite list_lookup_alter_ne, list_lookup_insert_ne by exact Hne.
    rewrite list_lookup_fmap. reflexivity.
Qed.

Lemma heads_of_alter T x rest :
  x ∉ rest -> heads_of (alter adv x T) rest = heads_of T rest.
Proof.
  intros Hx. induction rest as [|y rest IH]; [reflexivity|].
  apply not_elem_of_cons in Hx as [Hne Hx]. simpl.
  rewrite list_lookup_alter_ne by exact Hne. rewrite (IH Hx). reflexivity.
Qed.

Lemma Venn_advance_spec ins : forall v T used,
  NoDup ins -> (forall x, x ∈ ins -> (x < length T)%nat) ->
  Venn_advance ins v T (current <$> T) used =
    Done (Z.lor v (bits ins), advance_all ins T, current <$> advance_all ins T,
          used ++ heads_of T ins).
Proof.
  induction ins as [|x ins IH]; intros v T used Hnd Hlt; simpl.
  - rewrite Z.lor_0_r, app_nil_r. reflexivity.
  - apply NoDup_cons in Hnd as [Hx Hnd].
    destruct (lookup_lt_is_Some_2 T x) as [Tx HTx];
      [apply Hlt; apply elem_of_cons; auto|].
    rewrite (rd_lookup (current <$> T) x (current Tx))
      by (rewrite list_lookup_fmap, HTx; reflexivity).
    simpl. rewrite (next_in_spec T x Tx HTx). simpl.
    rewrite wr_inside by (rewrite length_fmap; eapply lookup_lt_Some, HTx).
    simpl. rewrite (current_alter_adv T x Tx HTx).
    rewrite IH; [|exact Hnd|].
    2:{ intros y Hy. rewrite length_alter. apply Hlt. apply elem_of_cons. auto. }
    rewrite heads_of_alter by exact Hx.
    rewrite Z.lor_assoc. rewrite <- app_assoc.
    rewrite HTx. simpl. reflexivity.
Qed.

Lemma advance_all_lookup ins : forall T y,
  NoDup ins ->
  advance_all ins T !! y =
    (fun Ty => if bool_decide (y ∈ ins) then adv Ty else Ty) <$> T !! y.
Proof.
  induction ins as [|x ins IH]; intros T y Hnd.
  - simpl. destruct (T !! y); reflexivity.
  - apply NoDup_cons in Hnd as [Hx Hnd].
    simpl. fold (advance_all ins (alter adv x T)). rewrite (IH _ _ Hnd).
    destruct (decide (x = y)) as [->|Hne].
    + rewrite list_lookup_alter_eq.
      rewrite (bool_decide_eq_true_2 (y ∈ y :: ins)) by (apply elem_of_cons; auto).
      rewrite (bool_decide_eq_false_2 (y ∈ ins)) by exact Hx.
      destruct (T !! y); reflexivity.
    + rewrite list_lookup_alter_ne by exact Hne.
      destruct (T !! y) as [Ty|]; [|reflexivity]. simpl. f_equal.
      destruct (decide (y ∈ ins)) as [Hy|Hy].
      * rewrite !bool_decide_eq_true_2; auto. apply elem_of_cons. auto.
      * rewrite !bool_decide_eq_false_2; auto.
        intros H. apply elem_of_cons in H as [->|H]; [congruence | contradiction].
Qed.

Lemma advance_all_length ins T : length (advance_all ins T) = length T.
Proof.
  revert T. induction ins as [|x ins IH]; intros T; [reflexivity|].
  simpl. fold (advance_all ins (alter adv x T)). rewrite IH. apply length_alter.
Qed.

(* ===================================================================== *)
(** * Sorted tables and their key sets *)
(* ===================================================================== *)

Lemma sorted_keys_nil kb : sorted_keys kb [].
Proof.
  split.
  - intros e He. apply elem_of_nil in He. contradiction.
  - intros i j ei ej Hi. rewrite lookup_nil in Hi. discriminate.
Qed.

Lemma sorted_keys_cons_inv kb e r :
  sorted_keys kb (e :: r) ->
  length (ekey e) = Z.to_nat kb /\ sorted_keys kb r /\
  (forall e', e' ∈ r -> mycmp (ekey e) (ekey e') kb < 0).
Proof.
  intros [Hlen Hord]. split; [apply Hlen; apply elem_of_cons; auto|]. split.
  - split.
    + intros e' He'. apply Hlen. apply elem_of_cons. auto.
    + intros i j ei ej Hi Hj Hij. apply (Hord (S i) (S j)); auto. lia.
  - intros e' He'. apply list_elem_of_lookup in He' as [j Hj].
    apply (Hord 0%nat (S j)); auto. lia.
Qed.

Lemma table_ok_sorted kb l : table_ok kb l = true -> sorted_keys kb l.
Proof.
  unfold table_ok. intros H. apply andb_true_iff in H as [Hlen Hinc].
  induction l as [|e r IH]; [apply sorted_keys_nil|].
  simpl in Hlen. apply andb_true_iff in Hlen as [He Hlen].
  apply Nat.eqb_eq in He.
  assert (Hr : strictly_increasing kb r = true).
  { simpl in Hinc. destruct r; [reflexivity|].
    apply andb_true_iff in Hinc as [_ H]. exact H. }
  destruct (IH Hlen Hr) as [IHlen IHord].
  assert (Hhead : forall j ej, r !! j = Some ej -> mycmp (ekey e) (ekey ej) kb < 0).
  { intros j ej Hj. destruct r as [|e' r']; [rewrite lookup_nil in Hj; discriminate|].
    simpl in Hinc. apply andb_true_iff in Hinc as [Hlt _].
    apply Z.ltb_lt in Hlt.
    destruct j as [|j]; [simpl in Hj; injection Hj as <-; exact Hlt|].
    unfold mycmp in *.
    apply (mycmp_loop_trans _ (ekey e') _ _ He).
    - apply IHlen. apply elem_of_cons. auto.
    - apply IHlen. eapply list_elem_of_lookup_2, Hj.
    - exact Hlt.
    - apply (IHord 0%nat (S j)); auto. lia. }
  split.
  - intros e' He'. apply elem_of_cons in He' as [->|He']; auto.
  - intros i j ei ej Hi Hj Hij. destruct j as [|j]; [lia|].
    destruct i as [|i].
    + simpl in Hi. injection Hi as <-. apply (Hhead j). exact Hj.
    + apply (IHord i j); auto. lia.
Qed.

Lemma sorted_keys_drop kb l n : sorted_keys kb l -> sorted_keys kb (drop n l).
Proof.
  intros [Hlen Hord]. split.
  - intros e He. apply Hlen. apply list_elem_of_lookup in He as [i Hi].
    rewrite lookup_drop in Hi. eapply list_elem_of_lookup_2, Hi.
  - intros i j ei ej Hi Hj Hij. rewrite lookup_drop in Hi, Hj.
    apply (Hord (n + i)%nat (n + j)%nat); auto. lia.
Qed.

Lemma sorted_keys_drop_min kb m r : sorted_keys kb r -> sorted_keys kb (drop_min m r).
Proof.
  intros H. destruct r as [|e r]; [exact H|]. simpl.
  destruct (bool_decide (ekey e = m)); [|exact H].
  apply sorted_keys_cons_inv in H. tauto.
Qed.

Lemma elem_of_keys_of k r : k ∈ keys_of r <-> exists e, e ∈ r /\ ekey e = k.
Proof.
  unfold keys_of. rewrite elem_of_list_to_set, list_elem_of_fmap.
  split; intros (e & H1 & H2); exists e; auto.
Qed.

Lemma elem_of_all_keys k R : k ∈ all_keys R <-> exists r, r ∈ R /\ k ∈ keys_of r.
Proof.
  unfold all_keys. rewrite elem_of_union_list. split.
  - intros (X & HX & Hk). apply list_elem_of_fmap in HX as (r & -> & Hr). eauto.
  - intros (r & Hr & Hk). exists (keys_of r). split; [|exact Hk].
    apply list_elem_of_fmap. eauto.
Qed.

Lemma cmp_lt_ne (kb : Z) (a b : list Z) :
  length a = Z.to_nat kb -> mycmp a b kb < 0 -> a <> b.
Proof.
  intros Ha Hlt ->. unfold mycmp in Hlt.
  assert (mycmp_loop b b (Z.to_nat kb) = 0) by (apply mycmp_loop_zero; auto).
  lia.
Qed.

Lemma cmp_le_lt (kb : Z) (a b c : list Z) :
  length a = Z.to_nat kb -> length b = Z.to_nat kb -> length c = Z.to_nat kb ->
  mycmp a b kb <= 0 -> mycmp b c kb < 0 -> mycmp a c kb < 0.
Proof.
  intros Ha Hb Hc Hle Hlt.
  destruct (Z.eq_dec (mycmp a b kb) 0) as [Hz|Hnz].
  - apply mycmp_loop_zero in Hz; auto. subst b. exact Hlt.
  - unfold mycmp in *. apply (mycmp_loop_trans a b c); auto. lia.
Qed.

Section DropMin.

Variable kb : Z.
Variable m : list Z.
Hypothesis Hm : length m = Z.to_nat kb.

(** In a sorted table whose first key is not below [m], the key [m] can only
    be the first one. *)
Lemma keys_of_drop_min r :
  sorted_keys kb r ->
  (forall e, head r = Some e -> mycmp m (ekey e) kb <= 0) ->
  (m ∉ keys_of (drop_min m r)) /\
  (forall k, k <> m -> (k ∈ keys_of r <-> k ∈ keys_of (drop_min m r))) /\
  (m ∈ keys_of r <-> exists e, head r = Some e /\ ekey e = m).
Proof.
  intros Hs Hle. destruct r as [|e r].
  - simpl. split; [|split].
    + rewrite elem_of_keys_of. intros (e & He & _). apply elem_of_nil in He. auto.
    + tauto.
    + rewrite elem_of_keys_of. split.
      * intros (e & He & _). apply elem_of_nil in He. contradiction.
      * intros (e & He & _). discriminate.
  - destruct (sorted_keys_cons_inv _ _ _ Hs) as (Hlen & Hr & Hlt).
    destruct Hr as [Hrlen Hrord].
    specialize (Hle e eq_refl). simpl.
    assert (Hnot : m ∉ keys_of r).
    { rewrite elem_of_keys_of. intros (e' & He' & Heq).
      apply (cmp_lt_ne kb m (ekey e') Hm); [|auto].
      apply (cmp_le_lt kb m (ekey e) (ekey e')); auto. }
    destruct (decide (ekey e = m)) as [Heq|Hne].
    + rewrite bool_decide_eq_true_2 by exact Heq.
      split; [exact Hnot|]. split.
      * intros k Hk. rewrite !elem_of_keys_of. split.
        -- intros (e' & He' & Hk'). apply elem_of_cons in He' as [->|He']; [congruence|].
           eauto.
        -- intros (e' & He' & Hk'). exists e'. split; [apply elem_of_cons|]; auto.
      * split; [eauto|]. intros _. apply elem_of_keys_of. exists e.
        split; [apply elem_of_cons|]; auto.
    + rewrite bool_decide_eq_false_2 by exact Hne.
      assert (Hnot' : m ∉ keys_of (e :: r)).
      { rewrite elem_of_keys_of. intros (e' & He' & Heq).
        apply elem_of_cons in He' as [->|He']; [contradiction|].
        apply Hnot. apply elem_of_keys_of. eauto. }
      split; [exact Hnot'|]. split; [tauto|].
      split; [contradiction|]. intros (e' & [= <-] & Heq). contradiction.
Qed.

End DropMin.

(* ===================================================================== *)
(** * Masks *)
(* ===================================================================== *)

Lemma int_of_bit (x : nat) :
  (x <= 30)%nat -> int_of (Z.shiftl 1 (Z.of_nat x)) = 2 ^ Z.of_nat x.
Proof.
  intros Hx. rewrite Z.shiftl_1_l. apply int_of_small.
  assert (0 < 2 ^ Z.of_nat x) by (apply Z.pow_pos_nonneg; lia).
  assert (2 ^ Z.of_nat x <= 2 ^ 30) by (apply Z.pow_le_mono_r; lia).
  assert ((2 : Z) ^ 30 < 2 ^ 31) by (apply Z.pow_lt_mono_r; lia).
  lia.
Qed.

Lemma bits_nonneg ins : (forall x, x ∈ ins -> (x <= 30)%nat) -> 0 <= bits ins.
Proof.
  induction ins as [|x ins IH]; intros H; simpl; [lia|].
  apply Z.lor_nonneg. split.
  - rewrite int_of_bit by (apply H; apply elem_of_cons; auto).
    apply Z.pow_nonneg. lia.
  - apply IH. intros y Hy. apply H. apply elem_of_cons. auto.
Qed.

Lemma bits_testbit ins i :
  (forall x, x ∈ ins -> (x <= 30)%nat) -> 0 <= i ->
  Z.testbit (bits ins) i = bool_decide (Z.to_nat i ∈ ins).
Proof.
  intros H Hi. induction ins as [|x ins IH]; simpl.
  - rewrite Z.bits_0. reflexivity.
  - rewrite Z.lor_spec, IH by (intros y Hy; apply H; apply elem_of_cons; auto).
    rewrite int_of_bit by (apply H; apply elem_of_cons; auto).
    rewrite Z.pow2_bits_eqb by lia.
    destruct (Z.eqb_spec (Z.of_nat x) i) as [Heq|Hne]; simpl.
    + symmetry. apply bool_decide_eq_true_2. apply elem_of_cons. left. lia.
    + apply bool_decide_ext. rewrite elem_of_cons. split; [auto|].
      intros [Heq|Hin]; [lia | exact Hin].
Qed.

Lemma lt_pow2_of_bits (a n : Z) :
  0 <= a -> 0 <= n -> (forall i, n <= i -> Z.testbit a i = false) -> a < 2 ^ n.
Proof.
  intros Ha Hn Hbits.
  destruct (Z.eq_dec a 0) as [->|Hnz]; [apply Z.pow_pos_nonneg; lia|].
  apply Z.log2_lt_pow2; [lia|].
  destruct (Z.lt_ge_cases (Z.log2 a) n) as [Hlt|Hge]; [exact Hlt|].
  pose proof (Z.bit_log2 a ltac:(lia)) as Hbit.
  rewrite (Hbits _ Hge) in Hbit. discriminate.
Qed.

Lemma bits_range ins (n : nat) :
  (n <= 30)%nat -> ins <> [] -> (forall x, x ∈ ins -> (x < n)%nat) ->
  1 <= bits ins <= 2 ^ Z.of_nat n - 1.
Proof.
  intros Hn Hne Hlt.
  assert (H30 : forall x, x ∈ ins -> (x <= 30)%nat).
  { intros x Hx. specialize (Hlt x Hx). lia. }
  pose proof (bits_nonneg ins H30) as Hnn.
  split.
  - destruct ins as [|x ins]; [contradiction|].
    assert (Hbit : Z.testbit (bits (x :: ins)) (Z.of_nat x) = true).
    { rewrite bits_testbit by (auto; lia).
      apply bool_decide_eq_true_2. rewrite Nat2Z.id. apply elem_of_cons. auto. }
    destruct (Z.eq_dec (bits (x :: ins)) 0) as [Hz|Hnz]; [|lia].
    rewrite Hz, Z.bits_0 in Hbit. discriminate.
  - assert (bits ins < 2 ^ Z.of_nat n); [|lia].
    apply lt_pow2_of_bits; [exact Hnn | lia |].
    intros i Hi. rewrite bits_testbit by (auto; lia).
    apply bool_decide_eq_false_2. intros Hin. specialize (Hlt _ Hin). lia.
Qed.

Lemma member_mask_nonneg k R x : 0 <= member_mask k R x.
Proof.
  revert x. induction R as [|r R IH]; intros x; simpl; [lia|].
  apply Z.lor_nonneg. split; [|apply IH].
  destruct (bool_decide (k ∈ keys_of r)); [|lia].
  rewrite Z.shiftl_1_l. apply Z.pow_nonneg. lia.
Qed.

Lemma member_mask_testbit k R : forall x i,
  0 <= i ->
  (Z.testbit (member_mask k R x) i = true <->
   exists j r, i = Z.of_nat (x + j) /\ R !! j = Some r /\ k ∈ keys_of r).
Proof.
  induction R as [|r R IH]; intros x i Hi; simpl.
  - rewrite Z.bits_0. split; [discriminate|].
    intros (j & r & _ & Hj & _). rewrite lookup_nil in Hj. discriminate.
  - rewrite Z.lor_spec, orb_true_iff, (IH (S x) i Hi). split.
    + intros [Hbit | (j & r' & -> & Hj & Hk)].
      * destruct (decide (k ∈ keys_of r)) as [Hk|Hk].
        -- rewrite bool_decide_eq_true_2 in Hbit by exact Hk.
           rewrite Z.shiftl_1_l, Z.pow2_bits_eqb in Hbit by lia.
           apply Z.eqb_eq in Hbit. exists 0%nat, r. split; [lia|]. auto.
        -- rewrite bool_decide_eq_false_2 in Hbit by exact Hk.
           rewrite Z.bits_0 in Hbit. discriminate.
      * exists (S j), r'. split; [lia|]. auto.
    + intros (j & r' & -> & Hj & Hk). destruct j as [|j].
      * left. simpl in Hj. injection Hj as <-.
        rewrite bool_decide_eq_true_2 by exact Hk.
        rewrite Z.shiftl_1_l, Z.pow2_bits_eqb by lia. apply Z.eqb_eq. lia.
      * right. exists j, r'. split; [lia|]. auto.
Qed.

Lemma member_mask_ext k k' R R' :
  length R = length R' ->
  (forall j r r', R !! j = Some r -> R' !! j = Some r' ->
                  (k ∈ keys_of r <-> k' ∈ keys_of r')) ->
  forall x, member_mask k R x = member_mask k' R' x.
Proof.
  revert R'. induction R as [|r R IH]; intros [|r' R'] Hlen H x;
    try discriminate; [reflexivity|]. simpl.
  rewrite (IH R'); [|simpl in Hlen; lia|].
  2:{ intros j r0 r0' H0 H0'. apply (H (S j)); auto. }
  f_equal. rewrite (bool_decide_ext _ (k' ∈ keys_of r')); [reflexivity|].
  apply (H 0%nat); reflexivity.
Qed.

(* ===================================================================== *)
(** * The general merge: the loop body on well-formed states *)
(* ===================================================================== *)

Lemma current_elem_of T e : current T = Some e -> e ∈ table T.
Proof. unfold current. apply list_elem_of_lookup_2. Qed.

Lemma remaining_sorted kb T : sorted_keys kb (table T) -> sorted_keys kb (remaining T).
Proof. apply sorted_keys_drop. Qed.

Lemma inv_keys kb n s :
  venn_inv kb n s ->
  forall i e, vn_ptr s !! i = Some (Some e) -> length (ekey e) = Z.to_nat kb.
Proof.
  intros Hinv i e Hi. rewrite (vi_ptr _ _ _ Hinv), list_lookup_fmap in Hi.
  destruct (vn_T s !! i) as [Ti|] eqn:HTi; [|discriminate].
  simpl in Hi. injection Hi as Hi.
  apply (vi_ok _ _ _ Hinv i Ti HTi). apply current_elem_of, Hi.
Qed.

Lemma all_none_exhausted (T : list Kmer_Stream) :
  (forall i, (i < length T)%nat -> (current <$> T) !! i = Some None) ->
  Forall (fun r => r = []) (rems T).
Proof.
  intros H. apply Forall_forall. intros r Hr.
  apply list_elem_of_lookup in Hr as [i Hi]. unfold rems in Hi.
  rewrite list_lookup_fmap in Hi.
  destruct (T !! i) as [Ti|] eqn:HTi; [|discriminate].
  simpl in Hi. injection Hi as <-.
  specialize (H i (lookup_lt_Some _ _ _ HTi)).
  rewrite list_lookup_fmap, HTi in H. simpl in H. injection H as H.
  rewrite current_head in H. destruct (remaining Ti); [reflexivity | discriminate].
Qed.

Lemma Venn_body_spec kb n s :
  venn_inv kb n s ->
  (Forall (fun r => r = []) (rems (vn_T s)) /\ Venn_body kb n s = Done None) \/
  (exists m old,
     least_key kb (vn_ptr s) m /\
     1 <= bits (tied (vn_ptr s) m) <= 2 ^ Z.of_nat n - 1 /\
     vn_comb s !! Z.to_nat (bits (tied (vn_ptr s) m) - 1) = Some old /\
     Venn_body kb n s =
       Done (Some (mkVN (advance_all (tied (vn_ptr s) m) (vn_T s))
                        (current <$> advance_all (tied (vn_ptr s) m) (vn_T s))
                        (<[Z.to_nat (bits (tied (vn_ptr s) m) - 1) := old + 1]> (vn_comb s))
                        (vn_mem s)
                        (vn_log s ++ [mkEvN (bits (tied (vn_ptr s) m))
                                            (heads_of (vn_T s) (tied (vn_ptr s) m))])))).
Proof.
  intros Hinv. pose proof (inv_keys kb n s Hinv) as Hkeys.
  destruct Hinv as [Hlen Hsmall Hptr Hok Hcomb].
  destruct s as [T ptr comb mem log]. simpl in *.
  assert (Hplen : length ptr = n) by (rewrite Hptr, length_fmap; exact Hlen).
  unfold Venn_body.
  destruct (Venn_first_spec ptr n 0) as (c & Hfirst & Hrange & Hnone & Hsome);
    [lia|].
  rewrite Hfirst. simpl.
  destruct (Nat.leb_spec n c) as [Hge|Hlt].
  - left. split; [|reflexivity]. apply all_none_exhausted.
    intros i Hi. rewrite <- Hptr. apply Hnone. lia.
  - right. destruct Hsome as [e0 He0]; [lia|].
    assert (Htied0 : tied_upto ptr (ekey e0) (S c) = [c]).
    { simpl. rewrite tied_upto_none.
      - unfold at_key. rewrite He0.
        rewrite bool_decide_eq_true_2 by reflexivity. reflexivity.
      - intros i Hi. unfold at_key. rewrite (Hnone i) by lia. reflexivity. }
    destruct (Venn_scan_spec kb ptr Hkeys (n - S c) (S c) c e0)
      as (imin & pm & Hscan & Hmin & Hle); [lia | exact He0 | |].
    { intros i e Hi He. destruct (decide (i = c)) as [->|Hne].
      - rewrite He0 in He. injection He as <-.
        apply Z.eq_le_incl. apply (key_cmp_refl kb ptr Hkeys e0 c He0).
      - rewrite (Hnone i) in He by lia. discriminate. }
    rewrite Htied0 in Hscan. rewrite Hscan. simpl.
    set (m := ekey pm). set (ins := tied ptr m).
    assert (Hins : forall x, x ∈ ins -> (x < n)%nat).
    { intros x Hx. apply elem_of_tied_upto in Hx as [Hx _]. lia. }
    assert (Himin : imin ∈ ins).
    { apply elem_of_tied_upto. split; [eapply lookup_lt_Some, Hmin|].
      unfold at_key. rewrite Hmin. apply bool_decide_eq_true_2. reflexivity. }
    assert (Hv : 1 <= bits ins <= 2 ^ Z.of_nat n - 1).
    { apply bits_range; [exact Hsmall | | exact Hins].
      intros Hnil. rewrite Hnil in Himin. apply elem_of_nil in Himin. exact Himin. }
    destruct (lookup_lt_is_Some_2 comb (Z.to_nat (bits ins - 1))) as [old Hold];
      [lia|].
    exists m, old. split; [|split; [exact Hv | split; [exact Hold|]]].
    { split; [exists imin, pm; auto | exact Hle]. }
    rewrite Hptr at 1.
    rewrite Venn_advance_spec;
      [| apply tied_upto_NoDup | intros x Hx; rewrite Hlen; apply Hins, Hx].
    rewrite Z.lor_0_l. simpl. unfold ptr_bump.
    destruct (Z.leb_spec 0 (bits ins - 1)); [|lia].
    rewrite (rd_lookup _ _ _ Hold). simpl. reflexivity.
Qed.

Lemma elem_of_tied_current (T : list Kmer_Stream) m y :
  y ∈ tied (current <$> T) m <->
  exists Ty e, T !! y = Some Ty /\ head (remaining Ty) = Some e /\ ekey e = m.
Proof.
  unfold tied. rewrite elem_of_tied_upto. unfold at_key.
  rewrite list_lookup_fmap, length_fmap. split.
  - intros [Hlt Hat]. destruct (T !! y) as [Ty|] eqn:HTy; [|discriminate].
    simpl in Hat. destruct (current Ty) as [e|] eqn:Hcur; [|discriminate].
    apply bool_decide_eq_true_1 in Hat. exists Ty, e.
    rewrite <- current_head. auto.
  - intros (Ty & e & HTy & Hhead & Hkey). split; [eapply lookup_lt_Some, HTy|].
    rewrite HTy. simpl. rewrite current_head, Hhead.
    apply bool_decide_eq_true_2. exact Hkey.
Qed.

Lemma rems_advance_all (T : list Kmer_Stream) m :
  rems (advance_all (tied (current <$> T) m) T) = drop_min m <$> rems T.
Proof.
  apply list_eq. intros y. unfold rems.
  rewrite !list_lookup_fmap, advance_all_lookup by apply tied_upto_NoDup.
  destruct (T !! y) as [Ty|] eqn:HTy; [|reflexivity]. simpl. f_equal.
  destruct (decide (y ∈ tied (current <$> T) m)) as [Hy|Hy].
  - rewrite bool_decide_eq_true_2 by exact Hy. rewrite remaining_adv.
    apply elem_of_tied_current in Hy as (Ty' & e & HTy' & Hhead & Hkey).
    rewrite HTy in HTy'. injection HTy' as <-.
    destruct (remaining Ty) as [|e' r]; [discriminate|].
    simpl in Hhead. injection Hhead as ->. simpl.
    rewrite bool_decide_eq_true_2 by exact Hkey. reflexivity.
  - rewrite bool_decide_eq_false_2 by exact Hy.
    destruct (remaining Ty) as [|e' r] eqn:Hrem; [reflexivity|]. simpl.
    rewrite bool_decide_eq_false_2; [reflexivity|].
    intros Hkey. apply Hy. apply elem_of_tied_current.
    exists Ty, e'. rewrite Hrem. auto.
Qed.

Lemma venn_inv_step kb n s m old v used :
  venn_inv kb n s ->
  venn_inv kb n
    (mkVN (advance_all (tied (vn_ptr s) m) (vn_T s))
          (current <$> advance_all (tied (vn_ptr s) m) (vn_T s))
          (<[Z.to_nat (v - 1) := old + 1]> (vn_comb s))
          (vn_mem s) used).
Proof.
  intros [Hlen Hsmall Hptr Hok Hcomb]. split; simpl.
  - rewrite advance_all_length. exact Hlen.
  - exact Hsmall.
  - reflexivity.
  - intros x Tx Hx. rewrite advance_all_lookup in Hx by apply tied_upto_NoDup.
    destruct (vn_T s !! x) as [Tx0|] eqn:HTx; [|discriminate].
    simpl in Hx. injection Hx as <-.
    destruct (bool_decide _); [rewrite table_adv|]; eapply Hok, HTx.
  - rewrite length_insert. exact Hcomb.
Qed.

(* ===================================================================== *)
(** * The general merge as a sequence of steps on what is left *)
(* ===================================================================== *)

Lemma least_key_head kb (T : list Kmer_Stream) m :
  least_key kb (current <$> T) m <-> least_head kb (rems T) m.
Proof.
  unfold least_key, least_head, rems. split.
  - intros [(x & e & Hx & Hk) Hle]. split.
    + rewrite list_lookup_fmap in Hx.
      destruct (T !! x) as [Tx|] eqn:HTx; [|discriminate].
      simpl in Hx. injection Hx as Hx. exists (remaining Tx), e.
      split; [|rewrite <- current_head; auto].
      apply list_elem_of_fmap. exists Tx. split; [reflexivity|].
      eapply list_elem_of_lookup_2, HTx.
    + intros r e' Hr He. apply list_elem_of_fmap in Hr as (Tx & -> & HTx).
      apply list_elem_of_lookup in HTx as [x' HTx].
      apply (Hle x' e'). rewrite list_lookup_fmap, HTx. simpl.
      rewrite current_head. f_equal. exact He.
  - intros [(r & e & Hr & He & Hk) Hle]. split.
    + apply list_elem_of_fmap in Hr as (Tx & -> & HTx).
      apply list_elem_of_lookup in HTx as [x HTx].
      exists x, e. split; [|exact Hk].
      rewrite list_lookup_fmap, HTx. simpl. rewrite current_head. f_equal. exact He.
    + intros x' e' Hx. rewrite list_lookup_fmap in Hx.
      destruct (T !! x') as [Tx|] eqn:HTx; [|discriminate].
      simpl in Hx. injection Hx as Hx. apply (Hle (remaining Tx)).
      * apply list_elem_of_fmap. exists Tx. split; [reflexivity|].
        eapply list_elem_of_lookup_2, HTx.
      * rewrite <- current_head. exact Hx.
Qed.

Lemma heads_of_app T a b : heads_of T (a ++ b) = heads_of T a ++ heads_of T b.
Proof.
  induction a as [|x a IH]; [reflexivity|]. simpl. rewrite IH, app_assoc. reflexivity.
Qed.

Lemma heads_of_tied (T : list Kmer_Stream) m c :
  heads_of T (tied_upto (current <$> T) m c) = tied_heads (rems T) m c.
Proof.
  induction c as [|c IH]; [reflexivity|]. simpl.
  rewrite heads_of_app, IH. f_equal.
  unfold at_key, rems. rewrite !list_lookup_fmap.
  destruct (T !! c) as [Tc|] eqn:HTc; [|reflexivity]. simpl.
  rewrite current_head. destruct (remaining Tc) as [|e r] eqn:Hrem; [reflexivity|].
  simpl. destruct (bool_decide (ekey e = m)); [|reflexivity].
  simpl. rewrite HTc. simpl. rewrite current_head, Hrem. reflexivity.
Qed.

Lemma total_len_cons r R : total_len (r :: R) = (length r + total_len R)%nat.
Proof. reflexivity. Qed.

Lemma drop_min_length_le m r : (length (drop_min m r) <= length r)%nat.
Proof.
  destruct r as [|e r]; [reflexivity|]. simpl.
  destruct (bool_decide (ekey e = m)); simpl; lia.
Qed.

Lemma total_len_drop_min_le m R : (total_len (drop_min m <$> R) <= total_len R)%nat.
Proof.
  induction R as [|r R IH]; [reflexivity|].
  rewrite fmap_cons, !total_len_cons.
  pose proof (drop_min_length_le m r). lia.
Qed.

Lemma total_len_drop_min_lt m R r e :
  r ∈ R -> head r = Some e -> ekey e = m ->
  (total_len (drop_min m <$> R) < total_len R)%nat.
Proof.
  intros Hr He Hkey. induction R as [|r0 R IH];
    [apply elem_of_nil in Hr; contradiction|].
  rewrite fmap_cons, !total_len_cons.
  apply elem_of_cons in Hr as [<-|Hr].
  - pose proof (total_len_drop_min_le m R).
    destruct r as [|e' r']; [discriminate|].
    simpl in He. injection He as ->. simpl.
    rewrite bool_decide_eq_true_2 by exact Hkey. lia.
  - specialize (IH Hr). pose proof (drop_min_length_le m r0). lia.
Qed.

Section StepSets.

Variable kb : Z.
Variable R : list (list Entry).
Variable m : list Z.
Hypothesis Hsorted : forall r, r ∈ R -> sorted_keys kb r.
Hypothesis Hleast : least_head kb R m.

Lemma least_head_length : length m = Z.to_nat kb.
Proof.
  destruct Hleast as [(r & e & Hr & He & <-) _].
  apply (Hsorted r Hr). apply head_Some_elem_of, He.
Qed.

Lemma drop_min_facts r :
  r ∈ R ->
  (m ∉ keys_of (drop_min m r)) /\
  (forall k, k <> m -> (k ∈ keys_of r <-> k ∈ keys_of (drop_min m r))) /\
  (m ∈ keys_of r <-> exists e, head r = Some e /\ ekey e = m).
Proof.
  intros Hr. apply (keys_of_drop_min kb m least_head_length r (Hsorted r Hr)).
  intros e He. apply (proj2 Hleast r e Hr He).
Qed.

Lemma all_keys_step :
  all_keys R = {[m]} ∪ all_keys (drop_min m <$> R) /\
  m ∉ all_keys (drop_min m <$> R).
Proof.
  split.
  - apply set_eq. intros k.
    rewrite elem_of_union, elem_of_singleton, !elem_of_all_keys. split.
    + intros (r & Hr & Hk). destruct (decide (k = m)) as [->|Hne]; [auto|].
      right. exists (drop_min m r). split.
      * apply list_elem_of_fmap. eauto.
      * apply (proj1 (proj2 (drop_min_facts r Hr)) k Hne). exact Hk.
    + intros [-> | (r' & Hr' & Hk)].
      * destruct Hleast as [(r & e & Hr & He & Hkey) _].
        exists r. split; [exact Hr|].
        apply (proj2 (proj2 (drop_min_facts r Hr))). eauto.
      * apply list_elem_of_fmap in Hr' as (r & -> & Hr).
        exists r. split; [exact Hr|].
        destruct (decide (k = m)) as [->|Hne].
        -- destruct (proj1 (drop_min_facts r Hr) Hk).
        -- apply (proj1 (proj2 (drop_min_facts r Hr)) k Hne). exact Hk.
  - rewrite elem_of_all_keys. intros (r' & Hr' & Hk).
    apply list_elem_of_fmap in Hr' as (r & -> & Hr).
    apply (proj1 (drop_min_facts r Hr) Hk).
Qed.

Lemma member_mask_step k x :
  k <> m -> member_mask k R x = member_mask k (drop_min m <$> R) x.
Proof.
  intros Hne. apply member_mask_ext; [rewrite length_fmap; reflexivity|].
  intros j r r' Hj Hj'. rewrite list_lookup_fmap, Hj in Hj'.
  simpl in Hj'. injection Hj' as <-.
  apply (proj1 (proj2 (drop_min_facts r (list_elem_of_lookup_2 _ _ _ Hj))) k Hne).
Qed.

Lemma keys_with_mask_step v :
  size (keys_with_mask v R) =
    ((if decide (v = member_mask m R 0) then 1 else 0) +
     size (keys_with_mask v (drop_min m <$> R)))%nat.
Proof.
  destruct all_keys_step as [Hall Hnot].
  assert (Hsplit : keys_with_mask v R =
            (if decide (v = member_mask m R 0) then {[m]} else ∅) ∪
            keys_with_mask v (drop_min m <$> R)).
  { apply set_eq. intros k. unfold keys_with_mask.
    rewrite elem_of_union, !elem_of_filter, Hall, elem_of_union, elem_of_singleton.
    split.
    - intros [Hv [-> | Hk]].
      + left. rewrite decide_True by auto. apply elem_of_singleton. reflexivity.
      + right. split; [|exact Hk]. rewrite <- member_mask_step; [exact Hv|].
        intros ->. contradiction.
    - intros [Hk | [Hv Hk]].
      + destruct (decide (v = member_mask m R 0)) as [Hv|Hv].
        * apply elem_of_singleton in Hk as ->. auto.
        * apply elem_of_empty in Hk. contradiction.
      + split; [|auto]. rewrite member_mask_step; [exact Hv|].
        intros ->. contradiction. }
  rewrite Hsplit, size_union.
  - destruct (decide (v = member_mask m R 0)).
    + rewrite size_singleton. reflexivity.
    + rewrite size_empty. reflexivity.
  - intros k Hk1 Hk2. unfold keys_with_mask in Hk2.
    apply elem_of_filter in Hk2 as [_ Hk2].
    destruct (decide (v = member_mask m R 0)).
    + apply elem_of_singleton in Hk1 as ->. contradiction.
    + apply elem_of_empty in Hk1. contradiction.
Qed.

Lemma total_len_step : (total_len (drop_min m <$> R) < total_len R)%nat.
Proof.
  destruct Hleast as [(r & e & Hr & He & Hkey) _].
  eapply total_len_drop_min_lt; eassumption.
Qed.

End StepSets.

Lemma bits_member_mask kb (T : list Kmer_Stream) m :
  (length T <= 30)%nat ->
  (forall r, r ∈ rems T -> sorted_keys kb r) ->
  least_head kb (rems T) m ->
  bits (tied (current <$> T) m) = member_mask m (rems T) 0.
Proof.
  intros Hlen Hsorted Hleast. apply Z.bits_inj'. intros i Hi.
  assert (H30 : forall x, x ∈ tied (current <$> T) m -> (x <= 30)%nat).
  { intros x Hx. apply elem_of_tied_upto in Hx as [Hx _].
    rewrite length_fmap in Hx. lia. }
  apply eq_iff_eq_true.
  rewrite bits_testbit by auto.
  rewrite bool_decide_eq_true, elem_of_tied_current, member_mask_testbit by exact Hi.
  split.
  - intros (Ty & e & HTy & Hhead & Hkey).
    exists (Z.to_nat i), (remaining Ty). split; [lia|].
    assert (Hr : rems T !! Z.to_nat i = Some (remaining Ty)).
    { unfold rems. rewrite list_lookup_fmap, HTy. reflexivity. }
    split; [exact Hr|].
    apply (drop_min_facts kb (rems T) m Hsorted Hleast _
             (list_elem_of_lookup_2 _ _ _ Hr)). eauto.
  - intros (j & r & -> & Hj & Hk).
    apply (drop_min_facts kb (rems T) m Hsorted Hleast _
             (list_elem_of_lookup_2 _ _ _ Hj)) in Hk as (e & He & Hkey).
    unfold rems in Hj. rewrite list_lookup_fmap in Hj.
    replace (Z.to_nat (Z.of_nat (0 + j))) with j by lia.
    destruct (T !! j) as [Tj|]; [|discriminate].
    simpl in Hj. injection Hj as <-. exists Tj, e. auto.
Qed.

Lemma all_keys_exhausted R : Forall (fun r => r = []) R -> all_keys R = ∅.
Proof.
  intros H. apply set_eq. intros k. rewrite elem_of_all_keys. split.
  - intros (r & Hr & Hk). rewrite Forall_forall in H. rewrite (H r Hr) in Hk.
    apply elem_of_keys_of in Hk as (e & He & _). apply elem_of_nil in He. contradiction.
  - intros Hk. apply elem_of_empty in Hk. contradiction.
Qed.

Lemma keys_with_mask_exhausted v R :
  Forall (fun r => r = []) R -> size (keys_with_mask v R) = 0%nat.
Proof.
  intros H. unfold keys_with_mask. rewrite (all_keys_exhausted R H).
  apply size_empty_iff. apply set_equiv. intros k.
  rewrite elem_of_filter. split; [intros [_ Hk]; exact Hk|].
  intros Hk. apply elem_of_empty in Hk. contradiction.
Qed.

Lemma inv_rems_sorted kb n s :
  venn_inv kb n s -> forall r, r ∈ rems (vn_T s) -> sorted_keys kb r.
Proof.
  intros Hinv r Hr. apply list_elem_of_fmap in Hr as (Tx & -> & HTx).
  apply list_elem_of_lookup in HTx as [x HTx].
  apply remaining_sorted. eapply (vi_ok _ _ _ Hinv), HTx.
Qed.

(** The loop of [Venn], run from any well-formed state on a budget larger
    than the number of entries still to come. *)
Lemma Venn_loop_spec kb n : forall fuel s,
  venn_inv kb n s ->
  (total_len (rems (vn_T s)) < fuel)%nat ->
  exists s' L,
    Venn_loop kb n fuel s = Done s' /\
    venn_inv kb n s' /\
    Forall (fun r => r = []) (rems (vn_T s')) /\
    table <$> vn_T s' = table <$> vn_T s /\
    vn_mem s' = vn_mem s /\
    vn_log s' = vn_log s ++ L /\
    steps_ok kb (rems (vn_T s)) L /\
    (forall j c, vn_comb s !! j = Some c ->
       vn_comb s' !! j =
         Some (c + Z.of_nat (size (keys_with_mask (Z.of_nat j + 1) (rems (vn_T s)))))).
Proof.
  induction fuel as [|fuel IH]; intros s Hinv Hfuel; [lia|].
  simpl. destruct (Venn_body_spec kb n s Hinv)
    as [[Hdone Hbody] | (m & old & Hleast & Hv & Hold & Hbody)]; rewrite Hbody; simpl.
  - exists s, []. split; [reflexivity|]. split; [exact Hinv|].
    split; [exact Hdone|]. split; [reflexivity|]. split; [reflexivity|].
    split; [rewrite app_nil_r; reflexivity|]. split; [exact Hdone|].
    intros j c Hj. rewrite keys_with_mask_exhausted by exact Hdone.
    rewrite Hj. f_equal. lia.
  - set (ins := tied (vn_ptr s) m) in *. set (v := bits ins) in *.
    pose proof (venn_inv_step kb n s m old v
                  (vn_log s ++ [mkEvN v (heads_of (vn_T s) ins)]) Hinv) as Hinv1.
    fold ins in Hinv1.
    pose proof (inv_rems_sorted kb n s Hinv) as Hsorted.
    assert (Hrems : rems (advance_all ins (vn_T s)) = drop_min m <$> rems (vn_T s)).
    { unfold ins. rewrite (vi_ptr _ _ _ Hinv). apply rems_advance_all. }
    assert (Hleast' : least_head kb (rems (vn_T s)) m).
    { apply least_key_head. rewrite <- (vi_ptr _ _ _ Hinv). exact Hleast. }
    assert (Hmask : v = member_mask m (rems (vn_T s)) 0).
    { unfold v, ins. rewrite (vi_ptr _ _ _ Hinv).
      apply (bits_member_mask kb); auto.
      rewrite (vi_len _ _ _ Hinv). apply (vi_small _ _ _ Hinv). }
    destruct (IH _ Hinv1) as (s' & L & Hloop & Hinv' & Hex & Htab & Hmem & Hlog & Hsteps & Hcomb).
    { simpl. rewrite Hrems. eapply Nat.lt_le_trans;
        [apply (total_len_step kb _ m Hleast') | lia]. }
    simpl in *. exists s', (mkEvN v (heads_of (vn_T s) ins) :: L).
    split; [exact Hloop|]. split; [exact Hinv'|]. split; [exact Hex|].
    split.
    { rewrite Htab. apply list_eq. intros y.
      rewrite !list_lookup_fmap, advance_all_lookup by apply tied_upto_NoDup.
      destruct (vn_T s !! y); [|reflexivity]. simpl.
      destruct (bool_decide _); reflexivity. }
    split; [exact Hmem|].
    split; [rewrite Hlog, <- app_assoc; reflexivity|].
    split.
    { simpl. exists m. split; [exact Hleast'|]. split; [exact Hmask|].
      split; [|rewrite <- Hrems; exact Hsteps].
      unfold ins, tied. rewrite (vi_ptr _ _ _ Hinv), heads_of_tied.
      unfold rems. rewrite !length_fmap. reflexivity. }
    intros j c Hj.
    rewrite (keys_with_mask_step kb _ m Hsorted Hleast').
    rewrite <- Hrems, <- Hmask.
    destruct (decide (j = Z.to_nat (v - 1))) as [->|Hne].
    + rewrite Hold in Hj. injection Hj as <-.
      rewrite (Hcomb (Z.to_nat (v - 1)) (old + 1)).
      2:{ apply list_lookup_insert_eq. eapply lookup_lt_Some, Hold. }
      rewrite decide_True by lia. f_equal. lia.
    + rewrite (Hcomb j c) by (rewrite list_lookup_insert_ne; auto).
      rewrite decide_False by lia. f_equal.
Qed.

(* ===================================================================== *)
(** * The general merge: the whole run *)
(* ===================================================================== *)

Lemma first_in_spec Tv x Tx :
  Tv !! x = Some Tx ->
  first_in Tv x = Done (<[x := rewind Tx]> Tv, current (rewind Tx)).
Proof.
  intros H. unfold first_in. rewrite (rd_lookup _ _ _ H). reflexivity.
Qed.

Lemma remaining_rewind T : remaining (rewind T) = table T.
Proof. reflexivity. Qed.

Lemma Venn_init_spec k : forall c (T : list Kmer_Stream) ptr,
  (c + k)%nat = length T -> length ptr = length T ->
  exists T' ptr',
    Venn_init T ptr c k = Done (T', ptr') /\
    length T' = length T /\ length ptr' = length T /\
    (forall i, T' !! i = (if decide (c <= i)%nat then rewind else id) <$> T !! i) /\
    (forall i, (c <= i)%nat -> ptr' !! i = current <$> T' !! i) /\
    (forall i, (i < c)%nat -> ptr' !! i = ptr !! i).
Proof.
  induction k as [|k IH]; intros c T ptr Hlen Hplen; simpl.
  - exists T, ptr. split; [reflexivity|]. split; [reflexivity|].
    split; [exact Hplen|]. split; [|split].
    + intros i. destruct (T !! i) as [Ti|] eqn:HTi; [|reflexivity].
      apply lookup_lt_Some in HTi. rewrite decide_False by lia. reflexivity.
    + intros i Hi. rewrite !lookup_ge_None_2 by lia. reflexivity.
    + reflexivity.
  - destruct (lookup_lt_is_Some_2 T c) as [Tc HTc]; [lia|].
    rewrite (first_in_spec T c Tc HTc). simpl.
    rewrite wr_inside by lia. simpl.
    destruct (IH (S c) (<[c := rewind Tc]> T) (<[c := current (rewind Tc)]> ptr))
      as (T' & ptr' & Hinit & HlenT & Hlenp & HT & Hp & Hold).
    { rewrite length_insert. lia. }
    { rewrite !length_insert. exact Hplen. }
    rewrite length_insert in HlenT, Hlenp.
    exists T', ptr'. split; [exact Hinit|]. split; [exact HlenT|].
    split; [exact Hlenp|]. split; [|split].
    + intros i. rewrite HT. destruct (decide (c = i)) as [<-|Hne].
      * rewrite list_lookup_insert_eq by lia. rewrite HTc. simpl.
        rewrite decide_False by lia. rewrite decide_True by lia. reflexivity.
      * rewrite list_lookup_insert_ne by exact Hne.
        destruct (T !! i); [|reflexivity]. simpl.
        destruct (decide (S c <= i)%nat), (decide (c <= i)%nat); try reflexivity; lia.
    + intros i Hi. destruct (decide (c = i)) as [<-|Hne].
      * rewrite Hold by lia. rewrite list_lookup_insert_eq by lia.
        rewrite HT, list_lookup_insert_eq by lia. simpl.
        rewrite decide_False by lia. reflexivity.
      * apply Hp. lia.
    + intros i Hi. rewrite Hold by lia. apply list_lookup_insert_ne. lia.
Qed.

Lemma total_entries_len (T : list Kmer_Stream) :
  total_entries T = total_len (table <$> T).
Proof. induction T as [|Tx T IH]; [reflexivity|]. simpl. rewrite IH. reflexivity. Qed.

(** [Venn] on sorted tables: it returns, with every stream used up, the
    counter block untouched, a log that records a complete merge of the
    tables, and each base pointer moved on by the number of distinct keys
    that have its mask. *)
Lemma Venn_spec (T : list Kmer_Stream) (comb : list Z) (nway : nat) (mem : list Z)
  (T0 : Kmer_Stream) :
  (nway <= 30)%nat -> length T = nway -> T !! 0%nat = Some T0 ->
  (forall Tx, Tx ∈ T -> table_ok (kbyte T0) (table Tx) = true) ->
  Z.of_nat (length comb) = 2 ^ Z.of_nat nway - 1 ->
  exists s,
    Venn T comb nway mem = Done s /\
    vn_mem s = mem /\
    table <$> vn_T s = table <$> T /\
    Forall (fun r => r = []) (rems (vn_T s)) /\
    steps_ok (kbyte T0) (table <$> T) (vn_log s) /\
    length (vn_comb s) = length comb /\
    (forall j c, comb !! j = Some c ->
       vn_comb s !! j =
         Some (c + Z.of_nat (size (keys_with_mask (Z.of_nat j + 1) (table <$> T))))).
Proof.
  intros Hsmall Hlen HT0 Hok Hcomb. unfold Venn.
  rewrite (rd_lookup _ _ _ HT0). simpl.
  destruct (Venn_init_spec nway 0 T (replicate nway None))
    as (T1 & ptr & Hinit & HlenT & Hlenp & HT & Hp & _);
    [lia | rewrite length_replicate; lia |].
  rewrite Hinit. simpl.
  assert (HT1 : T1 = rewind <$> T).
  { apply list_eq. intros i. rewrite HT, list_lookup_fmap.
    destruct (decide (0 <= i)%nat); [reflexivity | lia]. }
  assert (Hptr : ptr = current <$> T1).
  { apply list_eq. intros i. rewrite Hp by lia. rewrite list_lookup_fmap. reflexivity. }
  assert (Hrems : rems T1 = table <$> T).
  { rewrite HT1. unfold rems. rewrite <- list_fmap_compose. reflexivity. }
  assert (Hinv : venn_inv (kbyte T0) nway (mkVN T1 ptr comb mem [])).
  { split; simpl; auto; [lia|].
    intros x Tx Hx. rewrite HT1, list_lookup_fmap in Hx.
    destruct (T !! x) as [Tx0|] eqn:HTx; [|discriminate].
    simpl in Hx. injection Hx as <-. simpl.
    apply table_ok_sorted, Hok. eapply list_elem_of_lookup_2, HTx. }
  destruct (Venn_loop_spec (kbyte T0) nway (S (total_entries T)) _ Hinv)
    as (s & L & Hloop & Hinv' & Hex & Htab & Hmem & Hlog & Hsteps & Hc).
  { simpl. rewrite Hrems, total_entries_len. lia. }
  pose proof (vi_comb _ _ _ Hinv') as Hcomb'.
  simpl in *. exists s. split; [exact Hloop|]. split; [exact Hmem|].
  split.
  { rewrite Htab, HT1, <- list_fmap_compose. reflexivity. }
  split; [exact Hex|]. rewrite Hrems in Hsteps, Hc.
  split; [rewrite Hlog; exact Hsteps|]. split; [lia | exact Hc].
Qed.

(* ===================================================================== *)
(** * The 2-way merge *)
(* ===================================================================== *)

Lemma used_by_app x a b : used_by x (a ++ b) = used_by x a ++ used_by x b.
Proof. unfold used_by. rewrite filter_app, fmap_app. reflexivity. Qed.

Lemma events_used_app L1 L2 : events_used (L1 ++ L2) = events_used L1 ++ events_used L2.
Proof. unfold events_used. rewrite fmap_app, concat_app. reflexivity. Qed.

Lemma replay_app LOW HGH L1 L2 mem :
  replay LOW HGH (L1 ++ L2) mem = replay LOW HGH L1 mem ≫= replay LOW HGH L2.
Proof.
  revert mem. induction L1 as [|ev L1 IH]; intros mem; [reflexivity|]. simpl.
  destruct (hist_update LOW HGH (ev_hist ev) (ev_count ev) mem); simpl; auto.
Qed.

Lemma hist_update_result LOW HGH h c mem :
  match hist_update LOW HGH h c mem with
  | Done mem' => length mem' = length mem
  | Fault => ~ (LOW <= HGH /\ hist_inside LOW HGH (length mem) h)
  | Timeout => False
  end.
Proof.
  destruct (hist_update LOW HGH h c mem) as [mem'| |] eqn:Hupd.
  - destruct (Z_le_gt_dec LOW HGH) as [Hw|Hw].
    + destruct (hist_update_bin LOW HGH h c mem Hw) as (bin & _ & _ & Heq).
      rewrite Heq in Hupd. apply hist_add_done in Hupd.
      eapply incremented_at_length, Hupd.
    + unfold hist_update in Hupd.
      destruct (c <=? LOW); [|destruct (c >=? HGH)];
        apply hist_add_done in Hupd; eapply incremented_at_length, Hupd.
  - intros [Hw Hin].
    destruct (hist_update_bin LOW HGH h c mem Hw) as (bin & _ & Hbin & Heq).
    rewrite Heq in Hupd.
    destruct (hist_add_inside h bin mem (Hin bin Hbin)) as [mem' Hok].
    congruence.
  - unfold hist_update, hist_add, rd64, rd in Hupd.
    repeat match type of Hupd with
    | context [if ?b then _ else _] => destruct b
    | context [match ?o with Some _ => _ | None => _ end] => destruct o
    end; simpl in Hupd; discriminate.
Qed.

Lemma min_by_test (c d : Z) : (if c >? d then d else c) = Z.min c d.
Proof. destruct (Z.gtb_spec c d); lia. Qed.

Lemma remaining_cons_current T e r : remaining T = e :: r -> current T = Some e.
Proof. intros H. rewrite current_head, H. reflexivity. Qed.

Lemma remaining_nil_current T : remaining T = [] -> current T = None.
Proof. intros H. rewrite current_head, H. reflexivity. Qed.

Lemma sorted_head_lt kb e r e' :
  sorted_keys kb (e :: r) -> e' ∈ r -> mycmp (ekey e) (ekey e') kb < 0.
Proof. intros H. apply (sorted_keys_cons_inv _ _ _ H). Qed.

Section Venn2Loops.

Variables LOW HGH kb hA hB hI : Z.

(** The compare loop, run from a state in which [T] and [U] are the two
    streams of [Tv], on a budget larger than the number of entries still to
    come. *)
Lemma Venn2_merge_spec : forall fuel TA TB mem log,
  sorted_keys kb (table TA) -> sorted_keys kb (table TB) ->
  (length (remaining TA) + length (remaining TB) < fuel)%nat ->
  match Venn2_merge LOW HGH kb fuel
          (mkV2 [TA; TB] 0 1 hA hB hI (current TA) (current TB) mem log) with
  | Timeout => False
  | Fault =>
      ~ (LOW <= HGH /\ hist_inside LOW HGH (length mem) hA /\
         hist_inside LOW HGH (length mem) hB /\ hist_inside LOW HGH (length mem) hI)
  | Done s' =>
      exists TA' TB' L,
        v2_Tv s' = [TA'; TB'] /\ table TA' = table TA /\ table TB' = table TB /\
        v2_log s' = log ++ L /\
        Forall (fun ev => ev_phase ev = Compare) L /\
        replay LOW HGH L mem = Done (v2_mem s') /\
        length (v2_mem s') = length mem /\
        ((remaining TA' = [] /\ v2_T s' = 1%nat /\ v2_AminB s' = hB /\
          v2_iptr s' = current TB') \/
         (remaining TB' = [] /\ v2_T s' = 0%nat /\ v2_AminB s' = hA /\
          v2_iptr s' = current TA')) /\
        used_by 0 (events_used L) ++ remaining TA' = remaining TA /\
        used_by 1 (events_used L) ++ remaining TB' = remaining TB /\
        (forall ea eb, ea ∈ remaining TA -> eb ∈ remaining TB -> ekey ea = ekey eb ->
           mkEv Compare hI (Z.min (ecount ea) (ecount eb)) [(0%nat, ea); (1%nat, eb)] ∈ L)
  end.
Proof.
  induction fuel as [|fuel IH]; intros TA TB mem log HsA HsB Hfuel; [lia|].
  pose proof (remaining_sorted kb TA HsA) as HrA.
  pose proof (remaining_sorted kb TB HsB) as HrB.
  simpl.
  destruct (remaining TA) as [|a ra] eqn:HremA.
  { rewrite (remaining_nil_current TA HremA). simpl.
    exists TA, TB, []. rewrite app_nil_r, HremA. simpl.
    do 4 (split; [reflexivity|]). split; [constructor|].
    do 2 (split; [reflexivity|]). split; [left; auto|].
    do 2 (split; [reflexivity|]).
    intros ea eb Hea. apply elem_of_nil in Hea. contradiction. }
  pose proof (remaining_cons_current TA a ra HremA) as HcA. rewrite HcA.
  destruct (remaining TB) as [|b rb] eqn:HremB.
  { rewrite (remaining_nil_current TB HremB). simpl.
    exists TA, TB, []. rewrite app_nil_r, HremA, HremB. simpl.
    do 4 (split; [reflexivity|]). split; [constructor|].
    do 2 (split; [reflexivity|]). split; [right; auto|].
    do 2 (split; [reflexivity|]).
    intros ea eb _ Heb. apply elem_of_nil in Heb. contradiction. }
  rewrite (remaining_cons_current TB b rb HremB).
  destruct (sorted_keys_cons_inv _ _ _ HrA) as (HlenA & _ & HltA).
  destruct (sorted_keys_cons_inv _ _ _ HrB) as (HlenB & _ & HltB).
  assert (HadvA : remaining (adv TA) = ra) by (rewrite remaining_adv, HremA; reflexivity).
  assert (HadvB : remaining (adv TB) = rb) by (rewrite remaining_adv, HremB; reflexivity).
  unfold next_in. simpl. unfold COUNT_OF. rewrite min_by_test.
  fold (adv TA). fold (adv TB).
  destruct (Z.eqb_spec (mycmp (ekey a) (ekey b) kb) 0) as [Hz|Hnz].
  - apply mycmp_loop_zero in Hz; [|assumption..].
    pose proof (hist_update_result LOW HGH hI (Z.min (ecount a) (ecount b)) mem) as Hupd.
    destruct (hist_update LOW HGH hI (Z.min (ecount a) (ecount b)) mem)
      as [mem'| |] eqn:Hu; simpl; [|tauto|contradiction].
    specialize (IH (adv TA) (adv TB) mem'
                  (log ++ [mkEv Compare hI (Z.min (ecount a) (ecount b))
                             [(0%nat, a); (1%nat, b)]]) HsA HsB).
    rewrite HadvA, HadvB in IH. specialize (IH ltac:(simpl in Hfuel; lia)).
    destruct (Venn2_merge _ _ _ fuel _) as [s'| |]; [|rewrite <- Hupd; exact IH|exact IH].
    destruct IH as (TA' & TB' & L & HTv & HtA & HtB & Hlog & Hph & Hrep & Hlen & Hend
                    & HuA & HuB & Hinter).
    exists TA', TB', (mkEv Compare hI (Z.min (ecount a) (ecount b))
                        [(0%nat, a); (1%nat, b)] :: L).
    split; [exact HTv|]. split; [exact HtA|]. split; [exact HtB|].
    split; [rewrite Hlog, <- app_assoc; reflexivity|].
    split; [constructor; [reflexivity | exact Hph]|].
    split; [simpl; rewrite Hu; exact Hrep|].
    split; [congruence|]. split; [exact Hend|].
    split; [simpl; rewrite <- HuA; reflexivity|].
    split; [simpl; rewrite <- HuB; reflexivity|].
    intros ea eb Hea Heb Hkey.
    apply elem_of_cons in Hea as [->|Hea]; apply elem_of_cons in Heb as [->|Heb].
    + apply elem_of_cons. auto.
    + exfalso. specialize (HltB eb Heb). rewrite <- Hkey, Hz in HltB.
      exact (cmp_lt_ne kb _ _ HlenB HltB eq_refl).
    + exfalso. specialize (HltA ea Hea). rewrite Hkey, <- Hz in HltA.
      exact (cmp_lt_ne kb _ _ HlenA HltA eq_refl).
    + apply elem_of_cons. right. apply Hinter; auto.
  - destruct (Z.ltb_spec (mycmp (ekey a) (ekey b) kb) 0) as [Hlt|Hge].
    + pose proof (hist_update_result LOW HGH hA (ecount a) mem) as Hupd.
      destruct (hist_update LOW HGH hA (ecount a) mem)
        as [mem'| |] eqn:Hu; simpl; [|tauto|contradiction].
      specialize (IH (adv TA) TB mem'
                    (log ++ [mkEv Compare hA (ecount a) [(0%nat, a)]]) HsA HsB).
      rewrite HadvA, HremB in IH. specialize (IH ltac:(simpl in Hfuel |- *; lia)).
      rewrite (remaining_cons_current TB b rb HremB) in IH.
      destruct (Venn2_merge _ _ _ fuel _) as [s'| |];
        [|rewrite <- Hupd; exact IH|exact IH].
      destruct IH as (TA' & TB' & L & HTv & HtA & HtB & Hlog & Hph & Hrep & Hlen & Hend
                      & HuA & HuB & Hinter).
      exists TA', TB', (mkEv Compare hA (ecount a) [(0%nat, a)] :: L).
      split; [exact HTv|]. split; [exact HtA|]. split; [exact HtB|].
      split; [rewrite Hlog, <- app_assoc; reflexivity|].
      split; [constructor; [reflexivity | exact Hph]|].
      split; [simpl; rewrite Hu; exact Hrep|].
      split; [congruence|]. split; [exact Hend|].
      split; [simpl; rewrite <- HuA; reflexivity|].
      split; [simpl; exact HuB|].
      intros ea eb Hea Heb Hkey. apply elem_of_cons. right.
      apply elem_of_cons in Hea as [->|Hea]; [|apply Hinter; auto].
      exfalso. apply elem_of_cons in Heb as [->|Heb].
      * exact (cmp_lt_ne kb _ _ HlenA Hlt Hkey).
      * specialize (HltB eb Heb).
        assert (mycmp (ekey a) (ekey eb) kb < 0) as Hbad.
        { unfold mycmp in *.
          apply (mycmp_loop_trans _ (ekey b)); auto.
          apply (proj1 HrB). apply elem_of_cons. auto. }
        exact (cmp_lt_ne kb _ _ HlenA Hbad Hkey).
    + assert (Hgt : mycmp (ekey b) (ekey a) kb < 0).
      { unfold mycmp in *. rewrite mycmp_loop_flip. lia. }
      pose proof (hist_update_result LOW HGH hB (ecount b) mem) as Hupd.
      destruct (hist_update LOW HGH hB (ecount b) mem)
        as [mem'| |] eqn:Hu; simpl; [|tauto|contradiction].
      specialize (IH TA (adv TB) mem'
                    (log ++ [mkEv Compare hB (ecount b) [(1%nat, b)]]) HsA HsB).
      rewrite HadvB, HremA in IH. specialize (IH ltac:(simpl in Hfuel |- *; lia)).
      rewrite (remaining_cons_current TA a ra HremA) in IH.
      destruct (Venn2_merge _ _ _ fuel _) as [s'| |];
        [|rewrite <- Hupd; exact IH|exact IH].
      destruct IH as (TA' & TB' & L & HTv & HtA & HtB & Hlog & Hph & Hrep & Hlen & Hend
                      & HuA & HuB & Hinter).
      exists TA', TB', (mkEv Compare hB (ecount b) [(1%nat, b)] :: L).
      split; [exact HTv|]. split; [exact HtA|]. split; [exact HtB|].
      split; [rewrite Hlog, <- app_assoc; reflexivity|].
      split; [constructor; [reflexivity | exact Hph]|].
      split; [simpl; rewrite Hu; exact Hrep|].
      split; [congruence|]. split; [exact Hend|].
      split; [simpl; exact HuA|].
      split; [simpl; rewrite <- HuB; reflexivity|].
      intros ea eb Hea Heb Hkey. apply elem_of_cons. right.
      apply elem_of_cons in Heb as [->|Heb]; [|apply Hinter; auto].
      exfalso. apply elem_of_cons in Hea as [->|Hea].
      * exact (cmp_lt_ne kb _ _ HlenB Hgt (eq_sym Hkey)).
      * specialize (HltA ea Hea).
        assert (mycmp (ekey b) (ekey ea) kb < 0) as Hbad.
        { unfold mycmp in *.
          apply (mycmp_loop_trans _ (ekey a)); auto.
          apply (proj1 HrA). apply elem_of_cons. auto. }
        exact (cmp_lt_ne kb _ _ HlenB Hbad (eq_sym Hkey)).
Qed.

End Venn2Loops.

Lemma drain_events_used h T r x :
  used_by x (events_used (drain_events h T r)) = if decide (T = x) then r else [].
Proof.
  induction r as [|e r IH]; [destruct (decide (T = x)); reflexivity|].
  unfold drain_events, events_used in *. rewrite !fmap_cons, concat_cons.
  rewrite used_by_app, IH. unfold used_by. simpl.
  rewrite filter_cons, filter_nil. simpl.
  destruct (decide (T = x)); reflexivity.
Qed.

Lemma drain_events_phase h T r : Forall (fun ev => ev_phase ev = Drain) (drain_events h T r).
Proof. apply Forall_fmap, Forall_forall. reflexivity. Qed.

(** The drain loop, run on a budget larger than the number of entries left
    in the stream [T] points to. *)
Lemma Venn2_drain_spec LOW HGH : forall fuel Tv T U hA hB hI jptr mem log TT,
  Tv !! T = Some TT ->
  (length (remaining TT) < fuel)%nat ->
  match Venn2_drain LOW HGH fuel (mkV2 Tv T U hA hB hI (current TT) jptr mem log) with
  | Timeout => False
  | Fault => ~ (LOW <= HGH /\ hist_inside LOW HGH (length mem) hA)
  | Done s' =>
      exists TT',
        v2_Tv s' = <[T := TT']> Tv /\ table TT' = table TT /\ remaining TT' = [] /\
        v2_log s' = log ++ drain_events hA T (remaining TT) /\
        replay LOW HGH (drain_events hA T (remaining TT)) mem = Done (v2_mem s') /\
        length (v2_mem s') = length mem
  end.
Proof.
  induction fuel as [|fuel IH]; intros Tv T U hA hB hI jptr mem log TT HTT Hfuel; [lia|].
  simpl. destruct (remaining TT) as [|e r] eqn:Hrem.
  - rewrite (remaining_nil_current TT Hrem). simpl.
    exists TT. rewrite list_insert_id by exact HTT. rewrite app_nil_r.
    repeat split; auto.
  - rewrite (remaining_cons_current TT e r Hrem).
    rewrite (next_in_spec Tv T TT HTT). simpl. unfold COUNT_OF.
    pose proof (hist_update_result LOW HGH hA (ecount e) mem) as Hupd.
    destruct (hist_update LOW HGH hA (ecount e) mem) as [mem'| |] eqn:Hu; simpl;
      [|exact Hupd|contradiction].
    assert (Hadv : remaining (adv TT) = r) by (rewrite remaining_adv, Hrem; reflexivity).
    specialize (IH (alter adv T Tv) T U hA hB hI jptr mem'
                  (log ++ [mkEv Drain hA (ecount e) [(T, e)]]) (adv TT)).
    rewrite list_lookup_alter_eq, HTT, Hadv in IH.
    specialize (IH eq_refl ltac:(simpl in Hfuel; lia)).
    destruct (Venn2_drain _ _ fuel _) as [s'| |]; [|rewrite <- Hupd; exact IH|exact IH].
    destruct IH as (TT' & HTv & Htab & Hrem' & Hlog & Hrep & Hlen).
    exists TT'. split.
    { rewrite HTv. apply list_eq. intros i.
      destruct (decide (T = i)) as [->|Hne].
      - rewrite !list_lookup_insert_eq; auto.
        + eapply lookup_lt_Some, HTT.
        + rewrite length_alter. eapply lookup_lt_Some, HTT.
      - rewrite !list_lookup_insert_ne, list_lookup_alter_ne by exact Hne. reflexivity. }
    split; [exact Htab|]. split; [exact Hrem'|].
    split; [rewrite Hlog, <- app_assoc; reflexivity|].
    split; [exact Hrep | congruence].
Qed.

Local Opaque Venn2_merge Venn2_drain.

Lemma Venn2_spec (LOW HGH : Z) (A B : Kmer_Stream) (comb mem : list Z) (hA hB hI : Z) :
  sorted_keys (kbyte A) (table A) -> sorted_keys (kbyte A) (table B) ->
  comb !! 0%nat = Some hA -> comb !! 1%nat = Some hB -> comb !! 2%nat = Some hI ->
  match Venn2 LOW HGH [A; B] comb mem with
  | Timeout => False
  | Fault =>
      ~ (LOW <= HGH /\ hist_inside LOW HGH (length mem) hA /\
         hist_inside LOW HGH (length mem) hB /\ hist_inside LOW HGH (length mem) hI)
  | Done s => venn2_post LOW HGH A B hI mem s
  end.
Proof.
  intros HsA HsB HcA HcB HcI. unfold Venn2, Venn2_start. simpl.
  rewrite (rd_lookup _ _ _ HcA), (rd_lookup _ _ _ HcB), (rd_lookup _ _ _ HcI). simpl.
  fold (rewind A). fold (rewind B).
  pose proof (Venn2_merge_spec LOW HGH (kbyte A) hA hB hI
                (S (length (table A) + (length (table B) + 0)))
                (rewind A) (rewind B) mem [] HsA HsB) as Hmerge.
  rewrite !remaining_rewind in Hmerge. specialize (Hmerge ltac:(lia)).
  destruct (Venn2_merge _ _ _ _ _) as [s1| |]; simpl; [|exact Hmerge|exact Hmerge].
  destruct Hmerge as (TA' & TB' & Lc & HTv & HtA & HtB & Hlog & Hph & Hrep & Hlen & Hend
                      & HuA & HuB & Hinter).
  destruct s1 as [Tv1 T1 U1 a1 b1 i1 ip1 jp1 mem1 log1]. simpl in *. subst Tv1 log1.
  assert (HlA : (length (remaining TA') <= length (table A))%nat).
  { rewrite <- HuA, length_app. lia. }
  assert (HlB : (length (remaining TB') <= length (table B))%nat).
  { rewrite <- HuB, length_app. lia. }
  destruct Hend as [(HremA & -> & -> & ->) | (HremB & -> & -> & ->)].
  - pose proof (Venn2_drain_spec LOW HGH
                  (S (length (table A) + (length (table B) + 0)))
                  [TA'; TB'] 1 U1 hB b1 i1 jp1 mem1 Lc TB' eq_refl ltac:(lia)) as Hdrain.
    destruct (Venn2_drain _ _ _ _) as [s2| |]; [|rewrite <- Hlen; tauto|exact Hdrain].
    destruct Hdrain as (TB2 & HTv2 & HtB2 & HremB2 & Hlog2 & Hrep2 & Hlen2).
    exists TA', TB2, Lc, (drain_events hB 1 (remaining TB')).
    split; [exact HTv2|]. split; [exact HtA|]. split; [congruence|].
    split; [exact HremA|]. split; [exact HremB2|]. split; [exact Hlog2|].
    split; [exact Hph|]. split; [apply drain_events_phase|].
    split; [rewrite replay_app, Hrep; exact Hrep2|]. split; [congruence|].
    rewrite !drain_events_used. simpl.
    split; [rewrite app_nil_r, <- HuA, HremA, app_nil_r; reflexivity|].
    split; [exact HuB|]. split; [left; reflexivity | exact Hinter].
  - pose proof (Venn2_drain_spec LOW HGH
                  (S (length (table A) + (length (table B) + 0)))
                  [TA'; TB'] 0 U1 hA b1 i1 jp1 mem1 Lc TA' eq_refl ltac:(lia)) as Hdrain.
    destruct (Venn2_drain _ _ _ _) as [s2| |]; [|rewrite <- Hlen; tauto|exact Hdrain].
    destruct Hdrain as (TA2 & HTv2 & HtA2 & HremA2 & Hlog2 & Hrep2 & Hlen2).
    exists TA2, TB', Lc, (drain_events hA 0 (remaining TA')).
    split; [exact HTv2|]. split; [congruence|]. split; [exact HtB|].
    split; [exact HremA2|]. split; [exact HremB|]. split; [exact Hlog2|].
    split; [exact Hph|]. split; [apply drain_events_phase|].
    split; [rewrite replay_app, Hrep; exact Hrep2|]. split; [congruence|].
    rewrite !drain_events_used. simpl.
    split; [exact HuA|].
    split; [rewrite app_nil_r, <- HuB, HremB, app_nil_r; reflexivity|].
    split; [right; reflexivity | exact Hinter].
Qed.

Local Transparent Venn2_merge Venn2_drain.

(* ===================================================================== *)
(** * Consumption of the entries *)
(* ===================================================================== *)




Lemma Venn_body_mem kb n s s' :
  Venn_body kb n s = Done (Some s') -> vn_mem s' = vn_mem s.
Proof.
  destruct s as [T ptr comb mem log]. unfold Venn_body.
  intros H. apply obind_done in H as (c & _ & H).
  destruct (n <=? c)%nat; [discriminate|]. inv_done. reflexivity.
Qed.

Lemma Venn_loop_mem kb n fuel : forall s s',
  Venn_loop kb n fuel s = Done s' -> vn_mem s' = vn_mem s.
Proof.
  induction fuel as [|fuel IH]; intros s s' H; [discriminate|].
  simpl in H. apply obind_done in H as ([s1|] & Hbody & H).
  - rewrite (IH _ _ H). apply (Venn_body_mem _ _ _ _ Hbody).
  - injection H as <-. reflexivity.
Qed.

Lemma Venn_mem T comb nway mem s : Venn T comb nway mem = Done s -> vn_mem s = mem.
Proof.
  unfold Venn. intros H.
  apply obind_done in H as (T0 & _ & H).
  apply obind_done in H as ([T1 ptr] & _ & H).
  apply Venn_loop_mem in H. exact H.
Qed.

Lemma forallb_table_ok kb (T : list Kmer_Stream) :
  forallb (fun Tx => table_ok kb (table Tx)) T = true ->
  forall Tx, Tx ∈ T -> table_ok kb (table Tx) = true.
Proof.
  intros H Tx HTx. rewrite forallb_forall in H. apply H. apply list_elem_of_In, HTx.
Qed.

(* ===================================================================== *)
(** * The general merge: what it does to the histograms *)
(* ===================================================================== *)

(** ** C10 *)

(** C10.  [Venn] never writes a histogram counter: whenever its loop, or the
    whole function, returns, the counter block is the one it was given.  On
    up to 30 sorted tables (the masks must fit an [int]) with one base
    pointer per non-empty subset it does return, and what it has changed is
    the array of base pointers: the pointer of mask [v] has moved on by one
    element for each distinct key whose subset mask is [v]. *)
Theorem Venn_moves_pointers_only :
  (forall kb nway fuel s s',
      Venn_loop kb nway fuel s = Done s' -> vn_mem s' = vn_mem s) /\
  (forall T comb nway mem s, Venn T comb nway mem = Done s -> vn_mem s = mem) /\
  (forall (T : list Kmer_Stream) (comb : list Z) (nway : nat) (mem : list Z)
          (T0 : Kmer_Stream),
      (nway <= 30)%nat -> length T = nway -> T !! 0%nat = Some T0 ->
      forallb (fun Tx => table_ok (kbyte T0) (table Tx)) T = true ->
      Z.of_nat (length comb) = 2 ^ Z.of_nat nway - 1 ->
      exists s,
        Venn T comb nway mem = Done s /\ vn_mem s = mem /\
        length (vn_comb s) = length comb /\
        forall v c, 1 <= v <= 2 ^ Z.of_nat nway - 1 ->
                    comb !! Z.to_nat (v - 1) = Some c ->
                    vn_comb s !! Z.to_nat (v - 1) =
                      Some (c + Z.of_nat (size (keys_with_mask v (table <$> T))))).
Proof.
  split; [intros kb nway fuel s s'; apply Venn_loop_mem|].
  split; [apply Venn_mem|].
  intros T comb nway mem T0 Hsmall Hlen HT0 Hok Hcomb.
  destruct (Venn_spec T comb nway mem T0 Hsmall Hlen HT0
              (forallb_table_ok _ _ Hok) Hcomb)
    as (s & Hrun & Hmem & _ & _ & _ & Hl & Hc).
  exists s. split; [exact Hrun|]. split; [exact Hmem|]. split.
  - exact Hl.
  - intros v c Hv Hcv. rewrite (Hc _ _ Hcv).
    replace (Z.of_nat (Z.to_nat (v - 1)) + 1) with v by lia. reflexivity.
Qed.

Lemma Venn_moves_pointers_only_witness :
  exists s,
    Venn [ex_A; ex_B; ex_C] [-1; 99; 199; 299; 399; 499; 599] 3 (replicate 700 0)
      = Done s /\
    vn_mem s = replicate 700 0 /\
    length (vn_comb s) = 7%nat /\
    forall v c, 1 <= v <= 2 ^ Z.of_nat 3 - 1 ->
                [-1; 99; 199; 299; 399; 499; 599] !! Z.to_nat (v - 1) = Some c ->
                vn_comb s !! Z.to_nat (v - 1) =
                  Some (c + Z.of_nat (size (keys_with_mask v
                                              (table <$> [ex_A; ex_B; ex_C])))).
Proof.
  apply (proj2 (proj2 Venn_moves_pointers_only)
           [ex_A; ex_B; ex_C] [-1; 99; 199; 299; 399; 499; 599] 3%nat
           (replicate 700 0) ex_A); try reflexivity. lia.
Defined.

(** ** C1 *)

(** C1.  For the three example tables, which hold four distinct keys, with
    the block and the base pointers that [main] sets up for three streams
    and the default window, [Venn] returns with all 100 counters of the block
    still zero: their sum is 0, not 4.  What the statement [comb[v-1] += 1]
    has changed is the base pointers, which have moved on by 1, 1, 0, 1, 0,
    0 and 1 elements. *)
Theorem Venn_counts_no_key :
  exists s,
    Venn [ex_A; ex_B; ex_C] (alloc_hist 3 1 100).2 3 (alloc_hist 3 1 100).1 = Done s /\
    vn_mem s = replicate 100 0 /\
    foldr Z.add 0 (vn_mem s) = 0 /\
    (alloc_hist 3 1 100).2 = [-1; 99; 199; 299; 399; 499; 599] /\
    vn_comb s = [0; 100; 199; 300; 399; 499; 600] /\
    size (all_keys (table <$> [ex_A; ex_B; ex_C])) = 4%nat.
Proof. eexists. vm_compute. repeat split. Qed.

(* ===================================================================== *)
(** * The 2-way merge: keys in both tables *)
(* ===================================================================== *)

Lemma replay_split LOW HGH pre ev post mem final :
  replay LOW HGH (pre ++ ev :: post) mem = Done final ->
  exists mem1 mem2,
    replay LOW HGH pre mem = Done mem1 /\
    hist_update LOW HGH (ev_hist ev) (ev_count ev) mem1 = Done mem2 /\
    replay LOW HGH post mem2 = Done final.
Proof.
  rewrite replay_app. intros H.
  apply obind_done in H as (mem1 & H1 & H). simpl in H.
  apply obind_done in H as (mem2 & H2 & H). eauto.
Qed.

(** ** C3 *)

(** C3.  A pass through the compare loop of [Venn2] with both cursors at
    entries of equal key hands [min (c1, c2)] of their counts to the update
    of the intersection histogram and advances both streams by one entry.
    In a completed run on two sorted tables, for every key that is in both,
    one iteration of the compare loop consumes the two entries together and
    increments, in the intersection histogram, exactly the bin to which
    [min (c1, c2)] is clamped (the window being [LOW <= HGH]). *)
Theorem Venn2_intersection_gets_min :
  (forall LOW HGH kb Tv T U hA hB hI ip jp mem log TT TU,
      T <> U -> Tv !! T = Some TT -> Tv !! U = Some TU ->
      mycmp (ekey ip) (ekey jp) kb = 0 ->
      Venn2_body LOW HGH kb (mkV2 Tv T U hA hB hI (Some ip) (Some jp) mem log) =
        mem' ← hist_update LOW HGH hI (Z.min (ecount ip) (ecount jp)) mem;
        Done (true,
              mkV2 (alter adv U (alter adv T Tv)) T U hA hB hI
                   (current (adv TT)) (current (adv TU)) mem'
                   (log ++ [mkEv Compare hI (Z.min (ecount ip) (ecount jp))
                              [(T, ip); (U, jp)]]))) /\
  (forall LOW HGH A B comb mem hA hB hI s,
      LOW <= HGH ->
      table_ok (kbyte A) (table A) = true -> table_ok (kbyte A) (table B) = true ->
      comb !! 0%nat = Some hA -> comb !! 1%nat = Some hB -> comb !! 2%nat = Some hI ->
      Venn2 LOW HGH [A; B] comb mem = Done s ->
      forall ea eb, ea ∈ table A -> eb ∈ table B -> ekey ea = ekey eb ->
        exists pre post mem1 mem2 bin,
          v2_log s = pre ++ mkEv Compare hI (Z.min (ecount ea) (ecount eb))
                              [(0%nat, ea); (1%nat, eb)] :: post /\
          replay LOW HGH pre mem = Done mem1 /\
          bin_of LOW HGH (Z.min (ecount ea) (ecount eb)) bin /\
          incremented_at mem1 mem2 (hI + bin) /\
          replay LOW HGH post mem2 = Done (v2_mem s)).
Proof.
  split.
  - intros LOW HGH kb Tv T U hA hB hI ip jp mem log TT TU Hne HT HU Hz.
    unfold Venn2_body. rewrite Hz. simpl.
    rewrite (next_in_spec Tv T TT HT). simpl.
    rewrite (next_in_spec (alter adv T Tv) U TU)
      by (rewrite list_lookup_alter_ne; auto).
    simpl. unfold COUNT_OF. rewrite min_by_test. reflexivity.
  - intros LOW HGH A B comb mem hA hB hI s Hw HokA HokB HcA HcB HcI Hrun ea eb Hea Heb Hkey.
    pose proof (Venn2_spec LOW HGH A B comb mem hA hB hI
                  (table_ok_sorted _ _ HokA) (table_ok_sorted _ _ HokB) HcA HcB HcI)
      as Hspec.
    rewrite Hrun in Hspec.
    destruct Hspec as (A' & B' & Lc & Ld & _ & _ & _ & _ & _ & Hlog & _ & _ & Hrep & _
                       & _ & _ & _ & Hinter).
    specialize (Hinter ea eb Hea Heb Hkey).
    apply list_elem_of_split in Hinter as (l1 & l2 & ->).
    rewrite <- app_assoc in Hrep, Hlog. simpl in Hrep, Hlog.
    apply replay_split in Hrep as (mem1 & mem2 & Hpre & Hupd & Hpost).
    simpl in Hupd.
    destruct (hist_update_bin LOW HGH hI (Z.min (ecount ea) (ecount eb)) mem1 Hw)
      as (bin & Hbin & _ & Heq).
    rewrite Heq in Hupd. apply hist_add_done in Hupd.
    exists l1, (l2 ++ Ld), mem1, mem2, bin. auto.
Qed.

Lemma Venn2_intersection_gets_min_witness :
  exists s,
    Venn2 1 100 [ex_A; ex_B] [-1; 99; 199] (replicate 300 0) = Done s /\
    exists pre post mem1 mem2 bin,
      v2_log s = pre ++ mkEv Compare 199 (Z.min 3 7)
                          [(0%nat, ex_entry 2 3); (1%nat, ex_entry 2 7)] :: post /\
      replay 1 100 pre (replicate 300 0) = Done mem1 /\
      bin_of 1 100 (Z.min 3 7) bin /\
      incremented_at mem1 mem2 (199 + bin) /\
      replay 1 100 post mem2 = Done (v2_mem s).
Proof.
  destruct (Venn2 1 100 [ex_A; ex_B] [-1; 99; 199] (replicate 300 0)) as [s| |] eqn:Hrun;
    [|vm_compute in Hrun; discriminate..].
  exists s. split; [reflexivity|].
  apply (proj2 Venn2_intersection_gets_min 1 100 ex_A ex_B [-1; 99; 199]
           (replicate 300 0) (-1) 99 199 s ltac:(lia) eq_refl eq_refl eq_refl eq_refl
           eq_refl Hrun (ex_entry 2 3) (ex_entry 2 7)).
  - apply elem_of_cons. right. apply elem_of_cons. left. reflexivity.
  - apply elem_of_cons. left. reflexivity.
  - reflexivity.
Defined.

(* ===================================================================== *)
(** * Termination and consumption *)
(* ===================================================================== *)


(** ** C6 *)



(* ===================================================================== *)
(** * The comparator as an order on keys *)
(* ===================================================================== *)

Lemma mycmp_loop_app a a' b b' n :
  length a = n -> length b = n ->
  mycmp_loop (a ++ a') (b ++ b') n = mycmp_loop a b n.
Proof.
  revert a b. induction n as [|n IH]; intros [|x a] [|y b] Ha Hb;
    simpl in *; try discriminate; try reflexivity.
  destruct (x =? y); simpl; [|reflexivity]. apply IH; lia.
Qed.

(** X1. [mycmp] looks at the first [n] bytes only: whatever follows the
    [n]-byte keys in the two buffers (in a table entry, the count) has no
    influence on the result. *)
Theorem mycmp_reads_key_only (a b a' b' : list Z) (n : Z) :
  Z.of_nat (length a) = n -> Z.of_nat (length b) = n ->
  mycmp (a ++ a') (b ++ b') n = mycmp a b n.
Proof.
  intros Ha Hb. unfold mycmp. apply mycmp_loop_app; lia.
Qed.

Lemma mycmp_reads_key_only_witness :
  mycmp ([1; 2] ++ [9; 9]) ([1; 3] ++ [0; 0]) 2 = mycmp [1; 2] [1; 3] 2.
Proof. apply (mycmp_reads_key_only [1; 2] [1; 3] [9; 9] [0; 0] 2); reflexivity. Defined.

(** X2. On keys of [n] bytes [mycmp] is a strict total order: a key equals
    itself, exchanging the arguments negates the result, and "less than" is
    transitive. *)
Theorem mycmp_strict_order (a b c : list Z) (n : Z) :
  Z.of_nat (length a) = n -> Z.of_nat (length b) = n -> Z.of_nat (length c) = n ->
  mycmp a a n = 0 /\
  mycmp b a n = - mycmp a b n /\
  (mycmp a b n < 0 -> mycmp b c n < 0 -> mycmp a c n < 0) /\
  (mycmp a b n <= 0 -> mycmp b c n <= 0 -> mycmp a c n <= 0).
Proof.
  intros Ha Hb Hc. unfold mycmp.
  assert (La : length a = Z.to_nat n) by lia.
  assert (Lb : length b = Z.to_nat n) by lia.
  assert (Lc : length c = Z.to_nat n) by lia.
  split; [apply mycmp_loop_zero; auto|].
  split; [apply mycmp_loop_flip|].
  split; [apply mycmp_loop_trans; auto|].
  intros Hab Hbc.
  destruct (Z.eq_dec (mycmp_loop a b (Z.to_nat n)) 0) as [E1|N1].
  { apply mycmp_loop_zero in E1; auto. subst b. exact Hbc. }
  destruct (Z.eq_dec (mycmp_loop b c (Z.to_nat n)) 0) as [E2|N2].
  { apply mycmp_loop_zero in E2; auto. subst c. exact Hab. }
  assert (mycmp_loop a c (Z.to_nat n) < 0); [|lia].
  apply (mycmp_loop_trans a b c); auto; lia.
Qed.

Lemma mycmp_strict_order_witness :
  mycmp [1; 2] [1; 2] 2 = 0 /\
  mycmp [1; 3] [1; 2] 2 = - mycmp [1; 2] [1; 3] 2 /\
  (mycmp [1; 2] [1; 3] 2 < 0 -> mycmp [1; 3] [2; 0] 2 < 0 -> mycmp [1; 2] [2; 0] 2 < 0) /\
  (mycmp [1; 2] [1; 3] 2 <= 0 -> mycmp [1; 3] [2; 0] 2 <= 0 -> mycmp [1; 2] [2; 0] 2 <= 0).
Proof. apply (mycmp_strict_order [1; 2] [1; 3] [2; 0] 2); reflexivity. Defined.

(* ===================================================================== *)
(** * The layout [main] gives to the histograms *)
(* ===================================================================== *)

Lemma comb_fill_length k prev w : length (comb_fill k prev w) = k.
Proof. revert prev. induction k as [|k IH]; intros prev; simpl; [|rewrite IH]; reflexivity. Qed.

Lemma comb_fill_lookup k : forall prev w i,
  (i < k)%nat -> comb_fill k prev w !! i = Some (prev + (Z.of_nat i + 1) * w).
Proof.
  induction k as [|k IH]; intros prev w i Hi; [lia|].
  destruct i as [|i]; simpl.
  - f_equal. lia.
  - rewrite IH by lia. f_equal. lia.
Qed.

Lemma shiftl_1_int nway :
  0 <= nway <= 30 -> int_of (int_of (Z.shiftl 1 nway) - 1) = 2 ^ nway - 1.
Proof.
  intros H. rewrite Z.shiftl_1_l.
  assert (1 <= 2 ^ nway <= 2 ^ 30).
  { split; [pose proof (Z.pow_pos_nonneg 2 nway); lia | apply Z.pow_le_mono_r; lia]. }
  assert (2 ^ 30 < 2 ^ 31) by (apply Z.pow_lt_mono_r; lia).
  assert (- 2 ^ 31 < 0) by (pose proof (Z.pow_pos_nonneg 2 31); lia).
  rewrite (int_of_small (2 ^ nway)) by lia.
  apply int_of_small. lia.
Qed.

Lemma window_width LOW HGH :
  1 <= LOW <= HGH -> HGH < 2 ^ 31 ->
  int_of (int_of (HGH - LOW) + 1) = HGH - LOW + 1.
Proof.
  intros H1 H2.
  assert (- 2 ^ 31 < 0) by (pose proof (Z.pow_pos_nonneg 2 31); lia).
  rewrite (int_of_small (HGH - LOW)) by lia.
  apply int_of_small. lia.
Qed.

Lemma alloc_hist_comb nway LOW HGH :
  1 <= nway <= 30 -> 1 <= LOW <= HGH -> HGH < 2 ^ 31 ->
  Z.of_nat (length (alloc_hist nway LOW HGH).2) = 2 ^ nway - 1 /\
  forall i, Z.of_nat i < 2 ^ nway - 1 ->
    (alloc_hist nway LOW HGH).2 !! i = Some (Z.of_nat i * (HGH - LOW + 1) - LOW).
Proof.
  intros Hn HL HH. unfold alloc_hist. cbn [snd].
  rewrite shiftl_1_int by lia. rewrite window_width by lia.
  assert (2 <= 2 ^ nway).
  { change 2 with (2 ^ 1) at 1. apply Z.pow_le_mono_r; lia. }
  split.
  - cbn [length]. rewrite comb_fill_length. lia.
  - intros [|i] Hi; [simpl; f_equal; lia|].
    cbn [lookup list_lookup]. rewrite comb_fill_lookup by lia. f_equal. lia.
Qed.

(** X3. For 1 to 30 tables and a window [1 <= LOW <= HGH], the array [comb]
    that [main] builds has [2^nway - 1] base pointers, and the [i]-th one
    (from 0) is [i * W - LOW] with [W = HGH - LOW + 1]: bin [LOW] of
    histogram [i] is counter [i * W] of the block, so the histograms are laid
    out as consecutive windows of [W] counters that do not overlap. *)
Theorem alloc_hist_comb_layout (nway LOW HGH : Z) :
  1 <= nway <= 30 -> 1 <= LOW <= HGH -> HGH < 2 ^ 31 ->
  Z.of_nat (length (alloc_hist nway LOW HGH).2) = 2 ^ nway - 1 /\
  (forall i, Z.of_nat i < 2 ^ nway - 1 ->
     (alloc_hist nway LOW HGH).2 !! i = Some (Z.of_nat i * (HGH - LOW + 1) - LOW)) /\
  (forall i j hi hj bi bj,
     (alloc_hist nway LOW HGH).2 !! i = Some hi ->
     (alloc_hist nway LOW HGH).2 !! j = Some hj ->
     LOW <= bi <= HGH -> LOW <= bj <= HGH ->
     hi + bi = hj + bj -> i = j /\ bi = bj).
Proof.
  intros Hn HL HH.
  destruct (alloc_hist_comb nway LOW HGH Hn HL HH) as [Hlen Hlk].
  split; [exact Hlen|]. split; [exact Hlk|].
  intros i j hi hj bi bj Hi Hj Hbi Hbj Heq.
  pose proof (lookup_lt_Some _ _ _ Hi) as Li.
  pose proof (lookup_lt_Some _ _ _ Hj) as Lj.
  rewrite Hlk in Hi by lia. rewrite Hlk in Hj by lia.
  injection Hi as <-. injection Hj as <-.
  assert (Z.of_nat i = Z.of_nat j) by nia.
  split; [lia|]. nia.
Qed.

Lemma alloc_hist_comb_layout_witness :
  Z.of_nat (length (alloc_hist 2 1 100).2) = 2 ^ 2 - 1 /\
  (forall i, Z.of_nat i < 2 ^ 2 - 1 ->
     (alloc_hist 2 1 100).2 !! i = Some (Z.of_nat i * (100 - 1 + 1) - 1)) /\
  (forall i j hi hj bi bj,
     (alloc_hist 2 1 100).2 !! i = Some hi ->
     (alloc_hist 2 1 100).2 !! j = Some hj ->
     1 <= bi <= 100 -> 1 <= bj <= 100 ->
     hi + bi = hj + bj -> i = j /\ bi = bj).
Proof. apply (alloc_hist_comb_layout 2 1 100); lia. Defined.

(* ===================================================================== *)
(** * The output loop: what it hands to [open] and [write] *)
(* ===================================================================== *)

Lemma rd64_lookup (mem : list Z) (a : nat) v :
  mem !! a = Some v -> rd64 mem (Z.of_nat a) = Done v.
Proof.
  intros H. pose proof (lookup_lt_Some _ _ _ H) as Hlt. unfold rd64.
  replace (0 <=? Z.of_nat a) with true by (symmetry; apply Z.leb_le; lia).
  replace (Z.of_nat a <? Z.of_nat (length mem)) with true
    by (symmetry; apply Z.ltb_lt; lia).
  simpl. rewrite Nat2Z.id. exact (rd_lookup _ _ _ H).
Qed.

Lemma read_counters_take k : forall (mem : list Z) (a : nat),
  (a + k <= length mem)%nat ->
  read_counters mem (Z.of_nat a) k = Done (take k (drop a mem)).
Proof.
  induction k as [|k IH]; intros mem a Hle; [reflexivity|].
  destruct (lookup_lt_is_Some_2 mem a ltac:(lia)) as [v Hv].
  cbn [read_counters]. rewrite (rd64_lookup _ _ _ Hv).
  replace (Z.of_nat a + 1) with (Z.of_nat (S a)) by lia.
  rewrite IH by lia. simpl.
  rewrite (drop_S _ _ _ Hv). reflexivity.
Qed.

Lemma read_counters_outside (mem : list Z) a k :
  (0 < k)%nat -> Z.of_nat (length mem) <= a -> read_counters mem a k = Fault.
Proof.
  intros Hk Ha. destruct k as [|k]; [lia|]. cbn [read_counters]. unfold rd64.
  replace (a <? Z.of_nat (length mem)) with false by (symmetry; apply Z.ltb_ge; lia).
  rewrite andb_false_r. reflexivity.
Qed.

(** Counters that reach beyond the end of the block cannot be read. *)
Lemma read_counters_short k : forall (mem : list Z) (a : nat),
  (length mem < a + k)%nat -> (0 < k)%nat ->
  read_counters mem (Z.of_nat a) k = Fault.
Proof.
  induction k as [|k IH]; intros mem a Hlt Hk; [lia|].
  destruct (decide (a < length mem)%nat) as [Ha|Ha].
  - destruct (lookup_lt_is_Some_2 mem a Ha) as [v Hv].
    cbn [read_counters]. rewrite (rd64_lookup _ _ _ Hv).
    replace (Z.of_nat a + 1) with (Z.of_nat (S a)) by lia.
    rewrite IH by lia. reflexivity.
  - apply read_counters_outside; lia.
Qed.

(** What the output loop hands to [write] when histogram [i] (from 0) is
    the window of [w] counters that starts at counter [i * w]. *)
Lemma write_hists_files kl LOW HGH upp low (comb mem : list Z) (w : nat) :
  Z.of_nat w = HGH - LOW + 1 ->
  (forall i, (i < length comb)%nat -> comb !! i = Some (Z.of_nat (i * w) - LOW)) ->
  forall k j, (j + k <= length comb)%nat -> ((j + k) * w <= length mem)%nat ->
    write_hists kl LOW HGH upp low comb mem (Z.of_nat j + 1) k =
      Done ((fun i => (hist_name upp low (Z.of_nat i + 1),
                       W32 kl :: W32 LOW :: W32 HGH ::
                       map W64 (take w (drop (i * w) mem)))) <$> seq j k).
Proof.
  intros Hw Hcomb. induction k as [|k IH]; intros j Hj Hmem; [reflexivity|].
  cbn [write_hists seq fmap list_fmap].
  replace (0 <=? Z.of_nat j + 1 - 1) with true by (symmetry; apply Z.leb_le; lia).
  replace (Z.of_nat j + 1 - 1) with (Z.of_nat j) by lia. rewrite Nat2Z.id.
  rewrite (rd_lookup _ _ _ (Hcomb j ltac:(lia))). simpl.
  replace (Z.of_nat (j * w) - LOW + LOW) with (Z.of_nat (j * w)) by lia.
  rewrite <- Hw, Nat2Z.id.
  rewrite read_counters_take by nia. simpl.
  replace (Z.of_nat j + 1 + 1) with (Z.of_nat (S j) + 1) by lia.
  rewrite IH by lia. reflexivity.
Qed.

(** The loop reads outside a block that ends before the last window. *)
Lemma write_hists_short kl LOW HGH upp low (comb mem : list Z) (w : nat) :
  Z.of_nat w = HGH - LOW + 1 ->
  (forall i, (i < length comb)%nat -> comb !! i = Some (Z.of_nat (i * w) - LOW)) ->
  forall k j, (j + k <= length comb)%nat ->
    (j * w <= length mem)%nat -> (length mem < (j + k) * w)%nat ->
    write_hists kl LOW HGH upp low comb mem (Z.of_nat j + 1) k = Fault.
Proof.
  intros Hw Hcomb. induction k as [|k IH]; intros j Hj Hfit Hshort; [lia|].
  cbn [write_hists].
  replace (0 <=? Z.of_nat j + 1 - 1) with true by (symmetry; apply Z.leb_le; lia).
  replace (Z.of_nat j + 1 - 1) with (Z.of_nat j) by lia. rewrite Nat2Z.id.
  rewrite (rd_lookup _ _ _ (Hcomb j ltac:(lia))). simpl.
  replace (Z.of_nat (j * w) - LOW + LOW) with (Z.of_nat (j * w)) by lia.
  rewrite <- Hw, Nat2Z.id.
  destruct (decide (S j * w <= length mem)%nat) as [Hnext|Hnext].
  - rewrite read_counters_take by lia. simpl.
    replace (Z.of_nat j + 1 + 1) with (Z.of_nat (S j) + 1) by lia.
    rewrite IH by lia. reflexivity.
  - rewrite read_counters_short by nia. reflexivity.
Qed.

(** X4. What the output loop hands to [open] and [write], for base pointers
    laid out as [main] lays out [comb] (window [i], from 0, starts at counter
    [i * W] with [W = HGH - LOW + 1]).  When the block holds all the windows,
    the loop makes one call of [open] and of [write] per mask [1 .. ncomb],
    in that order, and the data of the call for mask [i] are the k-mer
    length, [LOW], [HGH] and exactly the [W] counters of its window.  When
    the block ends before the last window, the loop reads outside the block.
    This is about the calls only: the result of [open] is not tested and a
    name can occur for several masks, so it does not tell which files exist
    afterwards. *)
Theorem write_hists_one_window_per_write
  (kl LOW HGH : Z) (upp low : list string) (comb mem : list Z) (w : nat) :
  Z.of_nat w = HGH - LOW + 1 ->
  (forall i, (i < length comb)%nat -> comb !! i = Some (Z.of_nat (i * w) - LOW)) ->
  write_hists kl LOW HGH upp low comb mem 1 (length comb) =
    if (length comb * w <=? length mem)%nat
    then Done ((fun i => (hist_name upp low (Z.of_nat i + 1),
                          W32 kl :: W32 LOW :: W32 HGH ::
                          map W64 (take w (drop (i * w) mem)))) <$> seq 0 (length comb))
    else Fault.
Proof.
  intros Hw Hcomb.
  destruct (Nat.leb_spec (length comb * w) (length mem)) as [Hfit|Hshort].
  - exact (write_hists_files kl LOW HGH upp low comb mem w Hw Hcomb (length comb) 0%nat
             ltac:(lia) ltac:(lia)).
  - exact (write_hists_short kl LOW HGH upp low comb mem w Hw Hcomb (length comb) 0%nat
             ltac:(lia) ltac:(lia) ltac:(lia)).
Qed.

Lemma write_hists_one_window_per_write_witness :
  write_hists 21 1 2 ["A"; "B"]%string ["a"; "b"]%string [-1; 1; 3] [5; 6; 7; 8; 9; 10] 1
              (length [-1; 1; 3]) =
    (if (3 * 2 <=? 6)%nat
     then Done ((fun i => (hist_name ["A"; "B"]%string ["a"; "b"]%string (Z.of_nat i + 1),
                           W32 21 :: W32 1 :: W32 2 ::
                           map W64 (take 2 (drop (i * 2) [5; 6; 7; 8; 9; 10]))))
                  <$> seq 0 (length [-1; 1; 3]))
     else Fault) /\
  write_hists 21 1 2 ["A"; "B"]%string ["a"; "b"]%string [-1; 1; 3] [5; 6] 1
              (length [-1; 1; 3]) =
    (if (3 * 2 <=? 2)%nat
     then Done ((fun i => (hist_name ["A"; "B"]%string ["a"; "b"]%string (Z.of_nat i + 1),
                           W32 21 :: W32 1 :: W32 2 ::
                           map W64 (take 2 (drop (i * 2) [5; 6]))))
                  <$> seq 0 (length [-1; 1; 3]))
     else Fault).
Proof.
  split.
  - apply (write_hists_one_window_per_write 21 1 2 ["A"; "B"]%string ["a"; "b"]%string
             [-1; 1; 3] [5; 6; 7; 8; 9; 10] 2).
    + reflexivity.
    + intros [|[|[|i]]] Hi; simpl in *; try reflexivity; lia.
  - apply (write_hists_one_window_per_write 21 1 2 ["A"; "B"]%string ["a"; "b"]%string
             [-1; 1; 3] [5; 6] 2).
    + reflexivity.
    + intros [|[|[|i]]] Hi; simpl in *; try reflexivity; lia.
Defined.

(* ===================================================================== *)
(** * The buffer of the file names *)
(* ===================================================================== *)

Lemma string_length_app (a b : string) :
  String.length (a ++ b)%string = (String.length a + String.length b)%nat.
Proof. induction a as [|c a IH]; simpl; [|rewrite IH]; reflexivity. Qed.

Lemma string_map_length f s : String.length (string_map f s) = String.length s.
Proof. induction s as [|c s IH]; simpl; [|rewrite IH]; reflexivity. Qed.

Lemma cut_at_dot_length s : (String.length (cut_at_dot s) <= String.length s)%nat.
Proof.
  induction s as [|c s IH]; simpl; [lia|].
  destruct (Ascii.eqb c "."); simpl; lia.
Qed.

(** Total length of the operands cut at their first ['.']. *)
Lemma name_size_sum ops : forall acc,
  0 <= acc ->
  acc + foldr (fun n s => Z.of_nat (String.length n) + s) 0 ops < 2 ^ 31 ->
  foldl (fun nlen n => int_of (nlen + Z.of_nat (String.length (cut_at_dot n)))) acc ops =
    acc + foldr (fun n s => Z.of_nat (String.length (cut_at_dot n)) + s) 0 ops.
Proof.
  assert (- 2 ^ 31 < 0) by (pose proof (Z.pow_pos_nonneg 2 31); lia).
  induction ops as [|n ops IH]; intros acc H0 Hlt; simpl in *; [lia|].
  pose proof (cut_at_dot_length n).
  assert (0 <= foldr (fun n s => Z.of_nat (String.length n) + s) 0 ops).
  { clear. induction ops; simpl; lia. }
  rewrite int_of_small by lia. rewrite IH by lia. lia.
Qed.

Lemma hist_label_length b i : forall (ops : list string) c,
  Z.of_nat (String.length
              (hist_label b i (map upper_name ops) (map lower_name ops) c)) =
    foldr (fun n s => Z.of_nat (String.length (cut_at_dot n)) + s) 0 ops +
    Z.of_nat (length ops) - (if (c =? 0)%nat then match ops with [] => 0 | _ => 1 end else 0).
Proof.
  induction ops as [|n ops IH]; intros c; [simpl; destruct (c =? 0)%nat; reflexivity|].
  cbn [map hist_label foldr length].
  rewrite !string_length_app, !Nat2Z.inj_add, IH. cbn [Nat.eqb].
  assert (String.length (if negb (Z.land b i =? 0) then upper_name n else lower_name n)
          = String.length (cut_at_dot n)) as ->.
  { unfold lower_name, upper_name. destruct (negb _); rewrite ?string_map_length; reflexivity. }
  destruct (c =? 0)%nat; simpl String.length; lia.
Qed.

(** X5. The buffer [name] is large enough for every file name the output
    loop builds in it: the characters of the name and its terminating NUL
    take [nlen - 5] bytes when there is at least one table, whatever the
    mask. *)
Theorem hist_name_fits_buffer (ops : list string) (i : Z) :
  ops <> [] ->
  Z.of_nat (length ops) + 10 +
    foldr (fun n s => Z.of_nat (String.length n) + s) 0 ops < 2 ^ 31 ->
  name_bytes ops i = name_size ops - 5 /\ name_bytes ops i <= name_size ops.
Proof.
  intros Hne Hlt.
  assert (- 2 ^ 31 < 0) by (pose proof (Z.pow_pos_nonneg 2 31); lia).
  assert (0 <= foldr (fun n s => Z.of_nat (String.length n) + s) 0 ops).
  { clear. induction ops; simpl; lia. }
  unfold name_size, name_bytes, hist_name.
  rewrite (int_of_small (Z.of_nat (length ops) + 10)) by lia.
  rewrite name_size_sum by lia.
  rewrite string_length_app, Nat2Z.inj_add, hist_label_length.
  destruct ops as [|n ops]; [congruence|]. simpl String.length. cbn [Nat.eqb]. lia.
Qed.

Lemma hist_name_fits_buffer_witness :
  name_bytes ["a.ktab"; "b.ktab"]%string 3 = name_size ["a.ktab"; "b.ktab"]%string - 5 /\
  name_bytes ["a.ktab"; "b.ktab"]%string 3 <= name_size ["a.ktab"; "b.ktab"]%string.
Proof.
  apply (hist_name_fits_buffer ["a.ktab"; "b.ktab"]%string 3);
    [discriminate | vm_compute; reflexivity].
Defined.

(* ===================================================================== *)
(** * The option [-h] on decimal numerals *)
(* ===================================================================== *)

Lemma digit_char d :
  is_digit d ->
  let c := ascii_of_nat (Z.to_nat (48 + d)) in
  digit_of c = Some d /\ is_space c = false /\ c <> "-"%char /\ c <> "+"%char /\
  c <> ":"%char.
Proof.
  unfold is_digit. intros H.
  assert (d = 0 \/ d = 1 \/ d = 2 \/ d = 3 \/ d = 4 \/ d = 5 \/ d = 6 \/ d = 7 \/
          d = 8 \/ d = 9) as Hd by lia.
  repeat (destruct Hd as [->|Hd]); try subst d;
    (split; [reflexivity|]; split; [reflexivity|]; repeat split; discriminate).
Qed.

Lemma string_app_cons c (s r : string) :
  (String c s ++ r)%string = String c (s ++ r)%string.
Proof. reflexivity. Qed.

Lemma read_digits_numeral ds : forall rest acc any,
  Forall is_digit ds -> no_digit_ahead rest ->
  read_digits (numeral ds ++ rest) acc any =
    (numeral_value ds acc, rest, any || negb (bool_decide (ds = []))).
Proof.
  induction ds as [|d ds IH]; intros rest acc any Hds Hrest.
  - simpl. rewrite orb_false_r.
    destruct rest as [|c r]; simpl in *; [reflexivity|]. rewrite Hrest. reflexivity.
  - apply Forall_cons in Hds as [Hd Hds].
    destruct (digit_char d Hd) as (Hdig & _).
    cbn [numeral]. rewrite string_app_cons. cbn [read_digits]. rewrite Hdig.
    rewrite IH by assumption. simpl. rewrite orb_true_r. reflexivity.
Qed.

Lemma numeral_value_bounds ds : forall acc,
  Forall is_digit ds -> 0 <= acc -> acc <= numeral_value ds acc.
Proof.
  induction ds as [|d ds IH]; intros acc Hds Hacc; simpl; [lia|].
  apply Forall_cons in Hds as [Hd Hds]. unfold is_digit in Hd.
  specialize (IH (10 * acc + d) Hds). lia.
Qed.

Lemma numeral_length ds : String.length (numeral ds) = length ds.
Proof. induction ds as [|d ds IH]; simpl; [|rewrite IH]; reflexivity. Qed.

Lemma strtol_numeral ds rest :
  ds <> [] -> Forall is_digit ds -> no_digit_ahead rest ->
  numeral_value ds 0 < 2 ^ 63 ->
  strtol (numeral ds ++ rest) = (numeral_value ds 0, rest).
Proof.
  intros Hne Hds Hrest Hv.
  pose proof (numeral_value_bounds ds 0 Hds ltac:(lia)) as H0.
  destruct ds as [|d ds]; [congruence|].
  pose proof Hds as Hds'. apply Forall_cons in Hds' as [Hd _].
  destruct (digit_char d Hd) as (Hdig & Hsp & Hm & Hp & _).
  unfold strtol.
  assert (skip_space (numeral (d :: ds) ++ rest) = (numeral (d :: ds) ++ rest)%string) as ->.
  { cbn [numeral]. rewrite string_app_cons. cbn [skip_space]. rewrite Hsp. reflexivity. }
  assert ((match (numeral (d :: ds) ++ rest)%string with
           | String "-"%char r => (true, r)
           | String "+"%char r => (false, r)
           | _ => (false, (numeral (d :: ds) ++ rest)%string)
           end) = (false, (numeral (d :: ds) ++ rest)%string)) as ->.
  { cbn [numeral]. rewrite string_app_cons.
    destruct (ascii_of_nat (Z.to_nat (48 + d))) as [[] [] [] [] [] [] [] []];
      try reflexivity; congruence. }
  rewrite read_digits_numeral by assumption. simpl orb. cbv iota beta.
  f_equal.
  assert (- 2 ^ 63 < 0) by (pose proof (Z.pow_pos_nonneg 2 63); lia).
  lia.
Qed.

Lemma string_app_nil_r (s : string) : (s ++ EmptyString)%string = s.
Proof.
  induction s as [|c s IH]; [reflexivity|]. rewrite string_app_cons, IH. reflexivity.
Qed.

(** [parse_h] on a numeral followed by [rest], which does not go on with a
    digit: the number is read and the decision is taken on [rest]. *)
Lemma parse_h_numeral_then ds rest :
  ds <> [] -> Forall is_digit ds -> no_digit_ahead rest ->
  numeral_value ds 0 < 2 ^ 63 ->
  parse_h (numeral ds ++ rest) =
    let lo := int_of (numeral_value ds 0) in
    if (lo <? 1) || (lo >? 32767) then inl (Msg_count_out_of_range lo)
    else
      match rest with
      | String ":"%char e1 =>
          let '(hv, fptr) := strtol e1 in
          if (String.length fptr <? String.length e1)%nat then
            match fptr with
            | EmptyString =>
                if lo >? int_of hv then inl Msg_range_invalid
                else inr (lo, int_of hv)
            | _ => inl Msg_h_syntax
            end
          else inl Msg_h_syntax
      | EmptyString => inr (1, lo)
      | _ => inl Msg_h_syntax
      end.
Proof.
  intros Hne Hds Hrest Hv.
  unfold parse_h. rewrite strtol_numeral by assumption.
  assert ((String.length rest <? String.length (numeral ds ++ rest))%nat = true) as ->.
  { apply Nat.ltb_lt. rewrite string_length_app, numeral_length.
    destruct ds; [congruence | simpl; lia]. }
  reflexivity.
Qed.

(** X6. The option [-h] on well-formed input.  Every number is read as a
    [long] and reduced to an [int].  A single numeral [n] selects the window
    [1 .. n] and a pair [l:h] the window [l .. h]; a first number outside
    [1 .. 32767] is reported as out of range, a pair with [h < l] as an
    invalid range, and anything but [':'] or the end of the argument after
    an accepted first number as a syntax error.  The second number of a pair
    has no upper bound. *)
Theorem parse_h_on_numerals (dl dh : list Z) (c : ascii) (junk : string) :
  dl <> [] -> Forall is_digit dl -> numeral_value dl 0 < 2 ^ 63 ->
  dh <> [] -> Forall is_digit dh -> numeral_value dh 0 < 2 ^ 63 ->
  digit_of c = None -> c <> ":"%char ->
  let lo := int_of (numeral_value dl 0) in
  let hi := int_of (numeral_value dh 0) in
  parse_h (numeral dl) =
    (if (lo <? 1) || (lo >? 32767) then inl (Msg_count_out_of_range lo)
     else inr (1, lo)) /\
  parse_h (numeral dl ++ ":" ++ numeral dh) =
    (if (lo <? 1) || (lo >? 32767) then inl (Msg_count_out_of_range lo)
     else if lo >? hi then inl Msg_range_invalid else inr (lo, hi)) /\
  parse_h (numeral dl ++ String c junk) =
    (if (lo <? 1) || (lo >? 32767) then inl (Msg_count_out_of_range lo)
     else inl Msg_h_syntax).
Proof.
  intros Hl Dl Vl Hh Dh Vh Hc Hcolon lo hi.
  split; [|split].
  - rewrite <- (string_app_nil_r (numeral dl)) at 1.
    rewrite parse_h_numeral_then by (auto; exact I). reflexivity.
  - rewrite parse_h_numeral_then by (auto; reflexivity).
    cbv zeta. fold lo.
    destruct ((lo <? 1) || (lo >? 32767)); [reflexivity|].
    change (":" ++ numeral dh)%string with (String ":"%char (numeral dh)).
    cbv iota beta.
    rewrite <- (string_app_nil_r (numeral dh)).
    rewrite strtol_numeral by (auto; exact I).
    cbv iota beta. rewrite string_app_nil_r, numeral_length.
    destruct dh as [|d dh']; [congruence|]. simpl Nat.ltb. cbv iota.
    reflexivity.
  - rewrite parse_h_numeral_then by (auto; exact Hc).
    cbv zeta. fold lo.
    destruct ((lo <? 1) || (lo >? 32767)); [reflexivity|].
    destruct c as [[] [] [] [] [] [] [] []]; try reflexivity. congruence.
Qed.

Lemma parse_h_on_numerals_witness :
  parse_h (numeral [4; 2]) = inr (1, 42) /\
  parse_h (numeral [4; 2] ++ ":" ++ numeral [7]) = inl Msg_range_invalid /\
  parse_h (numeral [4; 2] ++ String "x"%char "y") = inl Msg_h_syntax.
Proof.
  apply (parse_h_on_numerals [4; 2] [7] "x"%char "y"%string);
    try discriminate; try reflexivity;
    try (repeat constructor; unfold is_digit; lia).
Defined.

(* ===================================================================== *)
(** * The argument loop *)
(* ===================================================================== *)

Lemma int_of_range z : - 2 ^ 31 <= int_of z < 2 ^ 31.
Proof.
  unfold int_of.
  assert (0 < 2 ^ 32) by (apply Z.pow_pos_nonneg; lia).
  pose proof (Z.mod_pos_bound (z + 2 ^ 31) (2 ^ 32) ltac:(lia)).
  change (2 ^ 32) with (2 * 2 ^ 31) in *. lia.
Qed.

Lemma parse_h_high arg lo hi : parse_h arg = inr (lo, hi) -> hi < 2 ^ 31.
Proof.
  unfold parse_h. destruct (strtol arg) as [lv eptr].
  destruct (String.length eptr <? String.length arg)%nat; [|discriminate].
  destruct ((int_of lv <? 1) || (int_of lv >? 32767)); [discriminate|].
  destruct eptr as [|c e1].
  - intros H. injection H as <- <-. apply int_of_range.
  - destruct (Ascii.eqb_spec c ":"%char) as [->|Hc].
    + destruct (strtol e1) as [hv fptr].
      destruct (String.length fptr <? String.length e1)%nat; [|discriminate].
      destruct fptr; [|discriminate].
      destruct (int_of lv >? int_of hv); [discriminate|].
      intros H. injection H as <- <-. apply int_of_range.
    + destruct c as [[] [] [] [] [] [] [] []]; try discriminate. congruence.
Qed.

Lemma parse_args_window F args : forall LOW HGH acc lo hi ops,
  parse_args F args LOW HGH acc = inr (lo, hi, ops) ->
  (lo, hi) = last_window args (LOW, HGH) /\
  ops = acc ++ filter (fun a => is_option a = false) args.
Proof.
  induction args as [|a args IH]; intros LOW HGH acc lo hi ops H.
  - simpl in H. injection H as <- <- <-. rewrite app_nil_r. auto.
  - cbn [parse_args] in H. unfold last_window. cbn [foldl]. fold (last_window args).
    destruct a as [|c a1].
    { apply IH in H as [-> ->]. split; [reflexivity|].
      rewrite filter_cons_True by reflexivity. rewrite <- app_assoc. reflexivity. }
    destruct (Ascii.eqb_spec c "-"%char) as [->|Hc].
    + rewrite filter_cons_False by (simpl; congruence).
      destruct a1 as [|c1 a2].
      { destruct (F "-"%string); [discriminate|]. apply IH in H. exact H. }
      destruct (Ascii.eqb_spec c1 "h"%char) as [->|Hc1].
      * destruct (parse_h a2) as [m|[lo' hi']]; [discriminate|].
        apply IH in H. exact H.
      * assert (match F (String "-"%char (String c1 a2)) with
                | Some m => inl m
                | None => parse_args F args LOW HGH acc
                end = inr (lo, hi, ops)) as H'.
        { destruct c1 as [[] [] [] [] [] [] [] []]; try exact H. congruence. }
        destruct (F _); [discriminate|]. apply IH in H' as [-> ->].
        split; [|reflexivity]. f_equal.
        destruct c1 as [[] [] [] [] [] [] [] []]; try reflexivity. congruence.
    + assert (parse_args F args LOW HGH (acc ++ [String c a1]) = inr (lo, hi, ops)) as H'.
      { destruct c as [[] [] [] [] [] [] [] []]; try exact H. congruence. }
      apply IH in H' as [-> ->].
      assert (is_option (String c a1) = false) as Hopt.
      { destruct c as [[] [] [] [] [] [] [] []]; try reflexivity. congruence. }
      rewrite filter_cons_True by exact Hopt. rewrite <- app_assoc.
      split; [|reflexivity]. f_equal.
      destruct c as [[] [] [] [] [] [] [] []]; try reflexivity. congruence.
Qed.

Lemma last_window_ok args : forall w,
  1 <= w.1 <= w.2 /\ w.2 < 2 ^ 31 ->
  1 <= (last_window args w).1 <= (last_window args w).2 /\
  (last_window args w).2 < 2 ^ 31.
Proof.
  induction args as [|a args IH]; intros w Hw; [exact Hw|].
  unfold last_window. cbn [foldl]. fold (last_window args). apply IH.
  destruct a as [|c a1]; [exact Hw|].
  destruct (Ascii.eqb_spec c "-"%char) as [->|Hc].
  - destruct a1 as [|c1 a2]; [exact Hw|].
    destruct (Ascii.eqb_spec c1 "h"%char) as [->|Hc1].
    + destruct (parse_h a2) as [m|[lo' hi']] eqn:Hp; [exact Hw|].
      pose proof (parse_h_accepted _ _ _ Hp). pose proof (parse_h_high _ _ _ Hp).
      simpl. lia.
    + destruct c1 as [[] [] [] [] [] [] [] []]; try exact Hw. congruence.
  - destruct c as [[] [] [] [] [] [] [] []]; try exact Hw. congruence.
Qed.

(** X7. When the argument loop accepts a command line, the operands are the
    arguments that do not start with ['-'], in their order, wherever the
    options stand among them, and the window is the one of the last option
    [-h] (the window in force before, when there is none); it satisfies
    [1 <= LOW <= HGH]. *)
Theorem parse_args_last_window_wins
  (F : string -> option message) (args : list string) (LOW HGH lo hi : Z)
  (ops : list string) :
  1 <= LOW <= HGH -> HGH < 2 ^ 31 ->
  parse_args F args LOW HGH [] = inr (lo, hi, ops) ->
  (lo, hi) = last_window args (LOW, HGH) /\
  ops = filter (fun a => is_option a = false) args /\
  1 <= lo <= hi /\ hi < 2 ^ 31.
Proof.
  intros HL HH H. apply parse_args_window in H as [Hw ->].
  split; [exact Hw|]. split; [reflexivity|].
  pose proof (last_window_ok args (LOW, HGH) ltac:(simpl; lia)) as Hok.
  rewrite <- Hw in Hok. exact Hok.
Qed.

Lemma parse_args_last_window_wins_witness :
  (1, 7) = last_window ["-h5"; "a"; "-h7"; "b"]%string (1, 100) /\
  ["a"; "b"]%string =
    filter (fun a => is_option a = false) ["-h5"; "a"; "-h7"; "b"]%string /\
  1 <= 1 <= 7 /\ 7 < 2 ^ 31.
Proof.
  apply (parse_args_last_window_wins (fun _ => None) ["-h5"; "a"; "-h7"; "b"]%string
           1 100 1 7 ["a"; "b"]%string); [lia | reflexivity | reflexivity].
Defined.

(* ===================================================================== *)
(** * [main]: tables that cannot be opened *)
(* ===================================================================== *)

Lemma open_streams_cannot_open Open K n post : forall pre k acc,
  (k = 0 \/ k = K) ->
  (forall m, m ∈ pre -> exists T, Open m = Some T /\ kmer T = K) ->
  Open n = None ->
  open_streams Open (pre ++ n :: post) k acc = inl (Msg_cannot_open n).
Proof.
  induction pre as [|m pre IH]; intros k acc Hk Hpre Hn; simpl.
  - rewrite Hn. reflexivity.
  - destruct (Hpre m ltac:(apply elem_of_cons; auto)) as (T & -> & HT).
    assert (forall m', m' ∈ pre -> exists T, Open m' = Some T /\ kmer T = K) as Hpre'.
    { intros m' Hm'. apply Hpre. apply elem_of_cons. auto. }
    destruct (Z.eqb_spec k 0) as [->|Hk0].
    + apply IH; auto.
    + destruct Hk as [Hk|Hk]; [contradiction|]. subst k.
      rewrite HT, Z.eqb_refl. simpl. apply IH; auto.
Qed.

(** X8. With at least two operands on an accepted command line, if the
    tables named before operand [n] can be opened and agree on the k-mer
    length but [n] cannot be opened, the program reports exactly that [n]
    cannot be opened and exits with status 1, having written no file. *)
Theorem main_reports_first_unopened_table
  (F : string -> option message) (Open : string -> option Kmer_Stream)
  (argv pre post : list string) (n : string) (K LOW HGH : Z) :
  parse_args F (tail argv) 1 100 [] = inr (LOW, HGH, pre ++ n :: post) ->
  (2 <= length (pre ++ n :: post))%nat ->
  (forall m, m ∈ pre -> exists T, Open m = Some T /\ kmer T = K) ->
  Open n = None ->
  main F Open argv = Exit 1 [Msg_cannot_open n] [].
Proof.
  intros Hparse Hlen Hpre Hn. unfold main. cbn [default_window fst snd].
  rewrite Hparse.
  replace (length (pre ++ n :: post) <? 2)%nat with false
    by (symmetry; apply Nat.ltb_ge; lia).
  unfold alloc_hist.
  rewrite (open_streams_cannot_open Open K n post pre 0 [] ltac:(auto) Hpre Hn).
  reflexivity.
Qed.

Lemma main_reports_first_unopened_table_witness :
  main (fun _ => None) ex_dir ["Vennex"; "x"; "nowhere"; "y"]%string =
    Exit 1 [Msg_cannot_open "nowhere"] [].
Proof.
  apply (main_reports_first_unopened_table (fun _ => None) ex_dir
           ["Vennex"; "x"; "nowhere"; "y"]%string ["x"%string] ["y"%string]
           "nowhere"%string 3 1 100).
  - reflexivity.
  - simpl. lia.
  - intros m Hm. apply list_elem_of_singleton in Hm. subst m.
    exists ex_A. split; reflexivity.
  - reflexivity.
Defined.

(* ===================================================================== *)
(** * [main]: the run as a whole *)
(* ===================================================================== *)

Lemma hist_update_length LOW HGH h c mem mem' :
  hist_update LOW HGH h c mem = Done mem' -> length mem' = length mem.
Proof.
  intros H. pose proof (hist_update_result LOW HGH h c mem) as R.
  rewrite H in R. exact R.
Qed.

Lemma Venn2_body_length LOW HGH kb s b s' :
  Venn2_body LOW HGH kb s = Done (b, s') -> length (v2_mem s') = length (v2_mem s).
Proof.
  intros H. destruct b.
  - apply Venn2_body_update in H as (e & _ & _ & H).
    exact (hist_update_length _ _ _ _ _ _ H).
  - destruct s as [Tv T U AminB BminA Inter iptr jptr mem log]. simpl in H.
    destruct iptr as [ip|]; [|injection H as <-; reflexivity].
    destruct jptr as [jp|]; [|injection H as <-; reflexivity].
    destruct (mycmp (ekey ip) (ekey jp) kb =? 0);
      [|destruct (mycmp (ekey ip) (ekey jp) kb <? 0)]; inv_done.
Qed.

Lemma Venn2_merge_length LOW HGH kb fuel : forall s s',
  Venn2_merge LOW HGH kb fuel s = Done s' -> length (v2_mem s') = length (v2_mem s).
Proof.
  induction fuel as [|fuel IH]; intros s s' H; [discriminate|].
  simpl in H. apply obind_done in H as ([b s1] & Hbody & H).
  apply Venn2_body_length in Hbody. destruct b.
  - rewrite (IH _ _ H). exact Hbody.
  - injection H as <-. exact Hbody.
Qed.

Lemma Venn2_drain_length LOW HGH fuel : forall s s',
  Venn2_drain LOW HGH fuel s = Done s' -> length (v2_mem s') = length (v2_mem s).
Proof.
  induction fuel as [|fuel IH]; intros s s' H; [discriminate|].
  simpl in H. apply obind_done in H as ([s1|] & Hbody & H).
  - rewrite (IH _ _ H).
    apply Venn2_drain_body_update in Hbody as (e & _ & _ & Hu).
    exact (hist_update_length _ _ _ _ _ _ Hu).
  - injection H as <-. reflexivity.
Qed.

Lemma Venn2_length LOW HGH Tv comb mem s :
  Venn2 LOW HGH Tv comb mem = Done s -> length (v2_mem s) = length mem.
Proof.
  unfold Venn2. intros H.
  apply obind_done in H as (T0 & _ & H).
  apply obind_done in H as (s0 & Hs0 & H).
  apply obind_done in H as (s1 & Hs1 & H).
  apply Venn2_drain_length in H. apply Venn2_merge_length in Hs1.
  rewrite H, Hs1. unfold Venn2_start in Hs0. inv_done. reflexivity.
Qed.

Lemma Venn_body_comb kb n s s' :
  Venn_body kb n s = Done (Some s') -> comb_le (vn_comb s) (vn_comb s').
Proof.
  destruct s as [T ptr comb mem log]. unfold Venn_body.
  intros H. apply obind_done in H as (c & _ & H).
  destruct (n <=? c)%nat; [discriminate|]. inv_done.
  unfold ptr_bump in Ha1. destruct (0 <=? z - 1); [|discriminate].
  apply obind_done in Ha1 as (p & Hp & Hq). injection Hq as <-.
  intros j c0 Hj. simpl.
  destruct (decide (j = Z.to_nat (z - 1))) as [->|Hne].
  - apply rd_done in Hp. rewrite Hp in Hj. injection Hj as <-.
    exists (p + 1). split; [|lia].
    apply list_lookup_insert_eq. exact (lookup_lt_Some _ _ _ Hp).
  - exists c0. split; [|lia]. rewrite list_lookup_insert_ne by congruence. exact Hj.
Qed.

Lemma Venn_loop_comb kb n fuel : forall s s',
  Venn_loop kb n fuel s = Done s' -> comb_le (vn_comb s) (vn_comb s').
Proof.
  induction fuel as [|fuel IH]; intros s s' H; [discriminate|].
  simpl in H. apply obind_done in H as ([s1|] & Hbody & H).
  - apply Venn_body_comb in Hbody. apply IH in H.
    intros j c Hj. destruct (Hbody j c Hj) as (c1 & Hj1 & Hle1).
    destruct (H j c1 Hj1) as (c2 & Hj2 & Hle2). exists c2. split; [exact Hj2 | lia].
  - injection H as <-. intros j c Hj. exists c. split; [exact Hj | lia].
Qed.

Lemma Venn_comb T comb nway mem s :
  Venn T comb nway mem = Done s -> comb_le comb (vn_comb s).
Proof.
  unfold Venn. intros H.
  apply obind_done in H as (T0 & _ & H).
  apply obind_done in H as ([T1 ptr] & _ & H).
  apply Venn_loop_comb in H. exact H.
Qed.

(** The second file cannot be written from a block that ends at or before
    the window of the second base pointer. *)
Lemma write_hists_second_outside kl LOW HGH upp low (comb mem : list Z) h1 k files :
  LOW <= HGH -> comb !! 1%nat = Some h1 -> Z.of_nat (length mem) <= h1 + LOW ->
  write_hists kl LOW HGH upp low comb mem 1 (S (S k)) = Done files -> False.
Proof.
  intros HL Hh1 Hout H. cbn [write_hists] in H.
  apply obind_done in H as (b0 & _ & H).
  apply obind_done in H as (cs0 & _ & H).
  apply obind_done in H as (fs & H & _).
  apply obind_done in H as (b1 & Hb1 & H).
  apply obind_done in H as (cs1 & Hcs & _).
  change (0 <=? 1 + 1 - 1) with true in Hb1. change (Z.to_nat (1 + 1 - 1)) with 1%nat in Hb1.
  rewrite (rd_lookup _ _ _ Hh1) in Hb1. injection Hb1 as <-.
  rewrite read_counters_outside in Hcs by lia. discriminate.
Qed.

(** X9. The program never ends with [exit (0)] after having stayed inside
    the counter block it allocated: with at most 30 operands, a run of
    [main] that exits does so with status 1 and has written no file.  (With
    two or more tables that can be opened, the output loop, if not the merge
    before it, goes beyond the one window of counters that was allocated.) *)
Theorem main_never_exits_0
  (F : string -> option message) (Open : string -> option Kmer_Stream)
  (argv : list string) (code : Z) (err : list message)
  (files : list (string * list word)) :
  (length (operands argv) <= 30)%nat ->
  main F Open argv = Exit code err files -> code = 1 /\ files = [].
Proof.
  intros Hops. unfold main. cbn [default_window fst snd].
  destruct (parse_args F (tail argv) 1 100 []) as [m|[[LOW HGH] ops]] eqn:Hp.
  { intros H. injection H as <- _ <-. auto. }
  destruct (parse_args_window _ _ _ _ _ _ _ _ Hp) as [Hw Hops'].
  pose proof (last_window_ok (tail argv) (1, 100) ltac:(simpl; lia)) as Hok.
  rewrite <- Hw in Hok. cbn [fst snd] in Hok. destruct Hok as [HL HH].
  simpl in Hops'. fold (operands argv) in Hops'. subst ops.
  destruct (length (operands argv) <? 2)%nat eqn:Hn.
  { intros H. injection H as <- _ <-. auto. }
  apply Nat.ltb_ge in Hn.
  pose proof (alloc_hist_length (Z.of_nat (length (operands argv))) LOW HGH HL HH) as Hlen.
  destruct (alloc_hist_comb (Z.of_nat (length (operands argv))) LOW HGH
              ltac:(lia) HL HH) as [Hclen Hcomb].
  assert (4 <= 2 ^ Z.of_nat (length (operands argv))) as Hpow.
  { change 4 with (2 ^ 2). apply Z.pow_le_mono_r; lia. }
  specialize (Hcomb 1%nat ltac:(lia)).
  rewrite shiftl_1_int by lia.
  destruct (alloc_hist (Z.of_nat (length (operands argv))) LOW HGH) as [hist comb].
  cbn [fst snd] in Hlen, Hclen, Hcomb.
  destruct (open_streams Open (operands argv) 0 []) as [m|[T k]].
  { intros H. injection H as <- _ <-. auto. }
  match goal with
  | |- match ?r with _ => _ end = _ -> _ => destruct r as [fs| |] eqn:Hrun
  end; [|discriminate..].
  exfalso. apply obind_done in Hrun as ([comb' mem'] & Hm & Hwr).
  assert (exists k', Z.to_nat (2 ^ Z.of_nat (length (operands argv)) - 1) = S (S k'))
    as [k' Hk'].
  { exists (Z.to_nat (2 ^ Z.of_nat (length (operands argv)) - 1) - 2)%nat. lia. }
  rewrite Hk' in Hwr.
  destruct (length (operands argv) =? 2)%nat.
  - apply obind_done in Hm as (s & Hs & Hd). injection Hd as <- <-.
    apply Venn2_length in Hs.
    apply (write_hists_second_outside _ _ _ _ _ _ _ _ _ _ (proj2 HL) Hcomb) in Hwr;
      [exact Hwr | lia].
  - apply obind_done in Hm as (s & Hs & Hd). injection Hd as <- <-.
    pose proof (Venn_mem _ _ _ _ _ Hs) as Hmem. rewrite Hmem in Hwr.
    destruct (Venn_comb _ _ _ _ _ Hs 1%nat _ Hcomb) as (c' & Hc' & Hle).
    apply (write_hists_second_outside _ _ _ _ _ _ _ _ _ _ (proj2 HL) Hc') in Hwr;
      [exact Hwr | lia].
Qed.

Lemma main_never_exits_0_witness :
  main (fun _ => None) ex_open ["Vennex"; "a"; "b"]%string = Exit 1 [Msg_different_K] [] /\
  (1 = 1 /\ @nil (string * list word) = []).
Proof.
  split; [reflexivity|].
  apply (main_never_exits_0 (fun _ => None) ex_open ["Vennex"; "a"; "b"]%string
           1 [Msg_different_K] []); [vm_compute; lia | reflexivity].
Defined.

(* ===================================================================== *)
(** * The histograms [Venn2] computes *)
(* ===================================================================== *)

Lemma hist_update_clamp LOW HGH h c mem :
  hist_update LOW HGH h c mem = hist_add h (clamp LOW HGH c) mem.
Proof.
  unfold hist_update, clamp.
  destruct (c <=? LOW); [reflexivity|]. destruct (c >=? HGH); reflexivity.
Qed.

Lemma filter_ext_elem {A : Type} (P Q : A -> Prop) `{!forall x, Decision (P x)}
  `{!forall x, Decision (Q x)} (l : list A) :
  (forall x, x ∈ l -> (P x <-> Q x)) -> filter P l = filter Q l.
Proof.
  induction l as [|x l IH]; intros Hext; [reflexivity|].
  assert (filter P l = filter Q l) as IH'.
  { apply IH. intros y Hy. apply Hext. apply elem_of_cons. auto. }
  pose proof (Hext x ltac:(apply elem_of_cons; auto)) as Hx.
  destruct (decide (P x)) as [HP|HP].
  - rewrite !filter_cons_True by tauto. rewrite IH'. reflexivity.
  - rewrite !filter_cons_False by tauto. exact IH'.
Qed.

Lemma keys_of_cons e l : keys_of (e :: l) = {[ekey e]} ∪ keys_of l.
Proof. reflexivity. Qed.

Lemma counts_only_skip A b B :
  (forall e, e ∈ A -> ekey e <> ekey b) -> counts_only A (b :: B) = counts_only A B.
Proof.
  intros H. unfold counts_only. f_equal. apply filter_ext_elem.
  intros e He. rewrite keys_of_cons. specialize (H e He).
  split; intros Hn Hin; apply Hn.
  - apply elem_of_union. right. exact Hin.
  - apply elem_of_union in Hin as [Hin|Hin]; [|exact Hin].
    apply elem_of_singleton in Hin. contradiction.
Qed.

Lemma counts_only_cons_in a A B :
  ekey a ∈ keys_of B -> counts_only (a :: A) B = counts_only A B.
Proof.
  intros H. unfold counts_only. rewrite filter_cons_False by tauto. reflexivity.
Qed.

Lemma counts_only_cons_out a A B :
  ekey a ∉ keys_of B -> counts_only (a :: A) B = ecount a :: counts_only A B.
Proof.
  intros H. unfold counts_only. rewrite filter_cons_True by exact H. reflexivity.
Qed.

Lemma counts_only_nil_r A : counts_only A [] = ecount <$> A.
Proof.
  unfold counts_only. f_equal. induction A as [|a A IH]; [reflexivity|].
  rewrite filter_cons_True by apply not_elem_of_empty. rewrite IH. reflexivity.
Qed.

Lemma matches_none a B : (forall e, e ∈ B -> ekey a <> ekey e) -> matches a B = [].
Proof.
  induction B as [|b B IH]; intros H; [reflexivity|]. simpl.
  rewrite bool_decide_eq_false_2 by (apply H; apply elem_of_cons; auto).
  apply IH. intros e He. apply H. apply elem_of_cons. auto.
Qed.

Lemma counts_both_skip A b B :
  (forall e, e ∈ A -> ekey e <> ekey b) -> counts_both A (b :: B) = counts_both A B.
Proof.
  induction A as [|a A IH]; intros H; [reflexivity|]. simpl.
  rewrite bool_decide_eq_false_2 by (apply H; apply elem_of_cons; auto).
  rewrite IH; [reflexivity|]. intros e He. apply H. apply elem_of_cons. auto.
Qed.

Lemma counts_both_nil_r A : counts_both A [] = [].
Proof. induction A as [|a A IH]; [reflexivity|]. simpl. exact IH. Qed.

Section Venn2Targets.

Variables LOW HGH kb hA hB hI : Z.

Lemma key_not_in (k : list Z) (l : list Entry) :
  (forall e, e ∈ l -> k <> ekey e) -> k ∉ keys_of l.
Proof.
  intros H Hin. apply elem_of_keys_of in Hin as (e & He & Hk).
  exact (H e He (eq_sym Hk)).
Qed.

(** Both tables start with the same key. *)
Lemma targets_eq a ra b rb :
  sorted_keys kb (a :: ra) -> sorted_keys kb (b :: rb) -> ekey a = ekey b ->
  venn2_targets LOW HGH hA hB hI (a :: ra) (b :: rb) ≡ₚ
    (hI + clamp LOW HGH (Z.min (ecount a) (ecount b))) :: venn2_targets LOW HGH hA hB hI ra rb.
Proof.
  intros HsA HsB Hk.
  destruct (sorted_keys_cons_inv _ _ _ HsA) as (HlenA & _ & HltA).
  destruct (sorted_keys_cons_inv _ _ _ HsB) as (HlenB & _ & HltB).
  assert (forall e, e ∈ ra -> ekey e <> ekey b) as Hra.
  { intros e He Heq. rewrite <- Hk in Heq.
    exact (cmp_lt_ne kb _ _ HlenA (HltA e He) (eq_sym Heq)). }
  assert (forall e, e ∈ rb -> ekey e <> ekey a) as Hrb.
  { intros e He Heq. rewrite Hk in Heq.
    exact (cmp_lt_ne kb _ _ HlenB (HltB e He) (eq_sym Heq)). }
  unfold venn2_targets.
  rewrite (counts_only_cons_in a ra (b :: rb))
    by (apply elem_of_keys_of; exists b; split; [apply elem_of_cons|]; auto).
  rewrite (counts_only_cons_in b rb (a :: ra))
    by (apply elem_of_keys_of; exists a; split; [apply elem_of_cons|]; auto).
  rewrite (counts_only_skip ra b rb Hra), (counts_only_skip rb a ra Hrb).
  cbn [counts_both matches]. rewrite bool_decide_eq_true_2 by exact Hk.
  rewrite (matches_none a rb) by (intros e He Heq; exact (Hrb e He (eq_sym Heq))).
  rewrite (counts_both_skip ra b rb Hra). simpl.
  rewrite <- !Permutation_middle. reflexivity.
Qed.

(** The first key of [A] is below the first key of [B]. *)
Lemma targets_lt a ra b rb :
  sorted_keys kb (a :: ra) -> sorted_keys kb (b :: rb) ->
  mycmp (ekey a) (ekey b) kb < 0 ->
  venn2_targets LOW HGH hA hB hI (a :: ra) (b :: rb) ≡ₚ (hA + clamp LOW HGH (ecount a)) :: venn2_targets LOW HGH hA hB hI ra (b :: rb).
Proof.
  intros HsA HsB Hlt.
  destruct (sorted_keys_cons_inv _ _ _ HsA) as (HlenA & _ & HltA).
  destruct (sorted_keys_cons_inv _ _ _ HsB) as (HlenB & _ & HltB).
  assert (forall e, e ∈ b :: rb -> ekey e <> ekey a) as Hb.
  { intros e He Heq. symmetry in Heq. revert Heq. apply (cmp_lt_ne kb); [exact HlenA|].
    apply elem_of_cons in He as [->|He]; [exact Hlt|].
    apply (cmp_le_lt kb _ (ekey b)); auto; [|lia].
    apply (proj1 HsB). apply elem_of_cons. auto. }
  unfold venn2_targets.
  rewrite (counts_only_cons_out a ra (b :: rb))
    by (apply key_not_in; intros e He Heq; exact (Hb e He (eq_sym Heq))).
  rewrite (counts_only_skip (b :: rb) a ra Hb).
  cbn [counts_both].
  rewrite (matches_none a (b :: rb)) by (intros e He Heq; exact (Hb e He (eq_sym Heq))).
  reflexivity.
Qed.

(** The first key of [B] is below the first key of [A]. *)
Lemma targets_gt a ra b rb :
  sorted_keys kb (a :: ra) -> sorted_keys kb (b :: rb) ->
  mycmp (ekey b) (ekey a) kb < 0 ->
  venn2_targets LOW HGH hA hB hI (a :: ra) (b :: rb) ≡ₚ (hB + clamp LOW HGH (ecount b)) :: venn2_targets LOW HGH hA hB hI (a :: ra) rb.
Proof.
  intros HsA HsB Hlt.
  destruct (sorted_keys_cons_inv _ _ _ HsA) as (HlenA & _ & HltA).
  destruct (sorted_keys_cons_inv _ _ _ HsB) as (HlenB & _ & HltB).
  assert (forall e, e ∈ a :: ra -> ekey e <> ekey b) as Ha.
  { intros e He Heq. symmetry in Heq. revert Heq. apply (cmp_lt_ne kb); [exact HlenB|].
    apply elem_of_cons in He as [->|He]; [exact Hlt|].
    apply (cmp_le_lt kb _ (ekey a)); auto; [|lia].
    apply (proj1 HsA). apply elem_of_cons. auto. }
  unfold venn2_targets.
  rewrite (counts_only_cons_out b rb (a :: ra))
    by (apply key_not_in; intros e He Heq; exact (Ha e He (eq_sym Heq))).
  rewrite (counts_only_skip (a :: ra) b rb Ha).
  rewrite (counts_both_skip (a :: ra) b rb Ha). simpl.
  rewrite <- Permutation_middle. reflexivity.
Qed.

Lemma targets_nil_l rb :
  venn2_targets LOW HGH hA hB hI [] rb = (fun c => hB + clamp LOW HGH c) <$> (ecount <$> rb).
Proof. unfold venn2_targets. rewrite counts_only_nil_r. simpl. apply app_nil_r. Qed.

Lemma targets_nil_r ra :
  venn2_targets LOW HGH hA hB hI ra [] = (fun c => hA + clamp LOW HGH c) <$> (ecount <$> ra).
Proof.
  unfold venn2_targets. rewrite counts_only_nil_r, counts_both_nil_r. simpl.
  apply app_nil_r.
Qed.

End Venn2Targets.

(** The updates of the compare loop, and those still owed to what is left
    of the two tables, are the updates owed to the tables the loop started
    on. *)
Lemma Venn2_merge_targets LOW HGH kb hA hB hI : forall fuel TA TB mem log s',
  sorted_keys kb (table TA) -> sorted_keys kb (table TB) ->
  Venn2_merge LOW HGH kb fuel
    (mkV2 [TA; TB] 0 1 hA hB hI (current TA) (current TB) mem log) = Done s' ->
  exists TA' TB' L,
    v2_Tv s' = [TA'; TB'] /\ v2_log s' = log ++ L /\
    log_targets LOW HGH L ++
      venn2_targets LOW HGH hA hB hI (remaining TA') (remaining TB') ≡ₚ
    venn2_targets LOW HGH hA hB hI (remaining TA) (remaining TB).
Proof.
  induction fuel as [|fuel IH]; intros TA TB mem log s' HsA HsB; [discriminate|].
  pose proof (remaining_sorted kb TA HsA) as HrA.
  pose proof (remaining_sorted kb TB HsB) as HrB.
  simpl.
  destruct (remaining TA) as [|a ra] eqn:HremA.
  { rewrite (remaining_nil_current TA HremA). simpl. intros H. injection H as <-.
    exists TA, TB, []. simpl. rewrite app_nil_r, HremA. auto. }
  pose proof (remaining_cons_current TA a ra HremA) as HcA. rewrite HcA.
  destruct (remaining TB) as [|b rb] eqn:HremB.
  { rewrite (remaining_nil_current TB HremB). simpl. intros H. injection H as <-.
    exists TA, TB, []. simpl. rewrite app_nil_r, HremA, HremB. auto. }
  rewrite (remaining_cons_current TB b rb HremB).
  destruct (sorted_keys_cons_inv _ _ _ HrA) as (HlenA & _ & HltA).
  destruct (sorted_keys_cons_inv _ _ _ HrB) as (HlenB & _ & HltB).
  assert (HadvA : remaining (adv TA) = ra) by (rewrite remaining_adv, HremA; reflexivity).
  assert (HadvB : remaining (adv TB) = rb) by (rewrite remaining_adv, HremB; reflexivity).
  unfold next_in. simpl. unfold COUNT_OF. rewrite min_by_test.
  fold (adv TA). fold (adv TB).
  destruct (Z.eqb_spec (mycmp (ekey a) (ekey b) kb) 0) as [Hz|Hnz].
  - apply mycmp_loop_zero in Hz; [|assumption..].
    intros H. apply obind_done in H as ([b1 s1] & Hb & H).
      apply obind_done in Hb as (mem' & Hu & Hb). injection Hb as <- <-.
    apply (IH (adv TA) (adv TB)) in H; [|assumption..].
    destruct H as (TA' & TB' & L & HTv & Hlog & Hperm).
    rewrite HadvA, HadvB in Hperm.
    exists TA', TB', (mkEv Compare hI (Z.min (ecount a) (ecount b))
                        [(0%nat, a); (1%nat, b)] :: L).
    split; [exact HTv|]. split; [rewrite Hlog, <- app_assoc; reflexivity|].
    rewrite (targets_eq LOW HGH kb hA hB hI a ra b rb HrA HrB Hz).
    cbn [log_targets fmap list_fmap ev_hist ev_count app]. fold (log_targets LOW HGH L).
    rewrite Hperm. reflexivity.
  - destruct (Z.ltb_spec (mycmp (ekey a) (ekey b) kb) 0) as [Hlt|Hge].
    + intros H. apply obind_done in H as ([b1 s1] & Hb & H).
      apply obind_done in Hb as (mem' & Hu & Hb). injection Hb as <- <-.
      rewrite <- (remaining_cons_current TB b rb HremB) in H.
      apply (IH (adv TA) TB) in H; [|assumption..].
      destruct H as (TA' & TB' & L & HTv & Hlog & Hperm).
      rewrite HadvA, HremB in Hperm.
      exists TA', TB', (mkEv Compare hA (ecount a) [(0%nat, a)] :: L).
      split; [exact HTv|]. split; [rewrite Hlog, <- app_assoc; reflexivity|].
      rewrite (targets_lt LOW HGH kb hA hB hI a ra b rb HrA HrB Hlt).
      cbn [log_targets fmap list_fmap ev_hist ev_count app]. fold (log_targets LOW HGH L).
      rewrite Hperm. reflexivity.
    + assert (Hgt : mycmp (ekey b) (ekey a) kb < 0).
      { unfold mycmp in *. rewrite mycmp_loop_flip. lia. }
      intros H. apply obind_done in H as ([b1 s1] & Hb & H).
      apply obind_done in Hb as (mem' & Hu & Hb). injection Hb as <- <-.
      rewrite <- HcA in H.
      apply (IH TA (adv TB)) in H; [|assumption..].
      destruct H as (TA' & TB' & L & HTv & Hlog & Hperm).
      rewrite HadvB, HremA in Hperm.
      exists TA', TB', (mkEv Compare hB (ecount b) [(1%nat, b)] :: L).
      split; [exact HTv|]. split; [rewrite Hlog, <- app_assoc; reflexivity|].
      rewrite (targets_gt LOW HGH kb hA hB hI a ra b rb HrA HrB Hgt).
      cbn [log_targets fmap list_fmap ev_hist ev_count app]. fold (log_targets LOW HGH L).
      rewrite Hperm. reflexivity.
Qed.

Lemma int64_of_range z : is_int64 (int64_of z).
Proof.
  unfold is_int64, int64_of.
  assert (0 < 2 ^ 64) by (apply Z.pow_pos_nonneg; lia).
  pose proof (Z.mod_pos_bound (z + 2 ^ 63) (2 ^ 64) ltac:(lia)).
  change (2 ^ 64) with (2 * 2 ^ 63) in *. lia.
Qed.

Lemma int64_of_small z : is_int64 z -> int64_of z = z.
Proof.
  unfold is_int64, int64_of. intros H.
  change (2 ^ 64) with (2 * 2 ^ 63). rewrite Z.mod_small; lia.
Qed.

Lemma int64_of_add x y : int64_of (int64_of x + y) = int64_of (x + y).
Proof.
  unfold int64_of. f_equal.
  replace ((x + 2 ^ 63) mod 2 ^ 64 - 2 ^ 63 + y + 2 ^ 63)
    with ((x + 2 ^ 63) mod 2 ^ 64 + y) by lia.
  rewrite Z.add_mod_idemp_l by (apply Z.pow_nonzero; lia). f_equal. lia.
Qed.

(** Replaying a log adds to every counter the number of updates that fall
    on it. *)
Lemma replay_counts LOW HGH L : forall mem mem',
  replay LOW HGH L mem = Done mem' -> Forall is_int64 mem ->
  forall (n : nat) v, mem !! n = Some v ->
    mem' !! n =
      Some (int64_of (v + Z.of_nat (length (filter (fun t => t = Z.of_nat n)
                                                   (log_targets LOW HGH L))))).
Proof.
  induction L as [|ev L IH]; intros mem mem' H Hint n v Hn.
  - simpl in H. injection H as <-. simpl. rewrite Z.add_0_r, int64_of_small; [exact Hn|].
    exact (proj1 (Forall_lookup _ _) Hint n v Hn).
  - simpl in H. apply obind_done in H as (mem1 & Hu & H).
    rewrite hist_update_clamp in Hu. apply hist_add_done in Hu.
    destruct Hu as (Hin & Hlen & Hat & Hother).
    assert (Forall is_int64 mem1) as Hint1.
    { apply Forall_lookup. intros i x Hi.
      destruct (decide (i = Z.to_nat (ev_hist ev + clamp LOW HGH (ev_count ev)))) as [->|Hne].
      - destruct (lookup_lt_is_Some_2 mem
                    (Z.to_nat (ev_hist ev + clamp LOW HGH (ev_count ev))) ltac:(lia))
          as [v0 Hv0].
        rewrite (Hat v0 Hv0) in Hi. injection Hi as <-. apply int64_of_range.
      - rewrite (Hother i Hne) in Hi. exact (proj1 (Forall_lookup _ _) Hint i x Hi). }
    cbn [log_targets fmap list_fmap]. fold (log_targets LOW HGH L).
    destruct (decide (ev_hist ev + clamp LOW HGH (ev_count ev) = Z.of_nat n)) as [Heq|Hne].
    + rewrite filter_cons_True by exact Heq.
      assert (Z.to_nat (ev_hist ev + clamp LOW HGH (ev_count ev)) = n) as Hn' by lia.
      rewrite Hn' in Hat.
      rewrite (IH mem1 mem' H Hint1 n _ (Hat v Hn)).
      rewrite int64_of_add. f_equal. f_equal. cbn [length]. lia.
    + rewrite filter_cons_False by exact Hne.
      assert (n <> Z.to_nat (ev_hist ev + clamp LOW HGH (ev_count ev))) as Hn' by lia.
      apply (IH mem1 mem' H Hint1 n v). rewrite (Hother n Hn'). exact Hn.
Qed.

Lemma log_targets_drain LOW HGH h T r :
  log_targets LOW HGH (drain_events h T r) = (fun c => h + clamp LOW HGH c) <$> (ecount <$> r).
Proof.
  unfold log_targets, drain_events. rewrite <- !list_fmap_compose. reflexivity.
Qed.

Local Opaque Venn2_merge Venn2_drain.

Lemma Venn2_log_targets LOW HGH A B comb mem hA hB hI s :
  sorted_keys (kbyte A) (table A) -> sorted_keys (kbyte A) (table B) ->
  comb !! 0%nat = Some hA -> comb !! 1%nat = Some hB -> comb !! 2%nat = Some hI ->
  Venn2 LOW HGH [A; B] comb mem = Done s ->
  log_targets LOW HGH (v2_log s) ≡ₚ venn2_targets LOW HGH hA hB hI (table A) (table B).
Proof.
  intros HsA HsB HcA HcB HcI. unfold Venn2, Venn2_start. simpl.
  rewrite (rd_lookup _ _ _ HcA), (rd_lookup _ _ _ HcB), (rd_lookup _ _ _ HcI). simpl.
  fold (rewind A). fold (rewind B).
  pose proof (Venn2_merge_spec LOW HGH (kbyte A) hA hB hI
                (S (length (table A) + (length (table B) + 0)))
                (rewind A) (rewind B) mem [] HsA HsB) as Hmerge.
  rewrite !remaining_rewind in Hmerge. specialize (Hmerge ltac:(lia)).
  destruct (Venn2_merge _ _ _ _ _) as [s1| |] eqn:Hm; simpl; [|discriminate..].
  destruct (Venn2_merge_targets LOW HGH (kbyte A) hA hB hI _ (rewind A) (rewind B)
              _ _ _ HsA HsB Hm)
    as (TA1 & TB1 & L1 & HTv1 & Hlog1 & Hperm).
  rewrite !remaining_rewind in Hperm.
  destruct Hmerge as (TA' & TB' & Lc & HTv & HtA & HtB & Hlog & Hph & Hrep & Hlen & Hend
                      & HuA & HuB & Hinter).
  rewrite HTv in HTv1. injection HTv1 as <- <-.
  rewrite Hlog in Hlog1. simpl in Hlog1. subst L1.
  destruct s1 as [Tv1 T1 U1 a1 b1 i1 ip1 jp1 mem1 log1]. simpl in *. subst Tv1 log1.
  assert (HlA : (length (remaining TA') <= length (table A))%nat).
  { rewrite <- HuA, length_app. lia. }
  assert (HlB : (length (remaining TB') <= length (table B))%nat).
  { rewrite <- HuB, length_app. lia. }
  destruct Hend as [(HremA & -> & -> & ->) | (HremB & -> & -> & ->)].
  - pose proof (Venn2_drain_spec LOW HGH
                  (S (length (table A) + (length (table B) + 0)))
                  [TA'; TB'] 1 U1 hB b1 i1 jp1 mem1 Lc TB' eq_refl ltac:(lia)) as Hdrain.
    intros Hd. rewrite Hd in Hdrain.
    destruct Hdrain as (TB2 & HTv2 & HtB2 & HremB2 & Hlog2 & Hrep2 & Hlen2).
    rewrite Hlog2. unfold log_targets at 1. rewrite fmap_app.
    fold (log_targets LOW HGH Lc). fold (log_targets LOW HGH (drain_events hB 1 (remaining TB'))).
    rewrite log_targets_drain. rewrite HremA, targets_nil_l in Hperm. exact Hperm.
  - pose proof (Venn2_drain_spec LOW HGH
                  (S (length (table A) + (length (table B) + 0)))
                  [TA'; TB'] 0 U1 hA b1 i1 jp1 mem1 Lc TA' eq_refl ltac:(lia)) as Hdrain.
    intros Hd. rewrite Hd in Hdrain.
    destruct Hdrain as (TA2 & HTv2 & HtA2 & HremA2 & Hlog2 & Hrep2 & Hlen2).
    rewrite Hlog2. unfold log_targets at 1. rewrite fmap_app.
    fold (log_targets LOW HGH Lc). fold (log_targets LOW HGH (drain_events hA 0 (remaining TA'))).
    rewrite log_targets_drain. rewrite HremB, targets_nil_r in Hperm. exact Hperm.
Qed.

Local Transparent Venn2_merge Venn2_drain.

Lemma filter_fmap_length (f : Z -> Z) (a : Z) (cs : list Z) :
  length (filter (fun t => t = a) (f <$> cs)) = length (filter (fun c => f c = a) cs).
Proof.
  induction cs as [|c cs IH]; [reflexivity|]. cbn [fmap list_fmap].
  destruct (decide (f c = a)) as [H|H].
  - rewrite !filter_cons_True by exact H. simpl. rewrite <- IH. reflexivity.
  - rewrite !filter_cons_False by exact H. exact IH.
Qed.

(** X10. What [Venn2] computes.  For two sorted tables and three histograms
    that lie inside the counter block, [Venn2] returns, and every counter of
    the block has grown (in 64-bit arithmetic) by the number of counts that
    fall on it: through [A-B] the counts of the keys only in [A], through
    [B-A] those of the keys only in [B], and through the intersection, for
    every common key, the smaller of its two counts; each count is counted in
    the bin it is clamped to. *)
Theorem Venn2_histograms
  (LOW HGH : Z) (A B : Kmer_Stream) (comb mem : list Z) (hA hB hI : Z) :
  table_ok (kbyte A) (table A) = true -> table_ok (kbyte A) (table B) = true ->
  comb !! 0%nat = Some hA -> comb !! 1%nat = Some hB -> comb !! 2%nat = Some hI ->
  LOW <= HGH ->
  hist_inside LOW HGH (length mem) hA -> hist_inside LOW HGH (length mem) hB ->
  hist_inside LOW HGH (length mem) hI ->
  Forall is_int64 mem ->
  exists s,
    Venn2 LOW HGH [A; B] comb mem = Done s /\
    length (v2_mem s) = length mem /\
    forall (n : nat) v, mem !! n = Some v ->
      v2_mem s !! n =
        Some (int64_of
                (v + Z.of_nat
                       (binned LOW HGH hA (counts_only (table A) (table B)) (Z.of_nat n) +
                        binned LOW HGH hB (counts_only (table B) (table A)) (Z.of_nat n) +
                        binned LOW HGH hI (counts_both (table A) (table B)) (Z.of_nat n)))).
Proof.
  intros HtA HtB HcA HcB HcI HL HiA HiB HiI Hint.
  apply table_ok_sorted in HtA. apply table_ok_sorted in HtB.
  pose proof (Venn2_spec LOW HGH A B comb mem hA hB hI HtA HtB HcA HcB HcI) as Hspec.
  destruct (Venn2 LOW HGH [A; B] comb mem) as [s| |] eqn:Hrun; [|tauto|contradiction].
  exists s. split; [reflexivity|].
  pose proof (Venn2_log_targets LOW HGH A B comb mem hA hB hI s HtA HtB HcA HcB HcI Hrun)
    as Hperm.
  destruct Hspec as (A' & B' & Lc & Ld & _ & _ & _ & _ & _ & Hlog & _ & _ & Hrep & Hlen & _).
  split; [exact Hlen|].
  intros n v Hn. rewrite <- Hlog in Hrep.
  rewrite (replay_counts LOW HGH (v2_log s) mem (v2_mem s) Hrep Hint n v Hn).
  rewrite Hperm. unfold venn2_targets.
  rewrite !filter_app, !length_app, !filter_fmap_length. unfold binned.
  do 3 f_equal. lia.
Qed.

Lemma Venn2_histograms_witness :
  exists s,
    Venn2 1 8 [ex_A; ex_B] [-1; 7; 15] (replicate 24 0) = Done s /\
    length (v2_mem s) = length (replicate 24 0) /\
    forall (n : nat) v, replicate 24 0 !! n = Some v ->
      v2_mem s !! n =
        Some (int64_of
                (v + Z.of_nat
                       (binned 1 8 (-1) (counts_only (table ex_A) (table ex_B)) (Z.of_nat n) +
                        binned 1 8 7 (counts_only (table ex_B) (table ex_A)) (Z.of_nat n) +
                        binned 1 8 15 (counts_both (table ex_A) (table ex_B)) (Z.of_nat n)))).
Proof.
  apply (Venn2_histograms 1 8 ex_A ex_B [-1; 7; 15] (replicate 24 0) (-1) 7 15);
    try reflexivity; try lia;
    try (intros bin Hbin; simpl; lia).
  apply Forall_replicate. unfold is_int64. lia.
Defined.

(* ===================================================================== *)
(** * The totals of the histograms of [Venn2] *)
(* ===================================================================== *)

Lemma clamp_range LOW HGH c : LOW <= HGH -> LOW <= clamp LOW HGH c <= HGH.
Proof.
  intros H. unfold clamp.
  destruct (Z.leb_spec c LOW); [lia|]. destruct (Z.geb_spec c HGH); lia.
Qed.

Lemma binned_cons LOW HGH h c cs a :
  binned LOW HGH h (c :: cs) a =
    ((if decide (h + clamp LOW HGH c = a)%Z then 1 else 0) + binned LOW HGH h cs a)%nat.
Proof.
  unfold binned. destruct (decide (h + clamp LOW HGH c = a)) as [H|H].
  - rewrite filter_cons_True by exact H. reflexivity.
  - rewrite filter_cons_False by exact H. reflexivity.
Qed.

Lemma binned_le LOW HGH h cs a : (binned LOW HGH h cs a <= length cs)%nat.
Proof. unfold binned. apply length_filter. Qed.

Lemma binned_outside LOW HGH h cs a :
  LOW <= HGH -> a < h + LOW \/ h + HGH < a -> binned LOW HGH h cs a = 0%nat.
Proof.
  intros HL Ha. induction cs as [|c cs IH]; [reflexivity|].
  rewrite binned_cons, IH. pose proof (clamp_range LOW HGH c HL).
  destruct (decide _); [lia | reflexivity].
Qed.

Lemma sum_fmap_add (f g : nat -> nat) (l : list nat) :
  foldr Nat.add 0%nat ((fun t => (f t + g t)%nat) <$> l) =
    (foldr Nat.add 0%nat (f <$> l) + foldr Nat.add 0%nat (g <$> l))%nat.
Proof.
  induction l as [|t l IH]; [reflexivity|].
  rewrite !fmap_cons. cbn [foldr]. rewrite IH. lia.
Qed.

Lemma sum_indicator (P : nat -> Prop) `{!forall t, Decision (P t)} (x : nat) :
  forall w s,
    (forall t, P t <-> t = x) ->
    foldr Nat.add 0%nat ((fun t => if decide (P t) then 1%nat else 0%nat) <$> seq s w) =
      if decide (s <= x < s + w)%nat then 1%nat else 0%nat.
Proof.
  induction w as [|w IH]; intros s HP.
  - simpl. destruct (decide _); [lia | reflexivity].
  - cbn [seq fmap list_fmap foldr]. rewrite (IH (S s) HP).
    destruct (decide (P s)) as [Hs|Hs].
    + apply HP in Hs. subst x. destruct (decide (S s <= s < S s + w)%nat); [lia|].
      destruct (decide (s <= s < s + S w)%nat); [reflexivity | lia].
    + assert (s <> x) by (intros ->; apply Hs, HP; reflexivity).
      destruct (decide (S s <= x < S s + w)%nat);
        destruct (decide (s <= x < s + S w)%nat); try reflexivity; lia.
Qed.

(** Every count falls on exactly one counter of the window. *)
Lemma binned_total LOW HGH h cs :
  LOW <= HGH ->
  foldr Nat.add 0%nat
        ((fun t => binned LOW HGH h cs (h + LOW + Z.of_nat t)) <$>
           seq 0 (Z.to_nat (HGH - LOW + 1))) = length cs.
Proof.
  intros HL. induction cs as [|c cs IH].
  - simpl. induction (seq 0 (Z.to_nat (HGH - LOW + 1))) as [|t l IHl]; [reflexivity|].
    simpl. exact IHl.
  - rewrite (list_fmap_ext _ (fun t =>
               ((if decide (h + clamp LOW HGH c = h + LOW + Z.of_nat t)%Z then 1 else 0) +
                binned LOW HGH h cs (h + LOW + Z.of_nat t)%Z)%nat))
      by (intros; apply binned_cons).
    rewrite sum_fmap_add, IH.
    pose proof (clamp_range LOW HGH c HL) as Hc.
    rewrite (sum_indicator _ (Z.to_nat (clamp LOW HGH c - LOW))) by (intros t; lia).
    destruct (decide _); [reflexivity | lia].
Qed.

Lemma matches_length_le kb a B :
  sorted_keys kb B -> (length (matches a B) <= 1)%nat.
Proof.
  induction B as [|b B IH]; intros Hs; [simpl; lia|].
  destruct (sorted_keys_cons_inv _ _ _ Hs) as (Hlen & Hs' & Hlt).
  simpl. destruct (bool_decide (ekey a = ekey b)) eqn:Hab.
  - apply bool_decide_eq_true in Hab. rewrite matches_none; [simpl; lia|].
    intros e He Heq. rewrite Hab in Heq.
    exact (cmp_lt_ne kb _ _ Hlen (Hlt e He) Heq).
  - simpl. exact (IH Hs').
Qed.

Lemma counts_both_length_le kb A B :
  sorted_keys kb B -> (length (counts_both A B) <= length A)%nat.
Proof.
  intros Hs. induction A as [|a A IH]; [simpl; lia|].
  simpl. rewrite length_app. pose proof (matches_length_le kb a B Hs). lia.
Qed.

Lemma counts_only_length_le A B : (length (counts_only A B) <= length A)%nat.
Proof. unfold counts_only. rewrite length_fmap. apply length_filter. Qed.

(** The sum of a window whose counters are given by [f]. *)
Lemma window_sum_counters LOW HGH h (mem : list Z) (f : nat -> nat) :
  0 <= h + LOW ->
  (forall t, (t < Z.to_nat (HGH - LOW + 1))%nat ->
     mem !! (Z.to_nat (h + LOW) + t)%nat = Some (Z.of_nat (f t))) ->
  window_sum LOW HGH h mem =
    Z.of_nat (foldr Nat.add 0%nat (f <$> seq 0 (Z.to_nat (HGH - LOW + 1)))).
Proof.
  intros Hh Hf. unfold window_sum.
  assert (take (Z.to_nat (HGH - LOW + 1)) (drop (Z.to_nat (h + LOW)) mem) =
          (fun t => Z.of_nat (f t)) <$> seq 0 (Z.to_nat (HGH - LOW + 1))) as ->.
  { apply list_eq. intros t.
    destruct (decide (t < Z.to_nat (HGH - LOW + 1))%nat) as [Ht|Ht].
    - rewrite lookup_take_lt, lookup_drop by exact Ht. rewrite (Hf t Ht).
      rewrite list_lookup_fmap, lookup_seq_lt by exact Ht. reflexivity.
    - rewrite lookup_take_ge by lia.
      rewrite list_lookup_fmap, lookup_seq_ge by lia. reflexivity. }
  induction (seq 0 (Z.to_nat (HGH - LOW + 1))) as [|t l IH]; [reflexivity|].
  rewrite !fmap_cons. cbn [foldr]. rewrite IH. lia.
Qed.

Lemma window_total LOW HGH (n : nat) (mem' : list Z) h cs :
  LOW <= HGH -> hist_inside LOW HGH n h -> Z.of_nat (length cs) < 2 ^ 63 ->
  (forall k, (k < n)%nat ->
     exists g : nat,
       mem' !! k = Some (int64_of (0 + Z.of_nat (binned LOW HGH h cs (Z.of_nat k) + g))) /\
       (h + LOW <= Z.of_nat k <= h + HGH -> g = 0%nat)) ->
  window_sum LOW HGH h mem' = Z.of_nat (length cs).
Proof.
  intros HL Hin Hcs Hmem.
  pose proof (Hin LOW ltac:(lia)) as H0.
  rewrite (window_sum_counters LOW HGH h mem'
             (fun t => binned LOW HGH h cs (h + LOW + Z.of_nat t))).
  - rewrite binned_total by exact HL. reflexivity.
  - lia.
  - intros t Ht.
    pose proof (Hin (LOW + Z.of_nat t) ltac:(lia)) as Ht'.
    destruct (Hmem (Z.to_nat (h + LOW) + t)%nat ltac:(lia)) as (g & Hk & Hg).
    rewrite Hk.
    replace (Z.of_nat (Z.to_nat (h + LOW) + t)) with (h + LOW + Z.of_nat t) in * by lia.
    rewrite (Hg ltac:(lia)), Nat.add_0_r, Z.add_0_l.
    rewrite int64_of_small; [reflexivity|].
    pose proof (binned_le LOW HGH h cs (h + LOW + Z.of_nat t)).
    unfold is_int64. assert (- 2 ^ 63 < 0) by (pose proof (Z.pow_pos_nonneg 2 63); lia).
    lia.
Qed.

(** X11. The totals of the three histograms.  When [Venn2] runs on two
    sorted tables with a zeroed counter block that holds three windows which
    do not overlap, the counters of [A-B] add up to the number of entries of
    [A] whose key is not in [B], those of [B-A] to the number of entries of
    [B] whose key is not in [A], and those of the intersection to the number
    of keys the tables share: no count is lost or put into another
    histogram by the clamping. *)
Theorem Venn2_histogram_totals
  (LOW HGH : Z) (A B : Kmer_Stream) (comb : list Z) (n : nat) (hA hB hI : Z) :
  table_ok (kbyte A) (table A) = true -> table_ok (kbyte A) (table B) = true ->
  comb !! 0%nat = Some hA -> comb !! 1%nat = Some hB -> comb !! 2%nat = Some hI ->
  LOW <= HGH ->
  hist_inside LOW HGH n hA -> hist_inside LOW HGH n hB -> hist_inside LOW HGH n hI ->
  HGH - LOW < Z.abs (hA - hB) -> HGH - LOW < Z.abs (hA - hI) ->
  HGH - LOW < Z.abs (hB - hI) ->
  Z.of_nat (length (table A)) < 2 ^ 63 -> Z.of_nat (length (table B)) < 2 ^ 63 ->
  exists s,
    Venn2 LOW HGH [A; B] comb (replicate n 0) = Done s /\
    window_sum LOW HGH hA (v2_mem s) =
      Z.of_nat (length (counts_only (table A) (table B))) /\
    window_sum LOW HGH hB (v2_mem s) =
      Z.of_nat (length (counts_only (table B) (table A))) /\
    window_sum LOW HGH hI (v2_mem s) =
      Z.of_nat (length (counts_both (table A) (table B))).
Proof.
  intros HtA HtB HcA HcB HcI HL HiA HiB HiI Dab Dai Dbi HlA HlB.
  apply table_ok_sorted in HtA. apply table_ok_sorted in HtB.
  rewrite <- (length_replicate n 0) in HiA, HiB, HiI.
  pose proof (Venn2_spec LOW HGH A B comb (replicate n 0) hA hB hI HtA HtB HcA HcB HcI)
    as Hspec.
  destruct (Venn2 LOW HGH [A; B] comb (replicate n 0)) as [s| |] eqn:Hrun;
    [|tauto|contradiction].
  exists s. split; [reflexivity|].
  pose proof (Venn2_log_targets LOW HGH A B comb _ hA hB hI s HtA HtB HcA HcB HcI Hrun)
    as Hperm.
  destruct Hspec as (A' & B' & Lc & Ld & _ & _ & _ & _ & _ & Hlog & _ & _ & Hrep & _).
  rewrite <- Hlog in Hrep. rewrite length_replicate in HiA, HiB, HiI.
  assert (forall k, (k < n)%nat ->
            v2_mem s !! k =
              Some (int64_of
                      (0 + Z.of_nat
                         (binned LOW HGH hA (counts_only (table A) (table B)) (Z.of_nat k) +
                          binned LOW HGH hB (counts_only (table B) (table A)) (Z.of_nat k) +
                          binned LOW HGH hI (counts_both (table A) (table B)) (Z.of_nat k)))))
    as Hcnt.
  { intros k Hk.
    rewrite (replay_counts LOW HGH (v2_log s) _ (v2_mem s) Hrep
               ltac:(apply Forall_replicate; unfold is_int64; lia) k 0
               ltac:(apply lookup_replicate_2; exact Hk)).
    rewrite Hperm. unfold venn2_targets.
    rewrite !filter_app, !length_app, !filter_fmap_length. unfold binned.
    do 3 f_equal. lia. }
  pose proof (counts_only_length_le (table A) (table B)).
  pose proof (counts_only_length_le (table B) (table A)).
  pose proof (counts_both_length_le (kbyte A) (table A) (table B) HtB).
  split; [|split].
  - apply (window_total LOW HGH n); [exact HL | exact HiA | lia |].
    intros k Hk. eexists. split.
    + rewrite (Hcnt k Hk), <- Nat.add_assoc. reflexivity.
    + intros Hw. rewrite !binned_outside by lia. reflexivity.
  - apply (window_total LOW HGH n); [exact HL | exact HiB | lia |].
    intros k Hk. eexists. split.
    + rewrite (Hcnt k Hk).
      rewrite (Nat.add_comm (binned LOW HGH hA _ _)), <- Nat.add_assoc. reflexivity.
    + intros Hw. rewrite !binned_outside by lia. reflexivity.
  - apply (window_total LOW HGH n); [exact HL | exact HiI | lia |].
    intros k Hk. eexists. split.
    + rewrite (Hcnt k Hk). rewrite Nat.add_comm. reflexivity.
    + intros Hw. rewrite !binned_outside by lia. reflexivity.
Qed.

Lemma Venn2_histogram_totals_witness :
  exists s,
    Venn2 1 8 [ex_A; ex_B] [-1; 7; 15] (replicate 24 0) = Done s /\
    window_sum 1 8 (-1) (v2_mem s) =
      Z.of_nat (length (counts_only (table ex_A) (table ex_B))) /\
    window_sum 1 8 7 (v2_mem s) =
      Z.of_nat (length (counts_only (table ex_B) (table ex_A))) /\
    window_sum 1 8 15 (v2_mem s) =
      Z.of_nat (length (counts_both (table ex_A) (table ex_B))).
Proof.
  apply (Venn2_histogram_totals 1 8 ex_A ex_B [-1; 7; 15] 24 (-1) 7 15);
    try reflexivity; try lia;
    try (intros bin Hbin; simpl; lia).
Defined.

(* ===================================================================== *)
(** * [Venn]: one iteration for every distinct key *)
(* ===================================================================== *)

Lemma steps_ok_length kb L : forall R,
  (forall r, r ∈ R -> sorted_keys kb r) ->
  steps_ok kb R L -> length L = size (all_keys R).
Proof.
  induction L as [|ev L IH]; intros R Hs H.
  - simpl in H. rewrite (all_keys_exhausted R H), size_empty. reflexivity.
  - simpl in H. destruct H as (m & Hleast & _ & _ & Hrest).
    destruct (all_keys_step kb R m Hs Hleast) as [Hall Hnot].
    rewrite Hall, size_union by (apply disjoint_singleton_l; exact Hnot).
    rewrite size_singleton. simpl. f_equal. apply IH; [|exact Hrest].
    intros r Hr. apply list_elem_of_fmap in Hr as (r0 & -> & Hr0).
    apply sorted_keys_drop_min. exact (Hs r0 Hr0).
Qed.

Lemma sum_insert_succ (l : list Z) (i : nat) (p : Z) :
  l !! i = Some p -> foldr Z.add 0 (<[i := p + 1]> l) = foldr Z.add 0 l + 1.
Proof.
  revert i. induction l as [|x l IH]; intros [|i] H; simpl in *; try discriminate.
  - injection H as ->. lia.
  - rewrite (IH i H). lia.
Qed.

Lemma Venn_body_bump kb n s s' :
  Venn_body kb n s = Done (Some s') ->
  foldr Z.add 0 (vn_comb s') = foldr Z.add 0 (vn_comb s) + 1 /\
  length (vn_log s') = S (length (vn_log s)).
Proof.
  destruct s as [T ptr comb mem log]. unfold Venn_body.
  intros H. apply obind_done in H as (c & _ & H).
  destruct (n <=? c)%nat; [discriminate|]. inv_done.
  unfold ptr_bump in Ha1. destruct (0 <=? z - 1); [|discriminate].
  apply obind_done in Ha1 as (p & Hp & Hq). injection Hq as <-.
  apply rd_done in Hp. simpl. split; [exact (sum_insert_succ _ _ _ Hp)|].
  rewrite length_app. simpl. lia.
Qed.

Lemma Venn_loop_bumps kb n fuel : forall s s',
  Venn_loop kb n fuel s = Done s' ->
  foldr Z.add 0 (vn_comb s') - foldr Z.add 0 (vn_comb s) =
    Z.of_nat (length (vn_log s')) - Z.of_nat (length (vn_log s)).
Proof.
  induction fuel as [|fuel IH]; intros s s' H; [discriminate|].
  simpl in H. apply obind_done in H as ([s1|] & Hbody & H).
  - apply Venn_body_bump in Hbody as [Hsum Hlen]. apply IH in H. lia.
  - injection H as <-. lia.
Qed.

(** X12. On sorted tables [Venn] goes round its loop once for every distinct
    key of the tables and bumps exactly one base pointer each time: the
    number of iterations, and the total by which the base pointers have
    moved, is the number of distinct keys. *)
Theorem Venn_one_iteration_per_key
  (T : list Kmer_Stream) (comb : list Z) (nway : nat) (mem : list Z)
  (T0 : Kmer_Stream) :
  (nway <= 30)%nat -> length T = nway -> T !! 0%nat = Some T0 ->
  forallb (fun Tx => table_ok (kbyte T0) (table Tx)) T = true ->
  Z.of_nat (length comb) = 2 ^ Z.of_nat nway - 1 ->
  exists s,
    Venn T comb nway mem = Done s /\
    length (vn_log s) = size (all_keys (table <$> T)) /\
    foldr Z.add 0 (vn_comb s) =
      foldr Z.add 0 comb + Z.of_nat (size (all_keys (table <$> T))).
Proof.
  intros Hn Hlen HT0 Hok Hcomb.
  pose proof (forallb_table_ok _ _ Hok) as Hok'.
  destruct (Venn_spec T comb nway mem T0 Hn Hlen HT0 Hok' Hcomb)
    as (s & Hrun & _ & _ & _ & Hsteps & _).
  exists s. split; [exact Hrun|].
  assert (length (vn_log s) = size (all_keys (table <$> T))) as Hiter.
  { apply (steps_ok_length (kbyte T0)); [|exact Hsteps].
    intros r Hr. apply list_elem_of_fmap in Hr as (Tx & -> & HTx).
    apply table_ok_sorted. exact (Hok' Tx HTx). }
  split; [exact Hiter|].
  unfold Venn in Hrun.
  apply obind_done in Hrun as (T0' & _ & Hrun).
  apply obind_done in Hrun as ([T1 ptr] & _ & Hrun).
  apply Venn_loop_bumps in Hrun. simpl in Hrun. lia.
Qed.

Lemma Venn_one_iteration_per_key_witness :
  exists s,
    Venn [ex_A; ex_B; ex_C] [-1; 99; 199; 299; 399; 499; 599] 3 (replicate 100 0) = Done s /\
    length (vn_log s) = size (all_keys (table <$> [ex_A; ex_B; ex_C])) /\
    foldr Z.add 0 (vn_comb s) =
      foldr Z.add 0 [-1; 99; 199; 299; 399; 499; 599] +
      Z.of_nat (size (all_keys (table <$> [ex_A; ex_B; ex_C]))).
Proof.
  apply (Venn_one_iteration_per_key [ex_A; ex_B; ex_C] [-1; 99; 199; 299; 399; 499; 599]
           3 (replicate 100 0) ex_A); try reflexivity; lia.
Defined.

(* ===================================================================== *)
(** * [main]: opening the tables and naming the files *)
(* ===================================================================== *)

Lemma open_streams_all Open K : forall ops k acc,
  (k = 0 \/ k = K) ->
  (forall n, n ∈ ops -> exists T, Open n = Some T /\ kmer T = K) ->
  exists Ts,
    open_streams Open ops k acc =
      inr (acc ++ Ts, match ops with [] => k | _ => K end) /\
    Some <$> Ts = Open <$> ops.
Proof.
  induction ops as [|n ops IH]; intros k acc Hk Hall.
  - exists []. simpl. rewrite app_nil_r. auto.
  - destruct (Hall n ltac:(apply elem_of_cons; auto)) as (T & HT & HK).
    assert (forall n', n' ∈ ops -> exists T, Open n' = Some T /\ kmer T = K) as Hall'.
    { intros n' Hn'. apply Hall. apply elem_of_cons. auto. }
    assert (exists Ts, open_streams Open ops K (acc ++ [T]) = inr ((acc ++ [T]) ++ Ts, K) /\
                       Some <$> Ts = Open <$> ops) as (Ts & Hrun & HTs).
    { destruct (IH K (acc ++ [T]) ltac:(auto) Hall') as (Ts & Hrun & HTs).
      exists Ts. split; [|exact HTs]. rewrite Hrun. destruct ops; [|reflexivity].
      reflexivity. }
    exists (T :: Ts). cbn [open_streams fmap list_fmap]. rewrite HT, HK, HTs.
    rewrite <- app_assoc in Hrun. cbn [app] in Hrun.
    split; [|reflexivity].
    destruct (Z.eqb_spec k 0) as [->|Hk0]; [exact Hrun|].
    destruct Hk as [Hk|Hk]; [contradiction|]. subst k.
    rewrite Z.eqb_refl. exact Hrun.
Qed.

(** X13. When every operand names a table that can be opened and all the
    tables have the same k-mer length [K], the loop that opens them
    succeeds: stream [c] is the table of operand [c], and the k-mer length
    written to the files is [K]. *)
Theorem open_streams_opens_all
  (Open : string -> option Kmer_Stream) (ops : list string) (K : Z) :
  ops <> [] ->
  (forall n, n ∈ ops -> exists T, Open n = Some T /\ kmer T = K) ->
  exists Ts,
    open_streams Open ops 0 [] = inr (Ts, K) /\ Some <$> Ts = Open <$> ops.
Proof.
  intros Hne Hall.
  destruct (open_streams_all Open K ops 0 [] ltac:(auto) Hall) as (Ts & Hrun & HTs).
  exists Ts. split; [|exact HTs]. rewrite Hrun. destruct ops; [congruence | reflexivity].
Qed.

Lemma open_streams_opens_all_witness :
  exists Ts,
    open_streams ex_dir ["x"; "y"]%string 0 [] = inr (Ts, 3) /\
    Some <$> Ts = ex_dir <$> ["x"; "y"]%string.
Proof.
  apply (open_streams_opens_all ex_dir ["x"; "y"]%string 3); [discriminate|].
  intros n Hn. apply elem_of_cons in Hn as [->|Hn].
  - exists ex_A. split; reflexivity.
  - apply list_elem_of_singleton in Hn. subst n. exists ex_B. split; reflexivity.
Defined.







(* ===================================================================== *)
(** * The argument loop, argument by argument *)
(* ===================================================================== *)

(** X15. The argument loop goes through the command line from left to
    right and hands the window and the operands gathered so far from one
    argument to the next: parsing a command line that consists of two parts
    is parsing the first part and then, unless it ended in an error, the
    second part from where the first left off.  The first rejected option
    ends the run; what follows it is not looked at. *)
Theorem parse_args_left_to_right
  (F : string -> option message) (pre post : list string) (LOW HGH : Z)
  (acc : list string) :
  parse_args F (pre ++ post) LOW HGH acc =
    match parse_args F pre LOW HGH acc with
    | inl m => inl m
    | inr (lo, hi, ops) => parse_args F post lo hi ops
    end.
Proof.
  revert post LOW HGH acc.
  induction pre as [|a pre IH]; intros post LOW HGH acc; [reflexivity|].
  cbn [app parse_args].
  destruct a as [|c a1]; [apply IH|].
  destruct (Ascii.eqb_spec c "-"%char) as [->|Hc].
  - destruct a1 as [|c1 a2].
    { destruct (F "-"%string); [reflexivity | apply IH]. }
    destruct (Ascii.eqb_spec c1 "h"%char) as [->|Hc1].
    + destruct (parse_h a2) as [m|[lo hi]]; [reflexivity | apply IH].
    + destruct c1 as [[] [] [] [] [] [] [] []];
        try (destruct (F _); [reflexivity | apply IH]). congruence.
  - destruct c as [[] [] [] [] [] [] [] []]; try apply IH. congruence.
Qed.

(* ===================================================================== *)
(** * Haplex: printing a packed sequence *)
(* ===================================================================== *)

Lemma elem_lookup {A : Type} (l : list A) (i : nat) (x : A) :
  l !! i = Some x -> Haplex.elem l (Z.of_nat i) = Done x.
Proof.
  intros H. pose proof (lookup_lt_Some _ _ _ H) as Hlt. unfold Haplex.elem.
  replace (0 <=? Z.of_nat i) with true by (symmetry; apply Z.leb_le; lia).
  replace (Z.of_nat i <? Z.of_nat (length l)) with true
    by (symmetry; apply Z.ltb_lt; lia).
  simpl. rewrite Nat2Z.id. exact (rd_lookup _ _ _ H).
Qed.

Lemma elem_outside {A : Type} (l : list A) (i : Z) :
  i < 0 \/ Z.of_nat (length l) <= i -> Haplex.elem l i = Fault.
Proof.
  intros H. unfold Haplex.elem.
  destruct (Z.leb_spec 0 i); [|reflexivity].
  destruct (Z.ltb_spec i (Z.of_nat (length l))); [lia | reflexivity].
Qed.

Lemma fmer_checked :
  forallb (fun n =>
             match Haplex.print_fmer Haplex.setup_fmer_table (Z.of_nat n) with
             | Done s => String.eqb s (letters (byte_bases (Z.of_nat n)))
             | _ => false
             end) (seq 0 256) = true.
Proof. vm_compute. reflexivity. Qed.

Lemma print_fmer_byte x :
  is_byte x ->
  Haplex.print_fmer Haplex.setup_fmer_table x = Done (letters (byte_bases x)).
Proof.
  intros Hx. pose proof fmer_checked as H.
  rewrite forallb_forall in H. specialize (H (Z.to_nat x)).
  rewrite Z2Nat.id in H by (unfold is_byte in Hx; lia).
  assert (In (Z.to_nat x) (seq 0 256)) as Hin.
  { apply in_seq. unfold is_byte in Hx. lia. }
  specialize (H Hin).
  destruct (Haplex.print_fmer Haplex.setup_fmer_table x) as [s| |]; try discriminate.
  apply String.eqb_eq in H. rewrite H. reflexivity.
Qed.

(** X16. After [setup_fmer_table], [fmer[x]] is, for every byte [x], the
    string of the four letters of the bases packed into [x], first base in
    the top two bits. *)
Theorem setup_fmer_table_decodes_bytes (x : Z) :
  is_byte x ->
  Haplex.print_fmer Haplex.setup_fmer_table x = Done (letters (byte_bases x)) /\
  String.length (letters (byte_bases x)) = 4%nat /\
  length Haplex.setup_fmer_table.1 = 256%nat /\
  length Haplex.setup_fmer_table.2 = 1280%nat.
Proof.
  intros Hx. split; [exact (print_fmer_byte x Hx)|].
  split; [reflexivity|]. split; vm_compute; reflexivity.
Qed.

Lemma setup_fmer_table_decodes_bytes_witness :
  Haplex.print_fmer Haplex.setup_fmer_table 27 = Done (letters (byte_bases 27)) /\
  String.length (letters (byte_bases 27)) = 4%nat /\
  length Haplex.setup_fmer_table.1 = 256%nat /\
  length Haplex.setup_fmer_table.2 = 1280%nat.
Proof. apply (setup_fmer_table_decodes_bytes 27). unfold is_byte. lia. Defined.

Lemma letters_app l1 l2 : letters (l1 ++ l2) = (letters l1 ++ letters l2)%string.
Proof.
  induction l1 as [|c l1 IH]; [reflexivity|].
  simpl. rewrite IH. reflexivity.
Qed.

Lemma unpack_cons x seq : unpack (x :: seq) = byte_bases x ++ unpack seq.
Proof. reflexivity. Qed.

Lemma unpack_app s1 s2 : unpack (s1 ++ s2) = unpack s1 ++ unpack s2.
Proof. unfold unpack. apply bind_app. Qed.

Lemma unpack_length seq : length (unpack seq) = (4 * length seq)%nat.
Proof.
  induction seq as [|x seq IH]; [reflexivity|].
  rewrite unpack_cons, length_app, IH. simpl. lia.
Qed.

Lemma print_seq_bytes_spec seq : forall k i,
  Forall is_byte seq -> (i + k <= length seq)%nat ->
  Haplex.print_seq_bytes Haplex.setup_fmer_table seq i k =
    Done (letters (unpack (take k (drop i seq)))).
Proof.
  induction k as [|k IH]; intros i Hb Hle; [reflexivity|].
  destruct (lookup_lt_is_Some_2 seq i ltac:(lia)) as [x Hx].
  cbn [Haplex.print_seq_bytes]. rewrite (rd_lookup _ _ _ Hx). simpl.
  rewrite (print_fmer_byte x) by exact (proj1 (Forall_lookup _ _) Hb i x Hx). simpl.
  rewrite IH by (auto; lia). simpl.
  rewrite (drop_S _ _ _ Hx). cbn [take]. rewrite unpack_cons, letters_app. reflexivity.
Qed.

Lemma print_seq_rest_byte seq (b : nat) x r : forall k,
  seq !! b = Some x ->
  Haplex.print_seq_rest seq (Z.of_nat b) k r = Haplex.print_seq_rest [x] 0 k r.
Proof.
  induction r as [|r IH]; intros k Hx; [reflexivity|].
  cbn [Haplex.print_seq_rest]. rewrite (elem_lookup _ _ _ Hx).
  replace (Haplex.elem [x] 0) with (Done x) by reflexivity.
  rewrite IH by exact Hx. reflexivity.
Qed.

Lemma rest_checked :
  forallb (fun n =>
    forallb (fun r =>
      match Haplex.print_seq_rest [Z.of_nat n] 0 6 r,
            (if forallb (Z.eqb 0) (take (r - 1) (byte_bases (Z.of_nat n)))
             then Some (letters (take r (byte_bases (Z.of_nat n)))) else None) with
      | Done s, Some s' => String.eqb s s'
      | Fault, None => true
      | _, _ => false
      end) (seq 0 4)) (seq 0 256) = true.
Proof. vm_compute. reflexivity. Qed.

Lemma print_seq_rest_spec x (r : nat) :
  is_byte x -> (r < 4)%nat ->
  Haplex.print_seq_rest [x] 0 6 r =
    if forallb (Z.eqb 0) (take (r - 1) (byte_bases x))
    then Done (letters (take r (byte_bases x))) else Fault.
Proof.
  intros Hx Hr. pose proof rest_checked as H.
  rewrite forallb_forall in H. specialize (H (Z.to_nat x)).
  rewrite Z2Nat.id in H by (unfold is_byte in Hx; lia).
  assert (In (Z.to_nat x) (seq 0 256)) as Hin.
  { apply in_seq. unfold is_byte in Hx. lia. }
  specialize (H Hin). rewrite forallb_forall in H.
  specialize (H r ltac:(apply in_seq; lia)).
  destruct (Haplex.print_seq_rest [x] 0 6 r) as [s| |];
    destruct (forallb (Z.eqb 0) (take (r - 1) (byte_bases x))); try discriminate;
    [|reflexivity].
  apply String.eqb_eq in H. rewrite H. reflexivity.
Qed.

(** The first [4 b + r] codes of a packed sequence: those of the first [b]
    bytes and [r] of the next byte. *)
Lemma take_unpack seq (b r : nat) :
  (r < 4)%nat -> (b <= length seq)%nat ->
  take (4 * b + r) (unpack seq) =
    unpack (take b seq) ++
    match seq !! b with
    | Some x => take r (byte_bases x)
    | None => []
    end.
Proof.
  intros Hr Hb.
  rewrite <- (take_drop b seq) at 1. rewrite unpack_app.
  rewrite take_app_add' by (rewrite unpack_length, length_take; lia).
  f_equal.
  replace (seq !! b) with (drop b seq !! 0%nat)
    by (rewrite lookup_drop, Nat.add_0_r; reflexivity).
  destruct (drop b seq) as [|x rest]; [apply take_nil|].
  simpl lookup. rewrite unpack_cons. rewrite take_app_le by (simpl; lia). reflexivity.
Qed.

Lemma print_seq_core (seq : list Z) (len : Z) :
  Forall is_byte seq -> 0 <= len <= 4 * Z.of_nat (length seq) ->
  Haplex.print_seq Haplex.setup_fmer_table seq len =
    match seq !! Z.to_nat (len / 4) with
    | Some x =>
        if forallb (Z.eqb 0) (take (Z.to_nat (len mod 4) - 1) (byte_bases x))
        then Done (letters (take (Z.to_nat len) (unpack seq)))
        else Fault
    | None => Done (letters (take (Z.to_nat len) (unpack seq)))
    end.
Proof.
  intros Hb Hlen.
  pose proof (Z.div_mod len 4 ltac:(lia)) as Hdm.
  pose proof (Z.mod_pos_bound len 4 ltac:(lia)) as Hmod.
  assert (0 <= len / 4) as Hq by (apply Z.div_pos; lia).
  unfold Haplex.print_seq.
  rewrite Z.shiftr_div_pow2, Z.shiftl_mul_pow2 by lia. change (2 ^ 2) with 4.
  replace (len - len / 4 * 4) with (len mod 4) by lia.
  rewrite print_seq_bytes_spec by (auto; lia). rewrite drop_0. simpl mbind.
  replace (Z.to_nat len) with (4 * Z.to_nat (len / 4) + Z.to_nat (len mod 4))%nat by lia.
  rewrite take_unpack by lia.
  destruct (seq !! Z.to_nat (len / 4)) as [x|] eqn:Hx.
  - rewrite <- (Z2Nat.id (len / 4)) at 1 by lia.
    rewrite (print_seq_rest_byte _ _ _ _ _ Hx).
    rewrite print_seq_rest_spec
      by (try exact (proj1 (Forall_lookup _ _) Hb _ x Hx); lia).
    destruct (forallb _ _); [|reflexivity]. simpl. rewrite letters_app. reflexivity.
  - apply lookup_ge_None in Hx.
    replace (Z.to_nat (len mod 4)) with 0%nat by lia. simpl.
    rewrite letters_app. reflexivity.
Qed.

(** X17. [print_seq] on a sequence of [len] bases packed four to a byte.
    When at most one base is left over after the whole bytes, it prints the
    letters of the [len] bases.  When two or three are left over, the index
    into [dna] for the second and third of them still holds the bases
    before: the letters are printed only if those bases are all [a] (code
    0), and otherwise the function reads outside [dna]. *)
Theorem print_seq_prints_bases (seq : list Z) (len : Z) :
  Forall is_byte seq -> 0 <= len <= 4 * Z.of_nat (length seq) ->
  (len mod 4 <= 1 ->
     Haplex.print_seq Haplex.setup_fmer_table seq len =
       Done (letters (take (Z.to_nat len) (unpack seq)))) /\
  (forall x, 2 <= len mod 4 -> seq !! Z.to_nat (len / 4) = Some x ->
     Haplex.print_seq Haplex.setup_fmer_table seq len =
       if forallb (Z.eqb 0) (take (Z.to_nat (len mod 4) - 1) (byte_bases x))
       then Done (letters (take (Z.to_nat len) (unpack seq)))
       else Fault).
Proof.
  intros Hb Hlen. rewrite (print_seq_core seq len Hb Hlen). split.
  - intros Hr. destruct (seq !! Z.to_nat (len / 4)) as [x|]; [|reflexivity].
    pose proof (Z.mod_pos_bound len 4 ltac:(lia)).
    replace (Z.to_nat (len mod 4) - 1)%nat with 0%nat by lia. reflexivity.
  - intros x _ ->. reflexivity.
Qed.

Lemma print_seq_prints_bases_witness :
  (5 mod 4 <= 1 ->
     Haplex.print_seq Haplex.setup_fmer_table [27; 192] 5 =
       Done (letters (take (Z.to_nat 5) (unpack [27; 192])))) /\
  (forall x, 2 <= 5 mod 4 -> [27; 192] !! Z.to_nat (5 / 4) = Some x ->
     Haplex.print_seq Haplex.setup_fmer_table [27; 192] 5 =
       if forallb (Z.eqb 0) (take (Z.to_nat (5 mod 4) - 1) (byte_bases x))
       then Done (letters (take (Z.to_nat 5) (unpack [27; 192])))
       else Fault).
Proof.
  apply (print_seq_prints_bases [27; 192] 5).
  - repeat constructor; unfold is_byte; lia.
  - simpl. lia.
Defined.

(* ===================================================================== *)
(** * Haplex: the common prefix of two packed sequences *)
(* ===================================================================== *)

Lemma mypref_bytes_checked :
  forallb (fun x =>
    forallb (fun y =>
      if (x =? y)%nat then true
      else
        match Haplex.mypref_loop [Z.of_nat x] [Z.of_nat y] 0 0 1 with
        | Done j =>
            (0 <=? j) && (j <? 4) &&
            bool_decide (take (Z.to_nat j) (byte_bases (Z.of_nat x)) =
                         take (Z.to_nat j) (byte_bases (Z.of_nat y))) &&
            negb (bool_decide (byte_bases (Z.of_nat x) !! Z.to_nat j =
                               byte_bases (Z.of_nat y) !! Z.to_nat j))
        | _ => false
        end) (seq 0 256)) (seq 0 256) = true.
Proof. vm_compute. reflexivity. Qed.

Lemma mypref_bytes x y :
  is_byte x -> is_byte y -> x <> y ->
  exists j, Haplex.mypref_loop [x] [y] 0 0 1 = Done j /\ 0 <= j < 4 /\
            take (Z.to_nat j) (byte_bases x) = take (Z.to_nat j) (byte_bases y) /\
            byte_bases x !! Z.to_nat j <> byte_bases y !! Z.to_nat j.
Proof.
  unfold is_byte. intros Hx Hy Hne. pose proof mypref_bytes_checked as H.
  rewrite forallb_forall in H. specialize (H (Z.to_nat x) ltac:(apply in_seq; lia)).
  rewrite forallb_forall in H. specialize (H (Z.to_nat y) ltac:(apply in_seq; lia)).
  rewrite !Z2Nat.id in H by lia.
  destruct (Nat.eqb_spec (Z.to_nat x) (Z.to_nat y)) as [Heq|_]; [lia|].
  destruct (Haplex.mypref_loop [x] [y] 0 0 1) as [j| |]; try discriminate.
  apply andb_prop in H as [H H4]. apply andb_prop in H as [H H3].
  apply andb_prop in H as [H1 H2].
  apply Z.leb_le in H1. apply Z.ltb_lt in H2. apply bool_decide_eq_true in H3.
  apply negb_true_iff, bool_decide_eq_false in H4.
  exists j. auto.
Qed.

(** The result at a pair of different bytes is the place of the pass plus
    the result for the two bytes alone. *)
Lemma mypref_loop_differ x a y b i n fuel j :
  i <= n -> x <> y -> Haplex.mypref_loop [x] [y] 0 0 1 = Done j ->
  Haplex.mypref_loop (x :: a) (y :: b) i n (S fuel) = Done (i + j).
Proof.
  intros Hi Hne. cbn [Haplex.mypref_loop].
  replace (i <=? n) with true by (symmetry; apply Z.leb_le; lia).
  change (0 <=? 0) with true. cbv iota.
  destruct (Z.eqb_spec x y) as [|_]; [contradiction|]. cbn [negb].
  destruct (negb (Z.land x 240 =? Z.land y 240));
    [destruct (negb (Z.land x 192 =? Z.land y 192))
    |destruct (negb (Z.land x 252 =? Z.land y 252))];
    intros H; injection H as <-; f_equal; lia.
Qed.

Lemma mypref_loop_spec n : forall fuel a b i,
  Forall is_byte a -> Forall is_byte b ->
  0 <= i -> 0 <= n < 2 ^ 31 - 4 ->
  (0 < fuel)%nat -> n + 4 - i < 4 * Z.of_nat fuel ->
  n - i < 4 * Z.of_nat (length a) -> n - i < 4 * Z.of_nat (length b) ->
  exists r,
    Haplex.mypref_loop a b i n fuel = Done r /\
    ((n < r /\
      take (Z.to_nat (n + 1 - i)) (unpack a) = take (Z.to_nat (n + 1 - i)) (unpack b)) \/
     (i <= r <= n /\
      take (Z.to_nat (r - i)) (unpack a) = take (Z.to_nat (r - i)) (unpack b) /\
      unpack a !! Z.to_nat (r - i) <> unpack b !! Z.to_nat (r - i))).
Proof.
  assert (- 2 ^ 31 < 0) as Hneg by (pose proof (Z.pow_pos_nonneg 2 31); lia).
  induction fuel as [|fuel IH]; intros a b i Ha Hb Hi Hn Hpos Hfuel Hla Hlb; [lia|].
  destruct (Z.le_gt_cases i n) as [Hin|Hin].
  - destruct a as [|x a]; [simpl in Hla; lia|].
    destruct b as [|y b]; [simpl in Hlb; lia|].
    apply Forall_cons in Ha as [Hx Ha]. apply Forall_cons in Hb as [Hy Hb].
    rewrite !unpack_cons.
    destruct (Z.eq_dec x y) as [<-|Hne].
    + cbn [Haplex.mypref_loop].
      replace (i <=? n) with true by (symmetry; apply Z.leb_le; lia).
      rewrite Z.eqb_refl. cbn [negb]. rewrite int_of_small by lia.
      destruct (IH a b (i + 4) Ha Hb ltac:(lia) Hn ltac:(lia) ltac:(lia)
                  ltac:(simpl length in Hla; lia) ltac:(simpl length in Hlb; lia))
        as (r & Hr & Hcase).
      exists r. split; [exact Hr|].
      destruct Hcase as [[Hnr Htake]|(Hir & Htake & Hdiff)].
      * left. split; [exact Hnr|].
        rewrite !(take_app (byte_bases x)). f_equal.
        change (length (byte_bases x)) with 4%nat.
        replace (Z.to_nat (n + 1 - i) - 4)%nat with (Z.to_nat (n + 1 - (i + 4))) by lia.
        exact Htake.
      * right. split; [lia|]. split.
        -- rewrite !(take_app (byte_bases x)). f_equal.
           change (length (byte_bases x)) with 4%nat.
           replace (Z.to_nat (r - i) - 4)%nat with (Z.to_nat (r - (i + 4))) by lia.
           exact Htake.
        -- rewrite !lookup_app_r by (change (length (byte_bases x)) with 4%nat; lia).
           change (length (byte_bases x)) with 4%nat.
           replace (Z.to_nat (r - i) - 4)%nat with (Z.to_nat (r - (i + 4))) by lia.
           exact Hdiff.
    + destruct (mypref_bytes x y Hx Hy Hne) as (j & Hj & Hj4 & Htake & Hdiff).
      exists (i + j). split; [exact (mypref_loop_differ x a y b i n fuel j Hin Hne Hj)|].
      destruct (Z.le_gt_cases (i + j) n) as [Hle|Hgt].
      * right. split; [lia|]. replace (i + j - i) with j by lia. split.
        -- rewrite !take_app_le by (simpl; lia). exact Htake.
        -- rewrite !lookup_app_l by (simpl; lia). exact Hdiff.
      * left. split; [lia|].
        rewrite !take_app_le by (simpl; lia).
        replace (Z.to_nat (n + 1 - i)) with (Z.to_nat (n + 1 - i) `min` Z.to_nat j)%nat by lia.
        rewrite <- !take_take. rewrite Htake. reflexivity.
  - exists (n + 1). split.
    + cbn [Haplex.mypref_loop].
      replace (i <=? n) with false by (symmetry; apply Z.leb_gt; lia).
      rewrite int_of_small by lia. reflexivity.
    + left. split; [lia|]. replace (Z.to_nat (n + 1 - i)) with 0%nat by lia. reflexivity.
Qed.

(** X18. [mypref a b n] on two packed sequences that hold the bases
    [0 .. n]: when the sequences differ at one of these bases it returns the
    position of the first base at which they differ, and when they agree on
    all of them it returns a value larger than [n]. *)
Theorem mypref_first_difference (a b : list Z) (n : Z) :
  Forall is_byte a -> Forall is_byte b ->
  0 <= n < 2 ^ 31 - 4 ->
  n < 4 * Z.of_nat (length a) -> n < 4 * Z.of_nat (length b) ->
  exists r,
    Haplex.mypref a b n = Done r /\
    ((n < r /\
      take (Z.to_nat (n + 1)) (unpack a) = take (Z.to_nat (n + 1)) (unpack b)) \/
     (0 <= r <= n /\
      take (Z.to_nat r) (unpack a) = take (Z.to_nat r) (unpack b) /\
      unpack a !! Z.to_nat r <> unpack b !! Z.to_nat r)).
Proof.
  intros Ha Hb Hn Hla Hlb. unfold Haplex.mypref.
  pose proof (Z.div_mod n 4 ltac:(lia)) as Hdm.
  pose proof (Z.mod_pos_bound n 4 ltac:(lia)) as Hmod.
  assert (0 <= n / 4) as Hq by (apply Z.div_pos; lia).
  destruct (mypref_loop_spec n (S (Z.to_nat (n / 4 + 1))) a b 0 Ha Hb ltac:(lia) Hn
              ltac:(lia) ltac:(lia) ltac:(lia) ltac:(lia)) as (r & Hr & Hcase).
  exists r. split; [exact Hr|].
  rewrite !Z.sub_0_r in Hcase. exact Hcase.
Qed.

Lemma mypref_first_difference_witness :
  exists r,
    Haplex.mypref [27; 192] [27; 208] 6 = Done r /\
    ((6 < r /\
      take (Z.to_nat (6 + 1)) (unpack [27; 192]) =
      take (Z.to_nat (6 + 1)) (unpack [27; 208])) \/
     (0 <= r <= 6 /\
      take (Z.to_nat r) (unpack [27; 192]) = take (Z.to_nat r) (unpack [27; 208]) /\
      unpack [27; 192] !! Z.to_nat r <> unpack [27; 208] !! Z.to_nat r)).
Proof.
  apply (mypref_first_difference [27; 192] [27; 208] 6);
    try (repeat constructor; unfold is_byte; lia); simpl; lia.
Defined.

(* ===================================================================== *)
(** * Haplex: the frequency filter of [Load_Kmer_Table] *)
(* ===================================================================== *)

Lemma mycpy_loop_spec (k : nat) : forall fuel (mem : list Z) (a b : nat),
  (a <= b)%nat -> (b + k <= length mem)%nat -> Z.of_nat k < 2 ^ 31 -> (k < fuel)%nat ->
  Haplex.mycpy_loop mem (Z.of_nat a) (Z.of_nat b) (Z.of_nat k) fuel =
    Done (take a mem ++ take k (drop b mem) ++ drop (a + k) mem).
Proof.
  assert (- 2 ^ 31 < 0) as Hneg by (pose proof (Z.pow_pos_nonneg 2 31); lia).
  induction k as [|k IH]; intros fuel mem a b Hab Hlen Hk Hfuel;
    (destruct fuel as [|fuel]; [lia|]).
  - simpl. rewrite Nat.add_0_r, take_drop. reflexivity.
  - destruct (lookup_lt_is_Some_2 mem b ltac:(lia)) as [x Hx].
    cbn [Haplex.mycpy_loop].
    replace (Z.of_nat (S k) =? 0) with false by (symmetry; apply Z.eqb_neq; lia).
    rewrite (elem_lookup _ _ _ Hx). simpl mbind.
    replace (0 <=? Z.of_nat a) with true by (symmetry; apply Z.leb_le; lia).
    unfold wr. rewrite Nat2Z.id.
    replace (a <? length mem)%nat with true by (symmetry; apply Nat.ltb_lt; lia).
    simpl mbind.
    replace (Z.of_nat (S k) - 1) with (Z.of_nat k) by lia.
    rewrite int_of_small by lia.
    replace (Z.of_nat a + 1) with (Z.of_nat (S a)) by lia.
    replace (Z.of_nat b + 1) with (Z.of_nat (S b)) by lia.
    rewrite IH by (rewrite ?length_insert; lia). f_equal.
    rewrite (take_S_r _ a x) by (apply list_lookup_insert_eq; lia).
    rewrite take_insert_ge by lia.
    rewrite !drop_insert_lt by lia.
    rewrite <- app_assoc. f_equal. simpl.
    rewrite (drop_S _ _ _ Hx). cbn [take].
    replace (a + S k)%nat with (S (a + k)) by lia. reflexivity.
Qed.

(** X19. [mycpy] copies forward: for a destination at or before the source,
    the [n] bytes at the destination become the [n] bytes that were at the
    source, also when the two ranges overlap, and no other byte of the block
    changes. *)
Theorem mycpy_copies_forward (mem : list Z) (a b n : nat) :
  (a <= b)%nat -> (b + n <= length mem)%nat -> Z.of_nat n < 2 ^ 31 ->
  Haplex.mycpy mem (Z.of_nat a) (Z.of_nat b) (Z.of_nat n) =
    Done (take a mem ++ take n (drop b mem) ++ drop (a + n) mem).
Proof.
  intros Hab Hlen Hn. unfold Haplex.mycpy. apply mycpy_loop_spec; lia.
Qed.

Lemma mycpy_copies_forward_witness :
  Haplex.mycpy [1; 2; 3; 4; 5] (Z.of_nat 1) (Z.of_nat 2) (Z.of_nat 3) =
    Done (take 1 [1; 2; 3; 4; 5] ++ take 3 (drop 2 [1; 2; 3; 4; 5]) ++
          drop (1 + 3) [1; 2; 3; 4; 5]).
Proof. apply (mycpy_copies_forward [1; 2; 3; 4; 5] 1 2 3); simpl; lia. Defined.

Lemma copy_entry (pre junk e crest : list Z) (tb i j : nat) :
  length pre = (j * tb)%nat -> length (pre ++ junk) = (i * tb)%nat -> length e = tb ->
  take (j * tb) (pre ++ junk ++ e ++ crest) ++
  take tb (drop (i * tb) (pre ++ junk ++ e ++ crest)) ++
  drop (j * tb + tb) (pre ++ junk ++ e ++ crest) =
    (pre ++ e) ++ drop tb (junk ++ e) ++ crest.
Proof.
  intros Hpre Hpj He.
  rewrite (take_app_length' pre) by lia.
  rewrite (drop_app_add' pre) by lia.
  replace (drop (i * tb) (pre ++ junk ++ e ++ crest)) with (e ++ crest).
  2:{ rewrite (app_assoc pre junk). rewrite drop_app_length' by lia. reflexivity. }
  rewrite (take_app_length' e) by lia.
  rewrite (app_assoc junk e crest).
  rewrite drop_app_le by (rewrite length_app; lia).
  rewrite <- !app_assoc. reflexivity.
Qed.

Lemma filter_loop_spec u16 cf (kb : nat) : forall (rest : list (list Z)) pre junk (i j : nat),
  Forall (fun e => length e = (kb + 2)%nat) rest ->
  length pre = (j * (kb + 2))%nat -> length (pre ++ junk) = (i * (kb + 2))%nat ->
  Z.of_nat (kb + 2) < 2 ^ 31 ->
  exists junk',
    Haplex.filter_loop u16 cf (Z.of_nat (kb + 2)) (Z.of_nat kb)
      (pre ++ junk ++ concat rest) (Z.of_nat (j * (kb + 2))) (Z.of_nat i) (length rest) =
      Done (pre ++ concat (frequent u16 cf kb rest) ++ junk',
            Z.of_nat ((j + length (frequent u16 cf kb rest)) * (kb + 2))) /\
    (length (concat (frequent u16 cf kb rest)) + length junk' =
       length junk + length (concat rest))%nat.
Proof.
  induction rest as [|e rest IH]; intros pre junk i j Hall Hpre Hpj Htb.
  { exists junk. simpl. rewrite app_nil_r, Nat.add_0_r. auto. }
  apply Forall_cons in Hall as [He Hall].
  rewrite length_app in Hpj.
  destruct (lookup_lt_is_Some_2 e kb ltac:(lia)) as [x Hx].
  destruct (lookup_lt_is_Some_2 e (S kb) ltac:(lia)) as [y Hy].
  assert (forall t v, e !! t = Some v -> (pre ++ junk ++ concat (e :: rest)) !!
                        (i * (kb + 2) + t)%nat = Some v) as Hat.
  { intros t v Ht. rewrite (app_assoc pre junk).
    rewrite lookup_app_r by (rewrite length_app; lia).
    rewrite length_app. replace (i * (kb + 2) + t - (length pre + length junk))%nat with t by lia.
    simpl. apply lookup_app_l_Some. exact Ht. }
  cbn [Haplex.filter_loop length]. unfold Haplex.COUNT_OF.
  replace (Z.of_nat i * Z.of_nat (kb + 2) + Z.of_nat kb)
    with (Z.of_nat (i * (kb + 2) + kb)) by lia.
  rewrite (elem_lookup _ _ _ (Hat kb x Hx)). cbn [mbind outcome_bind].
  replace (Z.of_nat (i * (kb + 2) + kb) + 1)
    with (Z.of_nat (i * (kb + 2) + S kb)) by lia.
  rewrite (elem_lookup _ _ _ (Hat (S kb) y Hy)). cbn [mbind outcome_bind].
  assert (entry_count u16 kb e = u16 x y) as Hcount.
  { unfold entry_count. rewrite (nth_lookup_Some _ _ _ _ Hx), (nth_lookup_Some _ _ _ _ Hy).
    reflexivity. }
  unfold frequent at 1 2 3.
  destruct (Z.geb_spec (u16 x y) cf) as [Hkeep|Hdrop].
  - rewrite filter_cons_True by (rewrite Hcount; lia).
    fold (frequent u16 cf kb rest).
    replace (Z.of_nat i * Z.of_nat (kb + 2)) with (Z.of_nat (i * (kb + 2))) by lia.
    unfold Haplex.mycpy.
    rewrite mycpy_loop_spec
      by (rewrite ?length_app; simpl; rewrite ?length_app; nia).
    cbn [mbind outcome_bind]. cbn [concat].
    rewrite (copy_entry pre junk e (concat rest) (kb + 2) i j) by (rewrite ?length_app; lia).
    replace (Z.of_nat (j * (kb + 2)) + Z.of_nat (kb + 2))
      with (Z.of_nat (S j * (kb + 2))) by lia.
    replace (Z.of_nat i + 1) with (Z.of_nat (S i)) by lia.
    destruct (IH (pre ++ e) (drop (kb + 2) (junk ++ e)) (S i) (S j) Hall)
      as (junk' & Hrun & Hlen).
    { rewrite length_app. lia. }
    { rewrite !length_app, length_drop, length_app. lia. }
    { exact Htb. }
    exists junk'. rewrite Hrun. split.
    + cbn [length].
      replace (j + S (length (frequent u16 cf kb rest)))%nat
        with (S j + length (frequent u16 cf kb rest))%nat by lia.
      rewrite <- !app_assoc. reflexivity.
    + rewrite length_drop, length_app in Hlen. cbn [length concat].
      rewrite !length_app. lia.
  - rewrite filter_cons_False by (rewrite Hcount; lia).
    fold (frequent u16 cf kb rest).
    replace (Z.of_nat i + 1) with (Z.of_nat (S i)) by lia.
    destruct (IH pre (junk ++ e) (S i) j Hall Hpre) as (junk' & Hrun & Hlen).
    { rewrite !length_app. lia. }
    { exact Htb. }
    exists junk'. cbn [concat]. rewrite <- (app_assoc junk e) in Hrun. rewrite Hrun.
    split; [reflexivity|]. rewrite length_app in Hlen. rewrite length_app. lia.
Qed.

Lemma concat_length_uniform (tb : nat) (es : list (list Z)) :
  Forall (fun e => length e = tb) es -> length (concat es) = (length es * tb)%nat.
Proof.
  induction 1 as [|e es He _ IH]; [reflexivity|].
  simpl. rewrite length_app, IH, He. reflexivity.
Qed.

(** X20. The frequency filter of [Load_Kmer_Table].  On a table of entries
    of [kbyte + 2] bytes each, a cut-off above 1 leaves exactly the entries
    whose count is at least the cut-off, in their order and packed at the
    start of the block, and [nels] becomes their number; a cut-off of 1 or
    less leaves the table as it is. *)
Theorem cut_table_keeps_frequent
  (u16 : Z -> Z -> Z) (cut_freq : Z) (kbyte : nat) (es : list (list Z)) :
  Forall (fun e => length e = (kbyte + 2)%nat) es ->
  Z.of_nat (kbyte + 2) < 2 ^ 31 ->
  Haplex.cut_table u16 cut_freq (Z.of_nat (kbyte + 2)) (Z.of_nat kbyte)
                   (Z.of_nat (length es)) (concat es) =
    if cut_freq >? 1
    then Done (Z.of_nat (length (frequent u16 cut_freq kbyte es)),
               concat (frequent u16 cut_freq kbyte es))
    else Done (Z.of_nat (length es), concat es).
Proof.
  intros Hall Htb. unfold Haplex.cut_table.
  destruct (cut_freq >? 1); [|reflexivity]. rewrite Nat2Z.id.
  destruct (filter_loop_spec u16 cut_freq kbyte es [] [] 0 0 Hall eq_refl eq_refl Htb)
    as (junk' & Hrun & Hlen).
  cbn [app Nat.mul Nat.add] in Hrun. change (Z.of_nat 0) with 0 in Hrun.
  rewrite Hrun. cbn [mbind outcome_bind].
  replace (Z.of_nat (kbyte + 2) =? 0) with false by (symmetry; apply Z.eqb_neq; lia).
  rewrite Nat2Z.inj_mul, Z.quot_mul by lia.
  assert (Forall (fun e => length e = (kbyte + 2)%nat) (frequent u16 cut_freq kbyte es))
    as Hkept.
  { apply Forall_forall. intros e He. apply list_elem_of_filter in He as [_ He].
    exact (proj1 (Forall_forall _ _) Hall e He). }
  pose proof (concat_length_uniform _ _ Hkept) as Hck.
  pose proof (concat_length_uniform _ _ Hall) as Hce.
  pose proof (length_filter (fun e => cut_freq <= entry_count u16 kbyte e) es) as Hle.
  fold (frequent u16 cut_freq kbyte es) in Hle.
  destruct (Z.ltb_spec (Z.of_nat (length (frequent u16 cut_freq kbyte es)))
                       (Z.of_nat (length es))) as [Hlt|Hge].
  - f_equal. f_equal. rewrite <- Nat2Z.inj_mul, Nat2Z.id.
    apply take_app_length'. lia.
  - assert (length (frequent u16 cut_freq kbyte es) = length es) as Heq by lia.
    assert (junk' = []) as ->.
    { apply length_zero_iff_nil. simpl in Hlen. nia. }
    rewrite app_nil_r, Heq. reflexivity.
Qed.

Lemma cut_table_keeps_frequent_witness :
  Haplex.cut_table (fun x y => x + 256 * y) 3 (Z.of_nat (1 + 2)) (Z.of_nat 1)
                   (Z.of_nat (length [[7; 5; 0]; [8; 2; 0]; [9; 3; 0]]))
                   (concat [[7; 5; 0]; [8; 2; 0]; [9; 3; 0]]) =
    if 3 >? 1
    then Done (Z.of_nat (length (frequent (fun x y => x + 256 * y) 3 1
                                          [[7; 5; 0]; [8; 2; 0]; [9; 3; 0]])),
               concat (frequent (fun x y => x + 256 * y) 3 1
                                [[7; 5; 0]; [8; 2; 0]; [9; 3; 0]]))
    else Done (Z.of_nat (length [[7; 5; 0]; [8; 2; 0]; [9; 3; 0]]),
               concat [[7; 5; 0]; [8; 2; 0]; [9; 3; 0]]).
Proof.
  apply (cut_table_keeps_frequent (fun x y => x + 256 * y) 3 1
           [[7; 5; 0]; [8; 2; 0]; [9; 3; 0]]).
  - repeat constructor.
  - simpl. lia.
Defined.
